(** * indexeddb-export-import: export, import and clear of an IndexedDB database

    A shallow embedding of [src/index.js].  The three exported operations
    ([exportToJsonString], [importFromJsonString], [clearDatabase]) and their
    helpers ([exportReplacer], [importResolver], [isArrayBuffer], [ab2str],
    [str2ab]) are translated function by function.  What the file takes from
    its host (JSON.stringify, JSON.parse, lodash's forEach and keys, the
    IndexedDB engine) is modelled next to them, each under a heading of its
    own. *)

From Stdlib Require Import ZArith NArith Lia Bool.
From Stdlib.Strings Require Import Byte.
From Stdlib Require Import DecimalN DecimalZ DecimalFacts DecimalPos.
From stdpp Require Import base list numbers.

Set Warnings "-register-all".

(** ** Values *)

(** A JavaScript string is a sequence of UTF-16 code units. *)
Abbreviation code_unit := N (only parsing).
Abbreviation jsstring := (list N) (only parsing).

(** The values a record may hold: what JSON can write down, and byte buffers
    (ArrayBuffer).  A number [VNum m e] is the exact decimal [m * 10^e]; the
    rounding of IEEE doubles is outside the embedding, and so are NaN, the
    infinities, undefined and the other host objects.  An object is the list
    of its own properties, in property order. *)
Inductive value : Type :=
| VNull
| VBool (b : bool)
| VNum (m e : Z)
| VStr (s : jsstring)
| VArr (l : list value)
| VObj (o : list (jsstring * value))
| VBuf (b : list byte).

Abbreviation object := (list (list N * value)) (only parsing).

(** ** Binary codec *)

(** [typeof ArrayBuffer === 'function'] holds in every host that has byte
    buffers; [value instanceof ArrayBuffer] and the [toString] tag agree on
    the values of the embedding. *)
Definition isArrayBuffer (v : value) : bool :=
  match v with
  | VBuf _ => true
  | _ => false
  end.

(** [new Uint8Array(buf)]: the bytes of a buffer as unsigned numbers. *)
Definition Uint8Array (buf : list byte) : list N := Byte.to_N <$> buf.

(** [String.fromCharCode] keeps the low 16 bits of each argument. *)
Definition String_fromCharCode (codes : list N) : jsstring :=
  (fun c => c mod 65536)%N <$> codes.

(** [f.apply(null, args)]: a host spreads at most [max_arguments] arguments
    into one call and throws a RangeError beyond that; the number is the
    host's (some tens of thousands to some hundreds of thousands).  [None]
    is the exception. *)
Definition Function_apply {A} (max_arguments : N) (f : list N -> A)
    (args : list N) : option A :=
  if (N.of_nat (length args) <=? max_arguments)%N then Some (f args) else None.

Definition ab2str (max_arguments : N) (buf : list byte) : option jsstring :=
  Function_apply max_arguments String_fromCharCode (Uint8Array buf).

(** Storing a number into a [Uint8Array] keeps its low byte. *)
Definition ToUint8 (c : N) : byte :=
  match Byte.of_N (c mod 256) with
  | Some b => b
  | None => x00
  end.

(** [str.charCodeAt(i)]; out of range it is NaN, which a byte store turns
    into 0. *)
Definition charCodeAt (str : jsstring) (i : nat) : N :=
  match str !! i with
  | Some c => c
  | None => 0%N
  end.

(** The loop of [str2ab]: [steps] more rounds from index [i]. *)
Fixpoint str2ab_loop (str : jsstring) (bufView : list byte) (i steps : nat)
  : list byte :=
  match steps with
  | O => bufView
  | S steps' =>
      str2ab_loop str (<[i := ToUint8 (charCodeAt str i)]> bufView) (S i) steps'
  end.

Definition str2ab (str : jsstring) : list byte :=
  let buf := replicate (length str * 2) x00 in
  let strLen := length str in
  str2ab_loop str buf 0 strLen.

(** The sentinel ['_$AB']. *)
Definition sentinel : jsstring := [95; 36; 65; 66]%N.

(** [None]: the exception of [ab2str] leaves the replacer. *)
Definition exportReplacer (max_arguments : N) (key : jsstring) (v : value)
  : option value :=
  if isArrayBuffer v then
    match v with
    | VBuf buf =>
        (fun str => VStr (sentinel ++ str)) <$> ab2str max_arguments buf
    | _ => Some v
    end
  else Some v.

(** [s.startsWith(prefix)] *)
Fixpoint startsWith (s prefix : jsstring) {struct prefix} : bool :=
  match prefix, s with
  | [], _ => true
  | p :: prefix', c :: s' => (c =? p)%N && startsWith s' prefix'
  | _ :: _, [] => false
  end.

(** [s.slice(n)] *)
Definition slice (s : jsstring) (n : nat) : jsstring := drop n s.

Definition importResolver (key : jsstring) (v : value) : value :=
  match v with
  | VStr s =>
      if startsWith s sentinel
      then let valueWithoutPrefix := slice s 4 in
           VBuf (str2ab valueWithoutPrefix)
      else v
  | _ => v
  end.

(** ** Objects as the host keeps them *)

(** The decimal digits of a number, most significant first. *)
Fixpoint uint_digits (u : Decimal.uint) : jsstring :=
  match u with
  | Decimal.Nil => []
  | Decimal.D0 u => 48%N :: uint_digits u
  | Decimal.D1 u => 49%N :: uint_digits u
  | Decimal.D2 u => 50%N :: uint_digits u
  | Decimal.D3 u => 51%N :: uint_digits u
  | Decimal.D4 u => 52%N :: uint_digits u
  | Decimal.D5 u => 53%N :: uint_digits u
  | Decimal.D6 u => 54%N :: uint_digits u
  | Decimal.D7 u => 55%N :: uint_digits u
  | Decimal.D8 u => 56%N :: uint_digits u
  | Decimal.D9 u => 57%N :: uint_digits u
  end.

(** The digit a code unit stands for, as the constructor it adds. *)
Definition digit (c : code_unit) : option (Decimal.uint -> Decimal.uint) :=
  if (c =? 48)%N then Some Decimal.D0
  else if (c =? 49)%N then Some Decimal.D1
  else if (c =? 50)%N then Some Decimal.D2
  else if (c =? 51)%N then Some Decimal.D3
  else if (c =? 52)%N then Some Decimal.D4
  else if (c =? 53)%N then Some Decimal.D5
  else if (c =? 54)%N then Some Decimal.D6
  else if (c =? 55)%N then Some Decimal.D7
  else if (c =? 56)%N then Some Decimal.D8
  else if (c =? 57)%N then Some Decimal.D9
  else None.

(** The longest run of digits at the head of [s], and what follows it. *)
Fixpoint take_digits (s : jsstring) : Decimal.uint * jsstring :=
  match s with
  | [] => (Decimal.Nil, [])
  | c :: s' =>
      match digit c with
      | Some d => let (u, r) := take_digits s' in (d u, r)
      | None => (Decimal.Nil, s)
      end
  end.

(** A run of digits without a needless leading zero. *)
Definition canonical (u : Decimal.uint) : bool :=
  Decimal.uint_beq (Decimal.unorm u) u.

(** A property name is an array index when it is the canonical decimal form
    of an integer below 2^32 - 1. *)
Definition array_index (k : jsstring) : option N :=
  match take_digits k with
  | (u, []) =>
      if canonical u && (N.of_uint u <? 4294967295)%N
      then Some (N.of_uint u) else None
  | _ => None
  end.

(** The name of the [i]-th element of an array. *)
Definition index_key (i : nat) : jsstring := uint_digits (Nat.to_uint i).

(** Own properties are enumerated array indices first, in ascending order,
    then the other names in the order they were created.  [precedes k k']
    says that a new property [k] goes before an existing [k']. *)
Definition precedes (k k' : jsstring) : bool :=
  match array_index k, array_index k' with
  | Some i, Some j => (i <? j)%N
  | Some _, None => true
  | None, _ => false
  end.

Fixpoint obj_get (o : object) (k : jsstring) : option value :=
  match o with
  | [] => None
  | (k', v) :: o' => if decide (k = k') then Some v else obj_get o' k
  end.

Fixpoint obj_replace (k : jsstring) (v : value) (o : object) : object :=
  match o with
  | [] => []
  | (k', v') :: o' =>
      if decide (k = k') then (k', v) :: o' else (k', v') :: obj_replace k v o'
  end.

Fixpoint obj_insert (k : jsstring) (v : value) (o : object) : object :=
  match o with
  | [] => [(k, v)]
  | (k', v') :: o' =>
      if precedes k k' then (k, v) :: o else (k', v') :: obj_insert k v o'
  end.

(** CreateDataProperty: [k] becomes, or stays, an own property of [o] with
    the value [v].  This is how [JSON.parse] fills an object, under every
    name. *)
Definition obj_set (k : jsstring) (v : value) (o : object) : object :=
  match obj_get o k with
  | Some _ => obj_replace k v o
  | None => obj_insert k v o
  end.

(** The name ['__proto__']. *)
Definition name_proto : jsstring := [95; 95; 112; 114; 111; 116; 111; 95; 95]%N.

(** [o[k] = v] for an object [o] made by a literal or by the parser and for
    a value [v] that is an array.  Under the name [__proto__], which [o] does
    not own unless the parser put it there, the assignment runs the setter
    [o] inherits: [o] then inherits from [v] and gains no property of its
    own.  Under any other name, and under [__proto__] where [o] owns it, the
    property is created or overwritten. *)
Definition obj_assign (k : jsstring) (v : value) (o : object) : object :=
  match obj_get o k with
  | Some _ => obj_replace k v o
  | None => if decide (k = name_proto) then o else obj_insert k v o
  end.

(** [delete o[k]] *)
Fixpoint obj_delete (k : jsstring) (o : object) : object :=
  match o with
  | [] => []
  | (k', v) :: o' =>
      if decide (k = k') then obj_delete k o' else (k', v) :: obj_delete k o'
  end.

(** [keys(o)] of lodash, on an object. *)
Definition keys (o : object) : list jsstring := fst <$> o.

(** ** JSON.stringify *)

Definition hex_digit (n : N) : code_unit :=
  if (n <? 10)%N then (48 + n)%N else (87 + n)%N.

(** One code unit inside a string literal (QuoteJSONString): the quote, the
    backslash and the control characters are escaped.  A lone surrogate,
    which recent hosts also escape, is written as it is; both forms read
    back as the same code unit. *)
Definition quote_unit (c : code_unit) : jsstring :=
  if (c =? 8)%N then [92; 98]%N
  else if (c =? 9)%N then [92; 116]%N
  else if (c =? 10)%N then [92; 110]%N
  else if (c =? 12)%N then [92; 102]%N
  else if (c =? 13)%N then [92; 114]%N
  else if (c =? 34)%N then [92; 34]%N
  else if (c =? 92)%N then [92; 92]%N
  else if (c <? 32)%N
       then [92; 117; 48; 48; hex_digit (c / 16); hex_digit (c mod 16)]%N
  else [c].

Definition QuoteJSONString (s : jsstring) : jsstring :=
  (34%N :: flat_map quote_unit s) ++ [34%N].

Definition Z_digits (z : Z) : jsstring :=
  match Z.to_int z with
  | Decimal.Pos u => uint_digits u
  | Decimal.Neg u => 45%N :: uint_digits u
  end.

(** The text of the number [m * 10^e]: the digits of [m], and an exponent
    part when [e] is not 0.  For integers this is the text the host writes. *)
Definition NumberToString (m e : Z) : jsstring :=
  Z_digits m ++ (if (e =? 0)%Z then [] else 101%N :: Z_digits e).

Definition join_comma (parts : list jsstring) : jsstring :=
  match parts with
  | [] => []
  | p :: ps => p ++ flat_map (fun q => 44%N :: q) ps
  end.

Definition text_null : jsstring := [110; 117; 108; 108]%N.
Definition text_true : jsstring := [116; 114; 117; 101]%N.
Definition text_false : jsstring := [102; 97; 108; 115; 101]%N.

(** The texts of the parts of an array or an object, unless the writing of
    one of them threw. *)
Fixpoint all_written (parts : list (option jsstring)) : option (list jsstring) :=
  match parts with
  | [] => Some []
  | part :: parts' =>
      match part, all_written parts' with
      | Some text, Some texts => Some (text :: texts)
      | _, _ => None
      end
  end.

(** SerializeJSONProperty: the replacer sees every value before it is
    written, the root under the empty name, array elements under their
    index, and what it returns is written in place of the value; an
    exception of the replacer ends the writing ([None]).  A byte buffer that
    reaches the writer is an object without own enumerable properties.
    [fuel] bounds the nesting of what is written. *)
Fixpoint SerializeJSONProperty (fuel : nat)
    (replacer : jsstring -> value -> option value) (key : jsstring) (v : value)
  : option jsstring :=
  match fuel with
  | O => Some []
  | S fuel' =>
      match replacer key v with
      | None => None
      | Some VNull => Some text_null
      | Some (VBool true) => Some text_true
      | Some (VBool false) => Some text_false
      | Some (VNum m e) => Some (NumberToString m e)
      | Some (VStr s) => Some (QuoteJSONString s)
      | Some (VArr l) =>
          (fun texts => (91%N :: join_comma texts) ++ [93%N])
            <$> all_written
                  (imap (fun i x =>
                           SerializeJSONProperty fuel' replacer (index_key i) x)
                     l)
      | Some (VObj o) =>
          (fun texts => (123%N :: join_comma texts) ++ [125%N])
            <$> all_written
                  ((fun kx =>
                      (fun text => QuoteJSONString (fst kx) ++ 58%N :: text)
                        <$> SerializeJSONProperty fuel' replacer (fst kx)
                              (snd kx))
                     <$> o)
      | Some (VBuf _) => Some [123; 125]%N
      end
  end.

(** How deep a value nests. *)
Fixpoint depth (v : value) : nat :=
  match v with
  | VArr l => S (foldr (fun x d => Nat.max (depth x) d) 0 l)
  | VObj o => S (foldr (fun kx d => Nat.max (depth (snd kx)) d) 0 o)
  | _ => 0
  end.

(** [JSON.stringify(v, replacer)]; [None] when the replacer threw.  The
    depth of [v] is fuel enough for a replacer that, like [exportReplacer],
    returns nothing deeper than what it is given
    ([JSON_stringify_exportReplacer] below). *)
Definition JSON_stringify (replacer : jsstring -> value -> option value)
    (v : value) : option jsstring :=
  SerializeJSONProperty (S (depth v)) replacer [] v.

(** [JSON.stringify(v)] *)
Definition no_replacer (key : jsstring) (v : value) : option value := Some v.

(** ** JSON.parse *)

Definition is_ws (c : code_unit) : bool :=
  (c =? 32)%N || (c =? 9)%N || (c =? 10)%N || (c =? 13)%N.

Fixpoint skip_ws (s : jsstring) : jsstring :=
  match s with
  | [] => []
  | c :: s' => if is_ws c then skip_ws s' else s
  end.

Definition hex_value (c : code_unit) : option N :=
  if (48 <=? c)%N && (c <=? 57)%N then Some (c - 48)%N
  else if (97 <=? c)%N && (c <=? 102)%N then Some (c - 87)%N
  else if (65 <=? c)%N && (c <=? 70)%N then Some (c - 55)%N
  else None.

Definition hex4 (a b c d : code_unit) : option code_unit :=
  match hex_value a, hex_value b, hex_value c, hex_value d with
  | Some x, Some y, Some z, Some w => Some (((x * 16 + y) * 16 + z) * 16 + w)%N
  | _, _, _, _ => None
  end.

(** The character a one-letter escape stands for. *)
Definition unescape (c : code_unit) : option code_unit :=
  if (c =? 34)%N then Some 34%N
  else if (c =? 92)%N then Some 92%N
  else if (c =? 47)%N then Some 47%N
  else if (c =? 98)%N then Some 8%N
  else if (c =? 102)%N then Some 12%N
  else if (c =? 110)%N then Some 10%N
  else if (c =? 114)%N then Some 13%N
  else if (c =? 116)%N then Some 9%N
  else None.

(** A string literal after its opening quote: the string and what follows
    the closing quote. *)
Fixpoint parse_string_chars (s : jsstring) : option (jsstring * jsstring) :=
  match s with
  | [] => None
  | c :: r =>
      if (c =? 34)%N then Some ([], r)
      else if (c =? 92)%N then
        match r with
        | [] => None
        | x :: r1 =>
            if (x =? 117)%N then
              match r1 with
              | a :: b :: c' :: d :: r2 =>
                  match hex4 a b c' d with
                  | Some u =>
                      match parse_string_chars r2 with
                      | Some (str, rest) => Some (u :: str, rest)
                      | None => None
                      end
                  | None => None
                  end
              | _ => None
              end
            else
              match unescape x with
              | Some u =>
                  match parse_string_chars r1 with
                  | Some (str, rest) => Some (u :: str, rest)
                  | None => None
                  end
              | None => None
              end
        end
      else if (c <? 32)%N then None
      else
        match parse_string_chars r with
        | Some (str, rest) => Some (c :: str, rest)
        | None => None
        end
  end.

(** The fraction of a number literal: its digits ([Nil] when there is no
    fraction) and what follows; [None] for a point without digits. *)
Definition parse_fraction (s : jsstring) : option (Decimal.uint * jsstring) :=
  match s with
  | c :: r =>
      if (c =? 46)%N then
        match take_digits r with
        | (Decimal.Nil, _) => None
        | (uf, r') => Some (uf, r')
        end
      else Some (Decimal.Nil, s)
  | [] => Some (Decimal.Nil, s)
  end.

(** The exponent of a number literal (0 when there is none). *)
Definition parse_exponent (s : jsstring) : option (Z * jsstring) :=
  match s with
  | c :: r =>
      if (c =? 101)%N || (c =? 69)%N then
        let (negative, r0) :=
          match r with
          | c' :: r' =>
              if (c' =? 45)%N then (true, r')
              else if (c' =? 43)%N then (false, r')
              else (false, r)
          | [] => (false, r)
          end in
        match take_digits r0 with
        | (Decimal.Nil, _) => None
        | (ue, r1) =>
            Some (if negative then (- Z.of_uint ue)%Z else Z.of_uint ue, r1)
        end
      else Some (0%Z, s)
  | [] => Some (0%Z, s)
  end.

(** A number literal: sign, integer part without a needless leading zero,
    fraction, exponent.  Its value is [m * 10^e]. *)
Definition parse_number (s : jsstring) : option (value * jsstring) :=
  let (negative, s0) :=
    match s with
    | c :: r => if (c =? 45)%N then (true, r) else (false, s)
    | [] => (false, s)
    end in
  let (ui, r1) := take_digits s0 in
  if canonical ui then
    match parse_fraction r1 with
    | Some (uf, r2) =>
        match parse_exponent r2 with
        | Some (ex, r3) =>
            let mag := Z.of_uint (Decimal.app ui uf) in
            Some (VNum (if negative then (- mag)%Z else mag)
                       (ex - Z.of_nat (Decimal.nb_digits uf))%Z, r3)
        | None => None
        end
    | None => None
    end
  else None.

(** The object a list of members builds, a later member of the same name
    replacing the value of an earlier one. *)
Definition build_object (members : list (jsstring * value)) : object :=
  foldl (fun o kv => obj_set (fst kv) (snd kv) o) [] members.

(** A JSON value at the head of [s] (after white space), and what follows
    it.  [parse_elements] and [parse_members] read what comes after an
    opening bracket or brace that is not closed at once. *)
Fixpoint parse_value (fuel : nat) (s : jsstring) : option (value * jsstring) :=
  match fuel with
  | O => None
  | S fuel' =>
      match skip_ws s with
      | [] => None
      | c :: r =>
          if (c =? 123)%N then
            match skip_ws r with
            | [] => None
            | c' :: r' =>
                if (c' =? 125)%N then Some (VObj [], r')
                else
                  match parse_members fuel' (c' :: r') with
                  | Some (members, rest) => Some (VObj (build_object members), rest)
                  | None => None
                  end
            end
          else if (c =? 91)%N then
            match skip_ws r with
            | [] => None
            | c' :: r' =>
                if (c' =? 93)%N then Some (VArr [], r')
                else
                  match parse_elements fuel' (c' :: r') with
                  | Some (l, rest) => Some (VArr l, rest)
                  | None => None
                  end
            end
          else if (c =? 34)%N then
            match parse_string_chars r with
            | Some (str, rest) => Some (VStr str, rest)
            | None => None
            end
          else if startsWith (c :: r) text_true then Some (VBool true, drop 4 (c :: r))
          else if startsWith (c :: r) text_false then Some (VBool false, drop 5 (c :: r))
          else if startsWith (c :: r) text_null then Some (VNull, drop 4 (c :: r))
          else parse_number (c :: r)
      end
  end
with parse_elements (fuel : nat) (s : jsstring)
  : option (list value * jsstring) :=
  match fuel with
  | O => None
  | S fuel' =>
      match parse_value fuel' s with
      | None => None
      | Some (v, r) =>
          match skip_ws r with
          | [] => None
          | c :: r' =>
              if (c =? 44)%N then
                match parse_elements fuel' r' with
                | Some (l, rest) => Some (v :: l, rest)
                | None => None
                end
              else if (c =? 93)%N then Some ([v], r')
              else None
          end
      end
  end
with parse_members (fuel : nat) (s : jsstring)
  : option (list (jsstring * value) * jsstring) :=
  match fuel with
  | O => None
  | S fuel' =>
      match skip_ws s with
      | [] => None
      | c :: r =>
          if (c =? 34)%N then
            match parse_string_chars r with
            | None => None
            | Some (k, r1) =>
                match skip_ws r1 with
                | [] => None
                | c1 :: r2 =>
                    if (c1 =? 58)%N then
                      match parse_value fuel' r2 with
                      | None => None
                      | Some (v, r3) =>
                          match skip_ws r3 with
                          | [] => None
                          | c3 :: r4 =>
                              if (c3 =? 44)%N then
                                match parse_members fuel' r4 with
                                | Some (ms, rest) => Some ((k, v) :: ms, rest)
                                | None => None
                                end
                              else if (c3 =? 125)%N then Some ([(k, v)], r4)
                              else None
                          end
                      end
                    else None
                end
            end
          else None
      end
  end.

(** The whole text is one JSON value; [None] is the host's SyntaxError.
    Twice the length of the text is fuel enough for any text
    ([parse_text_complete] below). *)
Definition parse_text (text : jsstring) : option value :=
  match parse_value (2 * length text + 2) text with
  | Some (v, rest) =>
      match skip_ws rest with
      | [] => Some v
      | _ :: _ => None
      end
  | None => None
  end.

(** InternalizeJSONProperty: the reviver sees every value after its
    children, array elements under their index, the root under the empty
    name. *)
Fixpoint InternalizeJSONProperty (reviver : jsstring -> value -> value)
    (key : jsstring) (v : value) : value :=
  match v with
  | VArr l =>
      reviver key
        (VArr ((fix elements (i : nat) (l : list value) : list value :=
                  match l with
                  | [] => []
                  | x :: l' =>
                      InternalizeJSONProperty reviver (index_key i) x
                      :: elements (S i) l'
                  end) 0 l))
  | VObj o =>
      reviver key
        (VObj ((fun kx =>
                  (fst kx, InternalizeJSONProperty reviver (fst kx) (snd kx)))
                 <$> o))
  | _ => reviver key v
  end.

(** [JSON.parse(text, reviver)] *)
Definition JSON_parse (text : jsstring) (reviver : jsstring -> value -> value)
  : option value :=
  match parse_text text with
  | Some v => Some (InternalizeJSONProperty reviver [] v)
  | None => None
  end.

(** ** lodash: forEach and keys *)

Definition name_length : jsstring := [108; 101; 110; 103; 116; 104]%N.

(** The integer a number is, when it is one. *)
Definition number_to_Z (m e : Z) : option Z :=
  if (0 <=? e)%Z then Some (m * 10 ^ e)%Z
  else if (m mod 10 ^ (- e) =? 0)%Z then Some (m / 10 ^ (- e))%Z
  else None.

(** lodash's [isLength]: an integer from 0 to 2^53 - 1. *)
Definition isLength (v : value) : option nat :=
  match v with
  | VNum m e =>
      match number_to_Z m e with
      | Some z =>
          if (0 <=? z)%Z && (z <=? 9007199254740991)%Z
          then Some (Z.to_nat z) else None
      | None => None
      end
  | _ => None
  end.

(** [v[k]] for the properties [forEach] can walk: the own properties of an
    object, the elements of an array, the characters of a string.  The other
    members of a value (the length of an array, what it inherits) are numbers
    and functions, over which [forEach] visits nothing, as over undefined.
    Reading a property of null throws; the caller sees to that. *)
Definition get_prop (v : value) (k : jsstring) : option value :=
  match v with
  | VObj o => obj_get o k
  | VArr l =>
      match array_index k with
      | Some i => l !! N.to_nat i
      | None => None
      end
  | VStr s =>
      match array_index k with
      | Some i => (fun c => VStr [c]) <$> s !! N.to_nat i
      | None => None
      end
  | _ => None
  end.

(** [v.length] *)
Definition length_prop (v : value) : option value :=
  match v with
  | VArr l => Some (VNum (Z.of_nat (length l)) 0)
  | VStr s => Some (VNum (Z.of_nat (length s)) 0)
  | VObj o => obj_get o name_length
  | _ => None
  end.

(** [count === len] for a counter and a value that may be undefined. *)
Definition strict_eq_count (count : nat) (len : option value) : bool :=
  match len with
  | Some (VNum m e) =>
      match number_to_Z m e with
      | Some z => (z =? Z.of_nat count)%Z
      | None => false
      end
  | _ => false
  end.

(** [delete v[k]]: removes an own property of an object; an array keeps its
    length and a string is left as it is. *)
Definition delete_prop (v : value) (k : jsstring) : value :=
  match v with
  | VObj o => VObj (obj_delete k o)
  | _ => v
  end.

(** [keys(v)]: the own names of an object, every index below the length of
    an array or a string, nothing for the other values. *)
Definition lodash_keys (v : value) : list jsstring :=
  match v with
  | VObj o => keys o
  | VArr l => index_key <$> seq 0 (length l)
  | VStr s => index_key <$> seq 0 (length s)
  | _ => []
  end.

(** [forEach(collection, f)]: the arguments [f] is called with, in order.
    Nothing for undefined and null; the elements of an array; the characters
    of a string; for an object with a valid length the properties
    [0 .. length-1] (undefined where there is none), for any other object its
    own values; nothing for numbers, booleans and buffers. *)
Definition lodash_forEach (collection : option value) : list (option value) :=
  match collection with
  | Some (VArr l) => Some <$> l
  | Some (VStr s) => (fun c => Some (VStr [c])) <$> s
  | Some (VObj o) =>
      match obj_get o name_length ≫= isLength with
      | Some n => (fun i => obj_get o (index_key i)) <$> seq 0 n
      | None => (fun kx => Some (snd kx)) <$> o
      end
  | _ => []
  end.

(** ** The storage engine *)

(** The engine is the host's.  It is taken by its contract: a request is
    accepted when it is made; the requests on one store are answered in the
    order they were made, those on different stores in any order.  A request
    that fails sends an error event to its own handler, of which these
    operations set none, and from there to [transaction.onerror]; the
    transaction is then aborted and undone, no request succeeds any more,
    and every request still outstanding is answered with an error event of
    its own, which reaches [transaction.onerror] in the same way.  An engine
    that refuses a transaction over no store at all throws out of the call
    before anything else happens; here such a call starts and finds nothing
    to do. *)

(** A database is its object stores in the order of [objectStoreNames]; a
    store is its records in the order a cursor visits them. *)
Abbreviation IDBDatabase := (list (list N * list value)) (only parsing).

Definition objectStoreNames (db : IDBDatabase) : list jsstring := fst <$> db.

(** The records of [transaction.objectStore(storeName)]. *)
Fixpoint store_records (db : IDBDatabase) (storeName : jsstring) : list value :=
  match db with
  | [] => []
  | (n, records) :: db' =>
      if decide (storeName = n) then records else store_records db' storeName
  end.

(** A successful [add]: the record joins its store. *)
Fixpoint engine_add (db : IDBDatabase) (storeName : jsstring) (v : value)
  : IDBDatabase :=
  match db with
  | [] => []
  | (n, records) :: db' =>
      if decide (storeName = n) then (n, records ++ [v]) :: db'
      else (n, records) :: engine_add db' storeName v
  end.

(** A successful [clear]. *)
Fixpoint engine_clear (db : IDBDatabase) (storeName : jsstring) : IDBDatabase :=
  match db with
  | [] => []
  | (n, records) :: db' =>
      if decide (storeName = n) then (n, []) :: db'
      else (n, records) :: engine_clear db' storeName
  end.

(** The event object handed to [transaction.onerror]. *)
Inductive error_event : Type :=
| ErrorEvent (name : jsstring).

(** What the engine delivers to the handlers of one call.  [Success i]: the
    oldest request still outstanding of the [i]-th round of the [forEach]
    over the store names has succeeded (requests on one store are served in
    the order they were made; rounds interleave freely).  [Failure i ev]:
    the oldest request still outstanding of the [i]-th round has failed, or
    has been aborted with its transaction, and its error event [ev] has
    reached [transaction.onerror]. *)
Inductive engine_event : Type :=
| Success (i : nat)
| Failure (i : nat) (ev : error_event).

Definition is_success (e : engine_event) : bool :=
  match e with
  | Success _ => true
  | Failure _ _ => false
  end.

(** The error events among the events delivered, in order. *)
Definition errors_of (evs : list engine_event) : list error_event :=
  omap (fun e => match e with
                 | Success _ => None
                 | Failure _ ev => Some ev
                 end) evs.

(** The events delivered one after the other; [None] when the engine could
    not have delivered them. *)
Fixpoint run {St : Type} (step : St -> engine_event -> option St)
    (s : St) (evs : list engine_event) : option St :=
  match evs with
  | [] => Some s
  | ev :: evs' =>
      match step s ev with
      | Some s' => run step s' evs'
      | None => None
      end
  end.

(** What a call has done when it returns to its caller. *)
Inductive exception : Type :=
| SyntaxError
| TypeError.

Inductive outcome (St : Type) : Type :=
| Threw (e : exception)
| Started (s : St).

Arguments Threw {St} e.
Arguments Started {St} s.

(** ** exportToJsonString *)

(** The cursor of one round: the records pushed on [allObjects] so far and
    those still to visit; done once it has reported its end; failed once
    its request has been answered with an error. *)
Inductive cursor : Type :=
| CursorOpen (allObjects : list value) (remaining : list value)
| CursorDone
| CursorFailed.

Definition cursor_is_open (c : jsstring * cursor) : bool :=
  match c with
  | (_, CursorOpen _ _) => true
  | (_, _) => false
  end.

(** [ex_aborted]: an error has aborted the transaction. *)
Record export_state : Type := {
  ex_names : list jsstring;
  exportObject : object;
  ex_cursors : list (jsstring * cursor);
  ex_aborted : bool;
  ex_calls : list (option error_event * option jsstring)
}.

(** [cb(null, JSON.stringify(...))] added to the calls made so far; an
    exception of [JSON.stringify] leaves the handler before [cb] is
    reached. *)
Definition call_with_text (calls : list (option error_event * option jsstring))
    (text : option jsstring) : list (option error_event * option jsstring) :=
  match text with
  | Some t => calls ++ [(None, Some t)]
  | None => calls
  end.

(** The call up to its return: without stores the callback is made at once;
    otherwise every store name makes one round, which opens a cursor. *)
Definition exportToJsonString (idbDatabase : IDBDatabase) : export_state :=
  let exportObject := [] in
  if (length (objectStoreNames idbDatabase) =? 0)%nat then
    {| ex_names := objectStoreNames idbDatabase;
       exportObject := exportObject;
       ex_cursors := [];
       ex_aborted := false;
       ex_calls :=
         call_with_text [] (JSON_stringify no_replacer (VObj exportObject)) |}
  else
    {| ex_names := objectStoreNames idbDatabase;
       exportObject := exportObject;
       ex_cursors :=
         (fun storeName =>
            (storeName, CursorOpen [] (store_records idbDatabase storeName)))
           <$> objectStoreNames idbDatabase;
       ex_aborted := false;
       ex_calls := [] |}.

(** The [onsuccess] handler of a cursor and [transaction.onerror], on a
    host that spreads at most [max_arguments] arguments. *)
Definition export_step (max_arguments : N) (s : export_state)
    (ev : engine_event) : option export_state :=
  match ev with
  | Success i =>
      if ex_aborted s then None else
      match ex_cursors s !! i with
      | Some (storeName, CursorOpen allObjects (r :: rest)) =>
          Some {| ex_names := ex_names s;
                  exportObject := exportObject s;
                  ex_cursors :=
                    <[i := (storeName, CursorOpen (allObjects ++ [r]) rest)]>
                      (ex_cursors s);
                  ex_aborted := false;
                  ex_calls := ex_calls s |}
      | Some (storeName, CursorOpen allObjects []) =>
          let exportObject' :=
            obj_assign storeName (VArr allObjects) (exportObject s) in
          Some {| ex_names := ex_names s;
                  exportObject := exportObject';
                  ex_cursors := <[i := (storeName, CursorDone)]> (ex_cursors s);
                  ex_aborted := false;
                  ex_calls :=
                    if (length (ex_names s) =? length (keys exportObject'))%nat
                    then call_with_text (ex_calls s)
                           (JSON_stringify (exportReplacer max_arguments)
                              (VObj exportObject'))
                    else ex_calls s |}
      | _ => None
      end
  | Failure i event =>
      match ex_cursors s !! i with
      | Some (storeName, CursorOpen _ _) =>
          Some {| ex_names := ex_names s;
                  exportObject := exportObject s;
                  ex_cursors := <[i := (storeName, CursorFailed)]> (ex_cursors s);
                  ex_aborted := true;
                  ex_calls := ex_calls s ++ [(Some event, None)] |}
      | _ => None
      end
  end.

(** ** importFromJsonString *)

(** One round of the outer [forEach]: its store, its [count], and the
    values of the [add] requests that have not succeeded yet. *)
Record add_requests : Type := {
  rq_store : jsstring;
  rq_count : nat;
  rq_pending : list (option value)
}.

(** [im_snapshot] is the database as the transaction found it,
    [im_database] the database with what has been added since;
    [im_aborted]: an error has aborted the transaction. *)
Record import_state : Type := {
  im_snapshot : IDBDatabase;
  im_database : IDBDatabase;
  importObject : value;
  im_requests : list add_requests;
  im_aborted : bool;
  im_calls : list (option error_event)
}.

(** A stored undefined is not a [value]; the store is left as it is. *)
Definition engine_add_opt (db : IDBDatabase) (storeName : jsstring)
    (toAdd : option value) : IDBDatabase :=
  match toAdd with
  | Some v => engine_add db storeName v
  | None => db
  end.

(** The call up to its return.  The text is parsed, and a text that is not
    JSON throws out of the call; then every store name makes one round, in
    which each value that [forEach] finds under that name in the document
    becomes an [add] request.  A document that is null throws at the first
    store, where a property of it is read. *)
Definition importFromJsonString (idbDatabase : IDBDatabase)
    (jsonString : jsstring) : outcome import_state :=
  match JSON_parse jsonString importResolver with
  | None => Threw SyntaxError
  | Some importObject =>
      match importObject, objectStoreNames idbDatabase with
      | VNull, _ :: _ => Threw TypeError
      | _, _ =>
          Started
            {| im_snapshot := idbDatabase;
               im_database := idbDatabase;
               importObject := importObject;
               im_requests :=
                 (fun storeName =>
                    {| rq_store := storeName;
                       rq_count := 0;
                       rq_pending :=
                         lodash_forEach (get_prop importObject storeName) |})
                   <$> objectStoreNames idbDatabase;
               im_aborted := false;
               im_calls := [] |}
      end
  end.

(** [request.onsuccess] and [transaction.onerror]; a transaction that is
    aborted leaves the stores as it found them.  Reading the length of an
    [importObject[storeName]] that is undefined would throw inside the
    handler; it is read here as a failed comparison, and cannot arise while
    the store names are distinct, the entry of a store being deleted only
    after the last request of its round. *)
Definition import_step (s : import_state) (ev : engine_event)
  : option import_state :=
  match ev with
  | Success i =>
      if im_aborted s then None else
      match im_requests s !! i with
      | Some {| rq_store := storeName; rq_count := count;
                rq_pending := toAdd :: rest |} =>
          let count := S count in
          let requests :=
            <[i := {| rq_store := storeName; rq_count := count;
                      rq_pending := rest |}]> (im_requests s) in
          let database := engine_add_opt (im_database s) storeName toAdd in
          if strict_eq_count count
               (get_prop (importObject s) storeName ≫= length_prop)
          then
            let importObject' := delete_prop (importObject s) storeName in
            Some {| im_snapshot := im_snapshot s;
                    im_database := database;
                    importObject := importObject';
                    im_requests := requests;
                    im_aborted := false;
                    im_calls :=
                      if (length (lodash_keys importObject') =? 0)%nat
                      then im_calls s ++ [None]
                      else im_calls s |}
          else
            Some {| im_snapshot := im_snapshot s;
                    im_database := database;
                    importObject := importObject s;
                    im_requests := requests;
                    im_aborted := false;
                    im_calls := im_calls s |}
      | _ => None
      end
  | Failure i event =>
      match im_requests s !! i with
      | Some {| rq_store := storeName; rq_count := count;
                rq_pending := toAdd :: rest |} =>
          Some {| im_snapshot := im_snapshot s;
                  im_database := im_snapshot s;
                  importObject := importObject s;
                  im_requests :=
                    <[i := {| rq_store := storeName; rq_count := count;
                              rq_pending := rest |}]> (im_requests s);
                  im_aborted := true;
                  im_calls := im_calls s ++ [Some event] |}
      | _ => None
      end
  end.

(** ** clearDatabase *)

(** One round of the [forEach] is its store and whether its [clear] request
    is still outstanding; [cl_snapshot] is the database as the transaction
    found it, to which an abort returns; [cl_aborted]: an error has aborted
    the transaction. *)
Record clear_state : Type := {
  cl_snapshot : IDBDatabase;
  cl_database : IDBDatabase;
  cl_names : list jsstring;
  cl_count : nat;
  cl_requests : list (jsstring * bool);
  cl_aborted : bool;
  cl_calls : list (option error_event)
}.

(** The call up to its return: every store name makes one round, which
    asks for the store to be cleared. *)
Definition clearDatabase (idbDatabase : IDBDatabase) : clear_state :=
  {| cl_snapshot := idbDatabase;
     cl_database := idbDatabase;
     cl_names := objectStoreNames idbDatabase;
     cl_count := 0;
     cl_requests := (fun storeName => (storeName, true))
                      <$> objectStoreNames idbDatabase;
     cl_aborted := false;
     cl_calls := [] |}.

Definition clear_step (s : clear_state) (ev : engine_event)
  : option clear_state :=
  match ev with
  | Success i =>
      if cl_aborted s then None else
      match cl_requests s !! i with
      | Some (storeName, true) =>
          let count := S (cl_count s) in
          Some {| cl_snapshot := cl_snapshot s;
                  cl_database := engine_clear (cl_database s) storeName;
                  cl_names := cl_names s;
                  cl_count := count;
                  cl_requests := <[i := (storeName, false)]> (cl_requests s);
                  cl_aborted := false;
                  cl_calls :=
                    if (count =? length (cl_names s))%nat
                    then cl_calls s ++ [None]
                    else cl_calls s |}
      | _ => None
      end
  | Failure i event =>
      match cl_requests s !! i with
      | Some (storeName, true) =>
          Some {| cl_snapshot := cl_snapshot s;
                  cl_database := cl_snapshot s;
                  cl_names := cl_names s;
                  cl_count := cl_count s;
                  cl_requests := <[i := (storeName, false)]> (cl_requests s);
                  cl_aborted := true;
                  cl_calls := cl_calls s ++ [Some event] |}
      | _ => None
      end
  end.

(** ** What a round trip through the text does to a value *)

(** The string [ab2str] returns for a buffer, on a host that spreads it:
    one code unit for each byte. *)
Definition buffer_string (buf : list byte) : jsstring :=
  String_fromCharCode (Uint8Array buf).

(** A value none of whose buffers is longer than the host spreads. *)
Fixpoint spreadable (max_arguments : N) (v : value) : bool :=
  match v with
  | VBuf buf => (N.of_nat (length buf) <=? max_arguments)%N
  | VArr l => forallb (spreadable max_arguments) l
  | VObj o => forallb (fun kx => spreadable max_arguments (snd kx)) o
  | _ => true
  end.

(** The value the serializer writes for [v] when [exportReplacer] is the
    replacer: every byte buffer gives way to its tagged string. *)
Fixpoint tag_buffers (v : value) : value :=
  match v with
  | VBuf buf => VStr (sentinel ++ buffer_string buf)
  | VArr l => VArr (tag_buffers <$> l)
  | VObj o => VObj ((fun kx => (fst kx, tag_buffers (snd kx))) <$> o)
  | _ => v
  end.

(** The value the parser hands back for the tree [v] when [importResolver]
    is the reviver: every string that starts with the sentinel gives way to
    the buffer decoded from the rest of it. *)
Fixpoint untag_strings (v : value) : value :=
  match v with
  | VStr s => if startsWith s sentinel then VBuf (str2ab (drop 4 s)) else v
  | VArr l => VArr (untag_strings <$> l)
  | VObj o => VObj ((fun kx => (fst kx, untag_strings (snd kx))) <$> o)
  | _ => v
  end.

(** A record as it comes back from an export followed by an import: a byte
    buffer has grown to twice its length, the new half zero; a string that
    starts with the sentinel has become a buffer; the rest is as it was. *)
Fixpoint reimported (v : value) : value :=
  match v with
  | VBuf buf => VBuf (buf ++ replicate (length buf) x00)
  | VStr s => if startsWith s sentinel then VBuf (str2ab (drop 4 s)) else v
  | VArr l => VArr (reimported <$> l)
  | VObj o => VObj ((fun kx => (fst kx, reimported (snd kx))) <$> o)
  | _ => v
  end.

(** A value the round trip leaves alone: no buffer but the empty one, no
    string that starts with the sentinel. *)
Fixpoint plain (v : value) : bool :=
  match v with
  | VBuf buf => bool_decide (buf = [])
  | VStr s => negb (startsWith s sentinel)
  | VArr l => forallb plain l
  | VObj o => forallb (fun kx => plain (snd kx)) o
  | _ => true
  end.

(** Property names as the host enumerates them: no name twice, array indices
    first and ascending. *)
Fixpoint property_order (ks : list jsstring) : bool :=
  match ks with
  | [] => true
  | k :: ks' =>
      forallb (fun k' => negb (bool_decide (k' = k)) && negb (precedes k' k)) ks'
      && property_order ks'
  end.

(** A value whose objects, at every depth, list their properties that way. *)
Fixpoint well_formed (v : value) : bool :=
  match v with
  | VArr l => forallb well_formed l
  | VObj o => property_order (fst <$> o) && forallb (fun kx => well_formed (snd kx)) o
  | _ => true
  end.

(** A database of the same stores, all empty. *)
Definition emptied (db : IDBDatabase) : IDBDatabase :=
  (fun st => (fst st, [])) <$> db.

(** Every outstanding request of an import has succeeded. *)
Definition import_settled (s : import_state) : bool :=
  forallb (fun r => bool_decide (rq_pending r = [])) (im_requests s).

(** No cursor of an export is open any more. *)
Definition export_settled (s : export_state) : bool :=
  forallb (fun c => negb (cursor_is_open c)) (ex_cursors s).

(** The text of a value by the structural rules of JSON alone. *)
Fixpoint write_json (v : value) : jsstring :=
  match v with
  | VNull => text_null
  | VBool true => text_true
  | VBool false => text_false
  | VNum m e => NumberToString m e
  | VStr s => QuoteJSONString s
  | VArr l => (91%N :: join_comma (write_json <$> l)) ++ [93%N]
  | VObj o =>
      (123%N :: join_comma
         ((fun kx => QuoteJSONString (fst kx) ++ 58%N :: write_json (snd kx))
            <$> o))
      ++ [125%N]
  | VBuf _ => [123; 125]%N
  end.

(** What may follow a value in a text: nothing, a comma, a closing bracket
    or a closing brace. *)
Definition delimited (rest : jsstring) : bool :=
  match rest with
  | [] => true
  | c :: _ => (c =? 44)%N || (c =? 93)%N || (c =? 125)%N
  end.

(** A value JSON text can denote: one without byte buffers. *)
Fixpoint json_tree (v : value) : bool :=
  match v with
  | VBuf _ => false
  | VArr l => forallb json_tree l
  | VObj o => forallb (fun kx => json_tree (snd kx)) o
  | _ => true
  end.

(** The values of a tree and, once more, those that sit in an array or an
    object: fuel enough to read its text back. *)
Fixpoint nodes (v : value) : nat :=
  match v with
  | VArr l => S (foldr (fun x n => S (nodes x + n)) 0 l)
  | VObj o => S (foldr (fun kx n => S (nodes (snd kx) + n)) 0 o)
  | _ => 1
  end.

(** The units a written value may start with. *)
Definition value_head (c : code_unit) : Prop :=
  (c = 123 \/ c = 91 \/ c = 34 \/ c = 116 \/ c = 102 \/ c = 110 \/ c = 45 \/
   48 <= c <= 57)%N.

(** A database with every record as an export followed by an import hands
    it back. *)
Definition reimported_database (db : IDBDatabase) : IDBDatabase :=
  (fun st : jsstring * list value => (fst st, reimported <$> snd st)) <$> db.

(** ** What holds of a call while no error has reached it *)

(** The call an export makes when it completes: one with the text, unless
    the writing of the text threw. *)
Definition export_call (max_arguments : N) (exportObject : object)
  : list (option error_event * option jsstring) :=
  call_with_text []
    (JSON_stringify (exportReplacer max_arguments) (VObj exportObject)).

(** An export in flight: the export object holds exactly the stores whose
    cursor is done and whose name is not [__proto__], each under its
    records, and the callback has been made when the object came to have as
    many keys as there are stores. *)
Record export_inv (max_arguments : N) (db : IDBDatabase) (s : export_state)
  : Prop := {
  exi_names : ex_names s = objectStoreNames db;
  exi_cursors : fst <$> ex_cursors s = objectStoreNames db;
  exi_live : ex_aborted s = false;
  exi_order : property_order (keys (exportObject s)) = true;
  exi_open : forall i name allObjects remaining,
    ex_cursors s !! i = Some (name, CursorOpen allObjects remaining) ->
    obj_get (exportObject s) name = None /\
    allObjects ++ remaining = store_records db name;
  exi_done : forall i name,
    ex_cursors s !! i = Some (name, CursorDone) ->
    obj_get (exportObject s) name =
    if decide (name = name_proto) then None
    else Some (VArr (store_records db name));
  exi_failed : forall i name, ex_cursors s !! i <> Some (name, CursorFailed);
  exi_keys : forall name,
    name ∈ keys (exportObject s) -> name ∈ objectStoreNames db;
  exi_calls :
    ex_calls s =
    if (length (objectStoreNames db) =? length (keys (exportObject s)))%nat
    then export_call max_arguments (exportObject s) else []
}.

(** A clear in flight: [count] is the number of requests that have
    succeeded, and no callback has been made while one is outstanding. *)
Record clear_inv (s : clear_state) : Prop := {
  cli_live : cl_aborted s = false;
  cli_length : length (cl_requests s) = length (cl_names s);
  cli_count : cl_count s + length (filter (fun r => snd r = true) (cl_requests s))
              = length (cl_names s);
  cli_calls : existsb snd (cl_requests s) = true -> cl_calls s = []
}.

(** A document as an export writes it: every value an array. *)
Definition array_valued (o : object) : Prop :=
  forall k v, obj_get o k = Some v -> exists l, v = VArr l.

(** An import of the document [o0] into the database [db0], in flight:
    every round has added, in order, the values that are no longer
    outstanding; the entry of a store stays in the import object while
    requests on it are outstanding; and no callback has been made while
    any request is outstanding. *)
Record import_inv (db0 : IDBDatabase) (o0 : object) (s : import_state)
  : Prop := {
  imi_live : im_aborted s = false;
  imi_stores : rq_store <$> im_requests s = objectStoreNames db0;
  imi_database : fst <$> im_database s = objectStoreNames db0;
  imi_object : exists o,
    importObject s = VObj o /\
    forall i r, im_requests s !! i = Some r -> rq_pending r <> [] ->
      obj_get o (rq_store r) = obj_get o0 (rq_store r);
  imi_progress : forall i r, im_requests s !! i = Some r ->
    exists records added,
      db0 !! i = Some (rq_store r, records) /\
      lodash_forEach (obj_get o0 (rq_store r))
      = (Some <$> added) ++ rq_pending r /\
      rq_count r = length added /\
      im_database s !! i = Some (rq_store r, records ++ added);
  imi_calls :
    existsb (fun r => negb (bool_decide (rq_pending r = []))) (im_requests s)
    = true ->
    im_calls s = []
}.

(** ** Measures of a call in flight *)

(** The cursor events an export of [db] takes: one for each record and one
    more for the end of each store. *)
Definition export_events (db : IDBDatabase) : nat :=
  sum_list ((fun st : jsstring * list value => S (length (snd st))) <$> db).

(** The cursor events still due to the open cursors. *)
Definition events_due (cursors : list (jsstring * cursor)) : nat :=
  sum_list
    ((fun c : jsstring * cursor =>
        match snd c with
        | CursorOpen _ remaining => S (length remaining)
        | _ => 0
        end) <$> cursors).

(** A value without a string that starts with the sentinel, at any depth. *)
Fixpoint untagged (v : value) : bool :=
  match v with
  | VStr s => negb (startsWith s sentinel)
  | VArr l => forallb untagged l
  | VObj o => forallb (fun kx => untagged (snd kx)) o
  | _ => true
  end.

(** ** What holds of a clear while no error has reached it *)

(** A clear of [db] in flight: a store whose request has succeeded is empty,
    the others are as they were, and the callback has been made exactly
    when no request is outstanding any more. *)
Record clear_progress (db : IDBDatabase) (s : clear_state) : Prop := {
  clp_names : cl_names s = objectStoreNames db;
  clp_requests : fst <$> cl_requests s = objectStoreNames db;
  clp_stores : fst <$> cl_database s = objectStoreNames db;
  clp_database : forall i name pending,
    cl_requests s !! i = Some (name, pending) ->
    cl_database s !! i
    = Some (name, if pending : bool then store_records db name else []);
  clp_calls :
    cl_calls s =
    if existsb snd (cl_requests s) || (length db =? 0)%nat then [] else [None]
}.

(** ** What an import has finished *)

(** The values a document holds for a store: the elements of the array
    under its name. *)
Definition document_records (o : object) (storeName : jsstring) : list value :=
  match obj_get o storeName with
  | Some (VArr l) => l
  | _ => []
  end.

(** A round that has made requests, all of which have succeeded. *)
Definition round_completed (r : add_requests) : bool :=
  bool_decide (rq_pending r = []) && (0 <? rq_count r)%nat.

(** The store has a completed round. *)
Definition finished (requests : list add_requests) (storeName : jsstring)
  : bool :=
  existsb (fun r => bool_decide (rq_store r = storeName) && round_completed r)
    requests.

(** The document without the entries of the finished stores. *)
Definition remaining_document (requests : list add_requests) (o : object)
  : object :=
  filter (fun kx : jsstring * value => finished requests (fst kx) = false) o.

(** An import of the document [o0] in flight: the import object is the
    document without the finished stores, and once no request is
    outstanding the callback has been made exactly if some store was
    finished and nothing remains of the document. *)
Record import_done (o0 : object) (s : import_state) : Prop := {
  imd_object : importObject s = VObj (remaining_document (im_requests s) o0);
  imd_calls :
    import_settled s = true ->
    im_calls s =
    if existsb round_completed (im_requests s)
       && bool_decide (remaining_document (im_requests s) o0 = [])
    then [None] else []
}.

(** The [add] requests an import of the document [o] into [db] makes: one
    for each value the document lists under the name of a store. *)
Definition import_events (db : IDBDatabase) (o : object) : nat :=
  sum_list ((fun storeName => length (document_records o storeName))
              <$> objectStoreNames db).

(** The [add] requests still outstanding. *)
Definition requests_due (requests : list add_requests) : nat :=
  sum_list ((fun r => length (rq_pending r)) <$> requests).
(** * Properties *)

(** [simpl] shows a mapped list through the function behind [<$>]; this
    brings the notation back. *)
Ltac fold_fmap :=
  repeat match goal with
    | |- context [list_fmap ?A ?B ?f ?l] =>
        change (list_fmap A B f l) with (f <$> l)
    | H : context [list_fmap ?A ?B ?f ?l] |- _ =>
        change (list_fmap A B f l) with (f <$> l) in H
    end.

(** ** The binary codec *)

Lemma ToUint8_to_N (b : byte) : ToUint8 (Byte.to_N b) = b.
Proof.
  unfold ToUint8.
  pose proof (Byte.to_N_bounded b) as Hb.
  rewrite N.mod_small by lia.
  by rewrite Byte.of_to_N.
Qed.

Lemma ToUint8_low_byte (c : N) : Byte.to_N (ToUint8 c) = N.land c 255.
Proof.
  unfold ToUint8.
  change 255%N with (N.ones 8). rewrite N.land_ones. change (2 ^ 8)%N with 256%N.
  destruct (Byte.of_N (c mod 256)) as [b|] eqn:Hof.
  - by apply Byte.to_of_N.
  - exfalso. apply Byte.of_N_None_iff in Hof.
    pose proof (N.mod_upper_bound c 256). lia.
Qed.

Lemma charCodeAt_lookup (str : jsstring) (i : nat) (c : N) :
  str !! i = Some c -> charCodeAt str i = c.
Proof. unfold charCodeAt. by intros ->. Qed.

(** The loop writes the positions [i .. i+steps-1] and nothing else. *)
Lemma str2ab_loop_spec (str : jsstring) (steps : nat) :
  forall (bufView : list byte) (i : nat),
    i + steps <= length bufView ->
    str2ab_loop str bufView i steps =
    take i bufView
    ++ ((fun j => ToUint8 (charCodeAt str j)) <$> seq i steps)
    ++ drop (i + steps) bufView.
Proof.
  induction steps as [|steps IH]; intros bufView i Hlen; simpl.
  - rewrite Nat.add_0_r. by rewrite take_drop.
  - rewrite IH by (rewrite length_insert; lia).
    rewrite (take_S_r _ _ (ToUint8 (charCodeAt str i))).
    2:{ apply list_lookup_insert_eq. lia. }
    rewrite take_insert_ge by lia.
    rewrite drop_insert_lt by lia.
    rewrite <- app_assoc. simpl.
    replace (S (i + steps)) with (i + S steps) by lia. done.
Qed.

Lemma str2ab_eq (str : jsstring) :
  str2ab str = (ToUint8 <$> str) ++ replicate (length str) x00.
Proof.
  unfold str2ab. rewrite str2ab_loop_spec by (rewrite length_replicate; lia).
  simpl. f_equal.
  - apply list_eq. intros j. rewrite !list_lookup_fmap.
    destruct (decide (j < length str)) as [Hj|Hj].
    + rewrite lookup_seq_lt by done. simpl.
      destruct (lookup_lt_is_Some_2 str j Hj) as [c Hc].
      rewrite Hc. simpl. by rewrite (charCodeAt_lookup _ _ _ Hc).
    + rewrite lookup_seq_ge by lia. by rewrite lookup_ge_None_2 by lia.
  - rewrite drop_replicate. f_equal. lia.
Qed.

Lemma buffer_string_eq (buf : list byte) : buffer_string buf = Byte.to_N <$> buf.
Proof.
  unfold buffer_string, String_fromCharCode, Uint8Array.
  rewrite <- list_fmap_compose. apply list_fmap_ext. intros _ b _. simpl.
  pose proof (Byte.to_N_bounded b). apply N.mod_small. lia.
Qed.

(** [ab2str] returns the string of the buffer, or throws where the buffer is
    longer than the host spreads. *)
Lemma ab2str_eq (max_arguments : N) (buf : list byte) :
  ab2str max_arguments buf =
  if (N.of_nat (length buf) <=? max_arguments)%N
  then Some (buffer_string buf) else None.
Proof.
  unfold ab2str, Function_apply, Uint8Array. by rewrite length_fmap.
Qed.

Lemma str2ab_buffer_string (buf : list byte) :
  str2ab (buffer_string buf) = buf ++ replicate (length buf) x00.
Proof.
  rewrite str2ab_eq, buffer_string_eq, length_fmap. f_equal.
  rewrite <- list_fmap_compose.
  rewrite <- (list_fmap_id buf) at 2.
  apply list_fmap_ext. intros _ b _. simpl. apply ToUint8_to_N.
Qed.

(** C8.  [str2ab s] allocates [2 * length s] bytes and writes the first
    [length s] of them: byte [i] is the low byte of the code of [s[i]], and
    the second half keeps the zeros it was allocated with. *)
Theorem str2ab_allocates_double_writes_half (s : jsstring) :
  length (str2ab s) = 2 * length s /\
  (forall i c, s !! i = Some c ->
     exists b, str2ab s !! i = Some b /\ Byte.to_N b = N.land c 255) /\
  (forall i, length s <= i < 2 * length s -> str2ab s !! i = Some x00).
Proof.
  rewrite str2ab_eq. split; [|split].
  - rewrite length_app, length_fmap, length_replicate. lia.
  - intros i c Hc. exists (ToUint8 c). split; [|apply ToUint8_low_byte].
    rewrite lookup_app_l by (rewrite length_fmap; eapply lookup_lt_Some; eauto).
    by rewrite list_lookup_fmap, Hc.
  - intros i Hi.
    rewrite lookup_app_r by (rewrite length_fmap; lia).
    rewrite length_fmap. apply lookup_replicate_2. lia.
Qed.

(** C2, as the code has it.  [ab2str] throws exactly where the buffer is
    longer than the host spreads into one call.  Where it returns, decoding
    the encoding of [b] gives [b] followed by as many zero bytes again; its
    first [length b] bytes are [b], and it is [b] itself only for the empty
    buffer. *)
Theorem str2ab_ab2str_prefix (max_arguments : N) (b : list byte) :
  (ab2str max_arguments b = None
   <-> (max_arguments < N.of_nat (length b))%N) /\
  ((N.of_nat (length b) <= max_arguments)%N ->
   exists str, ab2str max_arguments b = Some str) /\
  (forall str, ab2str max_arguments b = Some str ->
     str2ab str = b ++ replicate (length b) x00 /\
     take (length b) (str2ab str) = b /\
     (str2ab str = b <-> b = [])).
Proof.
  rewrite ab2str_eq.
  destruct (N.leb_spec (N.of_nat (length b)) max_arguments) as [Hfit|Hlong].
  - split; [split; [done|lia]|]. split; [by eexists|].
    intros str [= <-]. rewrite str2ab_buffer_string. split; [done|split].
    + by rewrite take_app_length.
    + split.
      * intros H. apply (f_equal length) in H.
        rewrite length_app, length_replicate in H.
        apply length_zero_iff_nil. lia.
      * by intros ->.
  - split; [done|]. split; [lia|done].
Qed.

(** C2, as stated, fails on a buffer of one byte. *)
Lemma str2ab_ab2str_one_byte : str2ab <$> ab2str 65536 [x01] <> Some [x01].
Proof. vm_compute. discriminate. Qed.

(** ** Values and their text *)

(** Induction over values, through the lists they nest. *)
Lemma value_nested_ind (P : value -> Prop)
    (Hnull : P VNull) (Hbool : forall b, P (VBool b))
    (Hnum : forall m e, P (VNum m e)) (Hstr : forall s, P (VStr s))
    (Harr : forall l, Forall P l -> P (VArr l))
    (Hobj : forall o, Forall (fun kx => P (snd kx)) o -> P (VObj o))
    (Hbuf : forall b, P (VBuf b)) :
  forall v, P v.
Proof.
  fix IH 1.
  intros [ | b | m e | s | l | o | b ];
    [ apply Hnull | apply Hbool | apply Hnum | apply Hstr | | | apply Hbuf ].
  - apply Harr. revert l. fix IHl 1.
    intros [|x l]; constructor; [apply IH | apply IHl].
  - apply Hobj. revert o. fix IHo 1.
    intros [|[k x] o]; constructor; [apply IH | apply IHo].
Qed.

Lemma depth_element (l : list value) (x : value) :
  x ∈ l -> depth x < depth (VArr l).
Proof.
  simpl. induction 1 as [x l|x y l _ IH]; simpl; lia.
Qed.

Lemma depth_member (o : list (list N * value)) (kx : list N * value) :
  kx ∈ o -> depth (snd kx) < depth (VObj o).
Proof.
  simpl. induction 1 as [x l|x y l _ IH]; simpl; lia.
Qed.

Lemma all_written_imap {A} (p : A -> bool) (g : A -> list N) (l : list A) :
  forall f : nat -> A -> option (list N),
    (forall i x, l !! i = Some x -> f i x = if p x then Some (g x) else None) ->
    all_written (imap f l) = if forallb p l then Some (g <$> l) else None.
Proof.
  induction l as [|x l IH]; intros f Hf; [done|].
  cbn [imap all_written forallb fmap list_fmap]. fold_fmap.
  rewrite (Hf 0 x eq_refl), (IH (f ∘ S)) by (intros i y Hy; by apply (Hf (S i))).
  by destruct (p x), (forallb p l).
Qed.

Lemma all_written_fmap {A} (p : A -> bool) (g : A -> list N)
    (f : A -> option (list N)) (l : list A) :
  (forall i x, l !! i = Some x -> f x = if p x then Some (g x) else None) ->
  all_written (f <$> l) = if forallb p l then Some (g <$> l) else None.
Proof.
  intros Hf. rewrite <- (imap_const f). by apply all_written_imap.
Qed.

(** Without a replacer the serializer follows the structural rules. *)
Lemma SerializeJSONProperty_no_replacer (fuel : nat) :
  forall (key : list N) (v : value),
    depth v < fuel ->
    SerializeJSONProperty fuel no_replacer key v = Some (write_json v).
Proof.
  induction fuel as [|fuel IH]; intros key v Hd; [lia|].
  destruct v as [ | [|] | m e | s | l | o | b ];
    cbn [SerializeJSONProperty no_replacer write_json]; try done.
  - rewrite (all_written_imap (fun _ => true) write_json).
    + replace (forallb (fun _ => true) l) with true; [done|].
      symmetry. by apply forallb_forall.
    + intros i x Hx. apply IH.
      apply list_elem_of_lookup_2 in Hx. apply depth_element in Hx. lia.
  - rewrite (all_written_fmap (fun _ => true)
               (fun kx => QuoteJSONString (fst kx) ++ 58%N :: write_json (snd kx))).
    + replace (forallb (fun _ => true) o) with true; [done|].
      symmetry. by apply forallb_forall.
    + intros i kx Hx. rewrite IH; [done|].
      apply list_elem_of_lookup_2 in Hx. apply depth_member in Hx. lia.
Qed.

(** With [exportReplacer] it writes, by the same rules, the value in which
    the buffers have given way to their tagged strings, unless a buffer is
    longer than the host spreads: then the replacer throws. *)
Lemma SerializeJSONProperty_exportReplacer (max_arguments : N) (fuel : nat) :
  forall (key : list N) (v : value),
    depth v < fuel ->
    SerializeJSONProperty fuel (exportReplacer max_arguments) key v =
    if spreadable max_arguments v then Some (write_json (tag_buffers v))
    else None.
Proof.
  induction fuel as [|fuel IH]; intros key v Hd; [lia|].
  destruct v as [ | [|] | m e | s | l | o | b ];
    cbn [SerializeJSONProperty exportReplacer isArrayBuffer spreadable
         tag_buffers write_json]; try done.
  - rewrite (all_written_imap (spreadable max_arguments)
               (fun x => write_json (tag_buffers x))).
    + rewrite <- list_fmap_compose.
      by destruct (forallb (spreadable max_arguments) l).
    + intros i x Hx. apply IH.
      apply list_elem_of_lookup_2 in Hx. apply depth_element in Hx. lia.
  - rewrite (all_written_fmap (fun kx => spreadable max_arguments (snd kx))
               (fun kx => QuoteJSONString (fst kx)
                          ++ 58%N :: write_json (tag_buffers (snd kx)))).
    + rewrite <- list_fmap_compose.
      by destruct (forallb (fun kx => spreadable max_arguments (snd kx)) o).
    + intros i kx Hx. rewrite IH.
      * by destruct (spreadable max_arguments (snd kx)).
      * apply list_elem_of_lookup_2 in Hx. apply depth_member in Hx. lia.
  - rewrite ab2str_eq.
    by destruct (N.of_nat (length b) <=? max_arguments)%N.
Qed.

Lemma JSON_stringify_no_replacer (v : value) :
  JSON_stringify no_replacer v = Some (write_json v).
Proof. apply SerializeJSONProperty_no_replacer. lia. Qed.

Lemma JSON_stringify_exportReplacer (max_arguments : N) (v : value) :
  JSON_stringify (exportReplacer max_arguments) v =
  if spreadable max_arguments v then Some (write_json (tag_buffers v))
  else None.
Proof. apply SerializeJSONProperty_exportReplacer. lia. Qed.

Lemma JSON_stringify_written (max_arguments : N) (v : value) (text : list N) :
  JSON_stringify (exportReplacer max_arguments) v = Some text ->
  spreadable max_arguments v = true /\ text = write_json (tag_buffers v).
Proof.
  rewrite JSON_stringify_exportReplacer.
  destruct (spreadable max_arguments v); [|done]. by intros [= <-].
Qed.

(** ** Reading back what was written: strings *)

Lemma hex_digit_value (n : N) :
  (n < 16)%N -> hex_value (hex_digit n) = Some n.
Proof.
  intros Hn.
  destruct n as [|p]; [reflexivity|].
  do 4 (try destruct p as [p|p|]); try reflexivity; lia.
Qed.

Lemma hex4_control (c : N) :
  (c < 32)%N ->
  hex4 48 48 (hex_digit (c / 16)) (hex_digit (c mod 16)) = Some c.
Proof.
  intros Hc. unfold hex4. change (hex_value 48) with (Some 0%N).
  rewrite !hex_digit_value.
  - f_equal. pose proof (N.div_mod c 16). lia.
  - apply N.mod_upper_bound. lia.
  - apply N.Div0.div_lt_upper_bound. lia.
Qed.

Ltac case_N_eqb :=
  match goal with
  | |- context [(?a =? ?b)%N] => destruct (N.eqb_spec a b) as [->|?]
  end.

(** One quoted unit reads back as that unit. *)
Lemma parse_string_chars_quote_unit (c : N) (r : list N) :
  parse_string_chars (quote_unit c ++ r) =
  match parse_string_chars r with
  | Some (str, rest) => Some (c :: str, rest)
  | None => None
  end.
Proof.
  unfold quote_unit.
  do 7 (case_N_eqb; [reflexivity|]).
  destruct (N.ltb_spec c 32) as [Hlt|Hge].
  - cbn [app parse_string_chars].
    change (92 =? 34)%N with false. change (92 =? 92)%N with true.
    change (117 =? 117)%N with true. cbv iota.
    by rewrite hex4_control.
  - cbn [app parse_string_chars].
    destruct (N.eqb_spec c 34); [done|]. destruct (N.eqb_spec c 92); [done|].
    destruct (N.ltb_spec c 32); [lia|]. done.
Qed.

Lemma parse_string_chars_quoted (s : list N) (rest : list N) :
  parse_string_chars (flat_map quote_unit s ++ 34%N :: rest) = Some (s, rest).
Proof.
  induction s as [|c s IH]; [done|].
  simpl. rewrite <- app_assoc, parse_string_chars_quote_unit. by rewrite IH.
Qed.

Lemma QuoteJSONString_app (s rest : list N) :
  QuoteJSONString s ++ rest = 34%N :: flat_map quote_unit s ++ 34%N :: rest.
Proof. unfold QuoteJSONString. simpl. by rewrite <- app_assoc. Qed.

(** ** Reading back what was written: numbers *)

Lemma digit_range (c : N) (d : Decimal.uint -> Decimal.uint) :
  digit c = Some d -> (48 <= c <= 57)%N.
Proof.
  unfold digit.
  repeat (case_N_eqb; [lia|]). discriminate.
Qed.

Lemma digit_none (c : N) : (c < 48 \/ 57 < c)%N -> digit c = None.
Proof.
  intros H. destruct (digit c) as [d|] eqn:Hd; [|done].
  apply digit_range in Hd. lia.
Qed.

Lemma take_digits_written (u : Decimal.uint) (t : list N) :
  take_digits t = (Decimal.Nil, t) ->
  take_digits (uint_digits u ++ t) = (u, t).
Proof.
  intros Ht. induction u; simpl; rewrite ?IHu; done.
Qed.

Lemma take_digits_no_digit (c : N) (r : list N) :
  (c < 48 \/ 57 < c)%N -> take_digits (c :: r) = (Decimal.Nil, c :: r).
Proof. intros H. simpl. by rewrite digit_none. Qed.

Lemma delimited_head (c : N) (r : list N) :
  delimited (c :: r) = true -> (c = 44 \/ c = 93 \/ c = 125)%N.
Proof.
  simpl. repeat (case_N_eqb; [lia|]). discriminate.
Qed.

Lemma take_digits_delimited (rest : list N) :
  delimited rest = true -> take_digits rest = (Decimal.Nil, rest).
Proof.
  destruct rest as [|c r]; [done|]. intros H%delimited_head.
  apply take_digits_no_digit. lia.
Qed.

Lemma uint_digits_head (u : Decimal.uint) :
  u <> Decimal.Nil ->
  exists c r, uint_digits u = c :: r /\ (48 <= c <= 57)%N.
Proof.
  destruct u; [done|..]; intros _; simpl; eexists _, _; (split; [reflexivity|lia]).
Qed.

Lemma canonical_to_uint (n : N) : canonical (N.to_uint n) = true.
Proof.
  unfold canonical. apply Decimal.internal_uint_dec_lb.
  by rewrite <- DecimalN.Unsigned.to_of, DecimalN.Unsigned.of_to.
Qed.

(** The digits of an integer: a sign where it is negative, then the digits
    of its magnitude, which are canonical. *)
Lemma Z_digits_split (z : Z) :
  exists u,
    u <> Decimal.Nil /\ canonical u = true /\ Z.of_uint u = Z.abs z /\
    Z_digits z = (if (z <? 0)%Z then [45%N] else []) ++ uint_digits u.
Proof.
  destruct z as [|p|p].
  - exists (Decimal.D0 Decimal.Nil). by repeat split.
  - exists (Pos.to_uint p). repeat split.
    + apply DecimalPos.Unsigned.to_uint_nonnil.
    + apply (canonical_to_uint (N.pos p)).
    + unfold Z.of_uint. by rewrite DecimalPos.Unsigned.of_to.
  - exists (Pos.to_uint p). repeat split.
    + apply DecimalPos.Unsigned.to_uint_nonnil.
    + apply (canonical_to_uint (N.pos p)).
    + unfold Z.of_uint. by rewrite DecimalPos.Unsigned.of_to.
Qed.

Lemma Z_digits_head (z : Z) :
  exists c r, Z_digits z = c :: r /\ (c = 45 \/ 48 <= c <= 57)%N.
Proof.
  destruct (Z_digits_split z) as (u & Hnil & _ & _ & ->).
  destruct (uint_digits_head u Hnil) as (c & r & -> & Hc).
  destruct (z <? 0)%Z; simpl; eexists _, _; (split; [reflexivity|lia]).
Qed.

Lemma parse_fraction_none (t : list N) :
  match t with [] => True | c :: _ => c <> 46%N end ->
  parse_fraction t = Some (Decimal.Nil, t).
Proof.
  destruct t as [|c r]; [done|]. simpl. intros H.
  by destruct (N.eqb_spec c 46).
Qed.

Lemma parse_exponent_none (rest : list N) :
  delimited rest = true -> parse_exponent rest = Some (0%Z, rest).
Proof.
  destruct rest as [|c r]; [done|]. intros H%delimited_head. simpl.
  destruct (N.eqb_spec c 101); [lia|].
  destruct (N.eqb_spec c 69); [lia|]. done.
Qed.

Lemma parse_exponent_written (e : Z) (rest : list N) :
  delimited rest = true ->
  parse_exponent (101%N :: Z_digits e ++ rest) = Some (e, rest).
Proof.
  intros Hrest.
  destruct (Z_digits_split e) as (u & Hnil & _ & Hval & ->).
  destruct (uint_digits_head u Hnil) as (c & r & Hu & Hc).
  unfold parse_exponent. change ((101 =? 101)%N || (101 =? 69)%N) with true.
  cbv iota.
  destruct (Z.ltb_spec e 0) as [Hneg|Hpos].
  - cbn [app]. change (45 =? 45)%N with true. cbv iota.
    rewrite take_digits_written by by apply take_digits_delimited.
    destruct u; [done|..]; do 2 f_equal; lia.
  - cbn [app]. rewrite Hu. cbn [app].
    destruct (N.eqb_spec c 45); [lia|]. destruct (N.eqb_spec c 43); [lia|].
    change (c :: r ++ rest) with ((c :: r) ++ rest). rewrite <- Hu.
    rewrite take_digits_written by by apply take_digits_delimited.
    destruct u; [done|..]; do 2 f_equal; lia.
Qed.

Lemma parse_number_written (m e : Z) (rest : list N) :
  delimited rest = true ->
  parse_number (NumberToString m e ++ rest) = Some (VNum m e, rest).
Proof.
  intros Hrest. unfold NumberToString, parse_number.
  destruct (Z_digits_split m) as (u & Hnil & Hcan & Hval & ->).
  destruct (uint_digits_head u Hnil) as (c & r & Hu & Hc).
  set (tail := (if (e =? 0)%Z then [] else 101%N :: Z_digits e) ++ rest).
  assert (Htail : take_digits tail = (Decimal.Nil, tail)).
  { subst tail. destruct (e =? 0)%Z.
    - by apply take_digits_delimited.
    - apply take_digits_no_digit. lia. }
  assert (Hfrac : parse_fraction tail = Some (Decimal.Nil, tail)).
  { apply parse_fraction_none. subst tail. destruct (e =? 0)%Z; simpl.
    - destruct rest as [|c' r']; [done|].
      apply delimited_head in Hrest. lia.
    - done. }
  assert (Hexp : parse_exponent tail = Some (e, rest)).
  { subst tail. destruct (Z.eqb_spec e 0) as [->|?]; simpl.
    - by apply parse_exponent_none.
    - by apply parse_exponent_written. }
  rewrite <- !app_assoc. fold tail.
  destruct (Z.ltb_spec m 0) as [Hneg|Hpos].
  - cbn [app]. change (45 =? 45)%N with true. cbv iota.
    rewrite take_digits_written by done. rewrite Hcan, Hfrac, Hexp.
    rewrite DecimalFacts.app_nil_r. simpl. do 3 f_equal; lia.
  - cbn [app]. rewrite Hu. cbn [app].
    destruct (N.eqb_spec c 45); [lia|].
    change (c :: r ++ tail) with ((c :: r) ++ tail). rewrite <- Hu.
    rewrite take_digits_written by done. rewrite Hcan, Hfrac, Hexp.
    rewrite DecimalFacts.app_nil_r. simpl. do 3 f_equal; lia.
Qed.

Lemma NumberToString_head (m e : Z) :
  exists c r, NumberToString m e = c :: r /\ (c = 45 \/ 48 <= c <= 57)%N.
Proof.
  unfold NumberToString.
  destruct (Z_digits_head m) as (c & r & -> & Hc).
  eexists _, _. split; [reflexivity|done].
Qed.

(** ** Reading back what was written: values *)

Lemma parse_value_S (fuel : nat) (c : N) (r : list N) :
  is_ws c = false ->
  parse_value (S fuel) (c :: r) =
  if (c =? 123)%N then
    match skip_ws r with
    | [] => None
    | c' :: r' =>
        if (c' =? 125)%N then Some (VObj [], r')
        else
          match parse_members fuel (c' :: r') with
          | Some (members, rest) => Some (VObj (build_object members), rest)
          | None => None
          end
    end
  else if (c =? 91)%N then
    match skip_ws r with
    | [] => None
    | c' :: r' =>
        if (c' =? 93)%N then Some (VArr [], r')
        else
          match parse_elements fuel (c' :: r') with
          | Some (l, rest) => Some (VArr l, rest)
          | None => None
          end
    end
  else if (c =? 34)%N then
    match parse_string_chars r with
    | Some (str, rest) => Some (VStr str, rest)
    | None => None
    end
  else if startsWith (c :: r) text_true then Some (VBool true, drop 4 (c :: r))
  else if startsWith (c :: r) text_false then Some (VBool false, drop 5 (c :: r))
  else if startsWith (c :: r) text_null then Some (VNull, drop 4 (c :: r))
  else parse_number (c :: r).
Proof. intros Hws. cbn [parse_value skip_ws]. by rewrite Hws. Qed.

Lemma parse_elements_S (fuel : nat) (s : list N) :
  parse_elements (S fuel) s =
  match parse_value fuel s with
  | None => None
  | Some (v, r) =>
      match skip_ws r with
      | [] => None
      | c :: r' =>
          if (c =? 44)%N then
            match parse_elements fuel r' with
            | Some (l, rest) => Some (v :: l, rest)
            | None => None
            end
          else if (c =? 93)%N then Some ([v], r')
          else None
      end
  end.
Proof. reflexivity. Qed.

Lemma parse_members_S (fuel : nat) (r : list N) :
  parse_members (S fuel) (34%N :: r) =
  match parse_string_chars r with
  | None => None
  | Some (k, r1) =>
      match skip_ws r1 with
      | [] => None
      | c1 :: r2 =>
          if (c1 =? 58)%N then
            match parse_value fuel r2 with
            | None => None
            | Some (v, r3) =>
                match skip_ws r3 with
                | [] => None
                | c3 :: r4 =>
                    if (c3 =? 44)%N then
                      match parse_members fuel r4 with
                      | Some (ms, rest) => Some ((k, v) :: ms, rest)
                      | None => None
                      end
                    else if (c3 =? 125)%N then Some ([(k, v)], r4)
                    else None
                end
            end
          else None
      end
  end.
Proof. reflexivity. Qed.

Lemma write_json_head (v : value) :
  exists c r, write_json v = c :: r /\ value_head c.
Proof.
  unfold value_head.
  destruct v as [ | [|] | m e | s | l | o | b ]; simpl;
    try (eexists _, _; split; [reflexivity|lia]).
  destruct (NumberToString_head m e) as (c & r & -> & Hc).
  eexists _, _; split; [reflexivity|lia].
Qed.

Lemma value_head_not_ws (c : N) : value_head c -> is_ws c = false.
Proof.
  unfold value_head, is_ws. intros H.
  repeat (case_N_eqb; [lia|]). done.
Qed.

Lemma skip_ws_written (v : value) (rest : list N) :
  skip_ws (write_json v ++ rest) = write_json v ++ rest.
Proof.
  destruct (write_json_head v) as (c & r & -> & Hc).
  simpl. by rewrite value_head_not_ws.
Qed.

Lemma skip_ws_delimiter_or_head (c : N) (r : list N) :
  value_head c \/ c = 34%N -> skip_ws (c :: r) = c :: r.
Proof.
  intros H. simpl. rewrite value_head_not_ws; [done|].
  unfold value_head in *. lia.
Qed.

Lemma skip_ws_delimiter (c : N) (r : list N) :
  (c = 44 \/ c = 93 \/ c = 125 \/ c = 58)%N -> skip_ws (c :: r) = c :: r.
Proof.
  intros H. simpl. unfold is_ws.
  repeat (case_N_eqb; [lia|]). done.
Qed.

Lemma join_comma_cons (p q : list N) (qs : list (list N)) :
  join_comma (p :: q :: qs) = p ++ 44%N :: join_comma (q :: qs).
Proof. reflexivity. Qed.

Lemma join_comma_fmap_cons {A} (f : A -> list N) (x y : A) (l : list A) :
  join_comma (f <$> x :: y :: l) = f x ++ 44%N :: join_comma (f <$> y :: l).
Proof. reflexivity. Qed.

Lemma join_comma_fmap_singleton {A} (f : A -> list N) (x : A) :
  join_comma (f <$> [x]) = f x.
Proof. simpl. apply app_nil_r. Qed.

Lemma join_comma_singleton (p : list N) : join_comma [p] = p.
Proof. simpl. apply app_nil_r. Qed.

(** What the lemmas below say of one value: its text, followed by anything
    that may follow a value, reads back as the value. *)
Lemma parse_elements_written (l : list value) :
  Forall (fun x =>
            forall fuel rest, nodes x <= fuel -> delimited rest = true ->
              parse_value fuel (write_json x ++ rest) = Some (x, rest)) l ->
  l <> [] ->
  forall fuel rest,
    foldr (fun x n => S (nodes x + n)) 0 l <= fuel ->
    parse_elements fuel (join_comma (write_json <$> l) ++ 93%N :: rest)
    = Some (l, rest).
Proof.
  induction 1 as [|x l Hx Hl IH]; [done|]. intros _ fuel rest Hfuel.
  simpl in Hfuel. destruct fuel as [|fuel]; [lia|].
  rewrite parse_elements_S.
  destruct l as [|y l].
  - rewrite join_comma_fmap_singleton.
    rewrite Hx by (done || lia).
    rewrite skip_ws_delimiter by lia. done.
  - rewrite join_comma_fmap_cons.
    rewrite <- app_assoc. cbn [app].
    rewrite Hx by (done || lia).
    rewrite skip_ws_delimiter by lia.
    change (44 =? 44)%N with true. cbv iota.
    rewrite IH; [done|done|lia].
Qed.

Lemma parse_members_member (fuel : nat) (k s : list N) :
  parse_members (S fuel) (QuoteJSONString k ++ 58%N :: s) =
  match parse_value fuel s with
  | None => None
  | Some (v, r3) =>
      match skip_ws r3 with
      | [] => None
      | c3 :: r4 =>
          if (c3 =? 44)%N then
            match parse_members fuel r4 with
            | Some (ms, rest) => Some ((k, v) :: ms, rest)
            | None => None
            end
          else if (c3 =? 125)%N then Some ([(k, v)], r4)
          else None
      end
  end.
Proof.
  rewrite QuoteJSONString_app, parse_members_S, parse_string_chars_quoted.
  by rewrite skip_ws_delimiter by lia.
Qed.

Lemma parse_members_written (o : list (list N * value)) :
  Forall (fun kx =>
            forall fuel rest, nodes (snd kx) <= fuel -> delimited rest = true ->
              parse_value fuel (write_json (snd kx) ++ rest)
              = Some (snd kx, rest)) o ->
  o <> [] ->
  forall fuel rest,
    foldr (fun kx n => S (nodes (snd kx) + n)) 0 o <= fuel ->
    parse_members fuel
      (join_comma
         ((fun kx => QuoteJSONString (fst kx) ++ 58%N :: write_json (snd kx))
            <$> o)
       ++ 125%N :: rest)
    = Some (o, rest).
Proof.
  induction 1 as [|[k x] o Hx Ho IH]; [done|]. intros _ fuel rest Hfuel.
  simpl in Hfuel, Hx. destruct fuel as [|fuel]; [lia|].
  destruct o as [|[k' y] o].
  - rewrite join_comma_fmap_singleton. cbn [fst snd].
    repeat (rewrite <- app_assoc; cbn [app]).
    rewrite parse_members_member.
    rewrite Hx by (done || lia).
    rewrite skip_ws_delimiter by lia. done.
  - rewrite join_comma_fmap_cons. cbn [fst snd].
    repeat (rewrite <- app_assoc; cbn [app]).
    rewrite parse_members_member.
    rewrite Hx by (done || lia).
    rewrite skip_ws_delimiter by lia.
    change (44 =? 44)%N with true. cbv iota.
    rewrite IH; [done|done|lia].
Qed.

(** ** Objects keep the order of a well-formed text *)

Lemma property_order_later (ks1 : list (list N)) (k : list N) (ks2 : list (list N)) :
  property_order (ks1 ++ k :: ks2) = true ->
  Forall (fun k0 => k <> k0 /\ precedes k k0 = false) ks1.
Proof.
  induction ks1 as [|k0 ks1 IH]; [constructor|].
  simpl. intros [Hall Hrest]%andb_prop. constructor; [|by apply IH].
  rewrite forallb_app in Hall. apply andb_prop in Hall as [_ Hall].
  simpl in Hall. apply andb_prop in Hall as [Hk _].
  apply andb_prop in Hk as [Hne Hprec].
  apply negb_true_iff in Hne, Hprec.
  apply bool_decide_eq_false in Hne. done.
Qed.

Lemma obj_get_fresh (o : list (list N * value)) (k : list N) :
  Forall (fun k0 => k <> k0) (fst <$> o) -> obj_get o k = None.
Proof.
  induction o as [|[k0 v0] o IH]; [done|].
  simpl. intros [Hne Hrest]%Forall_cons_1. by rewrite decide_False, IH.
Qed.

Lemma obj_insert_last (o : list (list N * value)) (k : list N) (v : value) :
  Forall (fun k0 => precedes k k0 = false) (fst <$> o) ->
  obj_insert k v o = o ++ [(k, v)].
Proof.
  induction o as [|[k0 v0] o IH]; [done|].
  simpl. intros [Hp Hrest]%Forall_cons_1. by rewrite Hp, IH.
Qed.

Lemma build_object_ordered (o : list (list N * value)) :
  property_order (fst <$> o) = true -> build_object o = o.
Proof.
  unfold build_object.
  enough (Hgen : forall acc,
             property_order (fst <$> (acc ++ o)) = true ->
             foldl (fun o kv => obj_set (fst kv) (snd kv) o) acc o = acc ++ o)
    by apply (Hgen []).
  induction o as [|[k v] o IH]; intros acc Hord; simpl.
  - by rewrite app_nil_r.
  - assert (Hset : obj_set k v acc = acc ++ [(k, v)]).
    { rewrite fmap_app, fmap_cons in Hord.
      apply property_order_later in Hord. simpl in Hord. unfold obj_set.
      rewrite obj_get_fresh
        by (revert Hord; apply List.Forall_impl; by intros k0 [? _]).
      apply obj_insert_last. revert Hord. apply List.Forall_impl.
      by intros k0 [_ ?]. }
    rewrite Hset, IH; rewrite <- app_assoc; done.
Qed.

(** ** The text of a tree reads back as the tree *)

Lemma join_comma_elements_head (l : list value) :
  l <> [] ->
  exists c r, join_comma (write_json <$> l) = c :: r /\ value_head c.
Proof.
  destruct l as [|x l]; [done|]. intros _.
  destruct (write_json_head x) as (c & r & Hhead & Hc).
  rewrite fmap_cons. unfold join_comma. rewrite Hhead.
  eexists _, _. split; [reflexivity|done].
Qed.

Lemma join_comma_members_head (o : list (list N * value)) :
  o <> [] ->
  exists r,
    join_comma
      ((fun kx => QuoteJSONString (fst kx) ++ 58%N :: write_json (snd kx)) <$> o)
    = 34%N :: r.
Proof.
  destruct o as [|[k x] o]; [done|]. intros _.
  rewrite fmap_cons. unfold join_comma. cbn [fst snd].
  unfold QuoteJSONString. cbn [app]. eexists. reflexivity.
Qed.

Lemma forallb_Forall_and {A} (f g : A -> bool) (P : A -> Prop) (l : list A) :
  Forall (fun x => f x = true -> g x = true -> P x) l ->
  forallb f l = true -> forallb g l = true -> Forall P l.
Proof.
  induction 1 as [|x l Hx Hl IH]; [constructor|]. simpl.
  intros [Hf Hfl]%andb_prop [Hg Hgl]%andb_prop. constructor; auto.
Qed.

Lemma parse_value_written (v : value) :
  json_tree v = true -> well_formed v = true ->
  forall fuel rest,
    nodes v <= fuel -> delimited rest = true ->
    parse_value fuel (write_json v ++ rest) = Some (v, rest).
Proof.
  induction v as [ | b | m e | s | l IH | o IH | b ] using value_nested_ind;
    intros Hjson Hwf fuel rest Hfuel Hrest;
    (destruct fuel as [|fuel]; [simpl in Hfuel; lia|]).
  - cbn [write_json]. unfold text_null. cbn [app].
    rewrite parse_value_S by done. reflexivity.
  - destruct b; cbn [write_json]; unfold text_true, text_false; cbn [app];
      (rewrite parse_value_S by done); reflexivity.
  - destruct (NumberToString_head m e) as (c & r & Hhead & Hc).
    cbn [write_json]. rewrite Hhead. cbn [app].
    rewrite parse_value_S by (apply value_head_not_ws; unfold value_head; lia).
    assert (Hne : forall n : N, (n < 45 \/ 57 < n)%N -> (c =? n)%N = false)
      by (intros n Hn; apply N.eqb_neq; lia).
    rewrite !Hne by lia.
    unfold text_true, text_false, text_null. cbn [startsWith].
    rewrite !Hne by lia. cbn [andb].
    change (c :: r ++ rest) with ((c :: r) ++ rest). rewrite <- Hhead.
    by apply parse_number_written.
  - cbn [write_json]. rewrite QuoteJSONString_app.
    rewrite parse_value_S by done.
    change (34 =? 123)%N with false. change (34 =? 91)%N with false.
    change (34 =? 34)%N with true. cbv iota.
    by rewrite parse_string_chars_quoted.
  - simpl in Hjson, Hwf, Hfuel. cbn [write_json].
    rewrite <- app_assoc. cbn [app].
    rewrite parse_value_S by done.
    change (91 =? 123)%N with false. change (91 =? 91)%N with true. cbv iota.
    destruct (decide (l = [])) as [->|Hne]; [reflexivity|].
    destruct (join_comma_elements_head l Hne) as (c & r & Hhead & Hc).
    rewrite Hhead. cbn [app]. rewrite skip_ws_delimiter_or_head by by left.
    destruct (N.eqb_spec c 93); [unfold value_head in Hc; lia|].
    change (c :: r ++ 93%N :: rest) with ((c :: r) ++ 93%N :: rest).
    rewrite <- Hhead.
    rewrite parse_elements_written; [done| |done|lia].
    by apply (forallb_Forall_and json_tree well_formed).
  - simpl in Hjson, Hwf, Hfuel. cbn [write_json].
    apply andb_prop in Hwf as [Hord Hwf].
    rewrite <- app_assoc. cbn [app].
    rewrite parse_value_S by done.
    change (123 =? 123)%N with true. cbv iota.
    destruct (decide (o = [])) as [->|Hne]; [reflexivity|].
    destruct (join_comma_members_head o Hne) as (r & Hhead).
    rewrite Hhead. cbn [app]. rewrite skip_ws_delimiter_or_head by by right.
    change (34 =? 125)%N with false. cbv iota.
    change (34%N :: r ++ 125%N :: rest) with ((34%N :: r) ++ 125%N :: rest).
    rewrite <- Hhead.
    rewrite parse_members_written; [by rewrite build_object_ordered| |done|lia].
    by apply (forallb_Forall_and (fun kx => json_tree (snd kx))
                (fun kx => well_formed (snd kx))).
  - done.
Qed.

Lemma write_json_length (v : value) : 1 <= length (write_json v).
Proof.
  destruct (write_json_head v) as (c & r & -> & _). simpl. lia.
Qed.

Lemma nodes_le_length (v : value) : nodes v <= length (write_json v).
Proof.
  induction v as [ | b | m e | s | l IH | o IH | b ] using value_nested_ind;
    try apply (write_json_length VNull);
    try apply (write_json_length (VBool b));
    try apply (write_json_length (VNum m e));
    try apply (write_json_length (VStr s));
    try apply (write_json_length (VBuf b)).
  - cbn [nodes write_json]. rewrite length_app. simpl.
    enough (foldr (fun x n => S (nodes x + n)) 0 l
            <= length (flat_map (fun q => 44%N :: q) (write_json <$> l))).
    { destruct l as [|x l]; [simpl; lia|].
      rewrite fmap_cons in *. apply Forall_cons_1 in IH as [Hx _].
      simpl in *. rewrite !length_app in *. simpl in *. lia. }
    induction IH as [|x l Hx Hl IHl]; [done|].
    rewrite fmap_cons. simpl. rewrite length_app. lia.
  - cbn [nodes write_json].
    set (member := fun kx : list N * value =>
                     QuoteJSONString (fst kx) ++ 58%N :: write_json (snd kx)).
    assert (Hmember : forall kx, nodes (snd kx) <= length (write_json (snd kx))
                                 -> nodes (snd kx) <= length (member kx)).
    { intros kx Hkx. unfold member. rewrite length_app. simpl. lia. }
    clearbody member.
    assert (Hflat : forall o',
               Forall (fun kx => nodes (snd kx) <= length (write_json (snd kx))) o' ->
               foldr (fun kx n => S (nodes (snd kx) + n)) 0 o'
               <= length (flat_map (fun q => 44%N :: q) (member <$> o'))).
    { induction 1 as [|kx o' Hx Ho IHo]; [done|].
      apply Hmember in Hx.
      rewrite fmap_cons. simpl. rewrite length_app. lia. }
    rewrite length_app. cbn [length].
    destruct o as [|kx o]; [simpl; lia|].
    apply Forall_cons_1 in IH as [Hx Ho].
    apply Hmember in Hx. apply Hflat in Ho.
    rewrite fmap_cons. unfold join_comma. cbn [foldr].
    rewrite length_app. lia.
Qed.

(** A text written by the structural rules reads back as the tree it was
    written from. *)
Lemma parse_text_written (v : value) :
  json_tree v = true -> well_formed v = true ->
  parse_text (write_json v) = Some v.
Proof.
  intros Hjson Hwf. unfold parse_text.
  rewrite <- (app_nil_r (write_json v)) at 2.
  rewrite parse_value_written; [done|done|done| |done].
  pose proof (nodes_le_length v). lia.
Qed.

(** ** The reviver and the replacer, value by value *)

Lemma InternalizeJSONProperty_importResolver (v : value) :
  forall key, InternalizeJSONProperty importResolver key v = untag_strings v.
Proof.
  induction v as [ | b | m e | s | l IH | o IH | b ] using value_nested_ind;
    intros key; try reflexivity.
  - cbn [InternalizeJSONProperty untag_strings importResolver]. f_equal.
    generalize 0 at 1. induction IH as [|x l Hx Hl IHl]; intros i; [done|].
    rewrite fmap_cons, Hx, IHl. done.
  - cbn [InternalizeJSONProperty untag_strings importResolver]. f_equal.
    apply list_fmap_ext. intros i kx Hkx. f_equal.
    rewrite List.Forall_forall in IH. apply IH.
    apply list_elem_of_In. by eapply list_elem_of_lookup_2.
Qed.

Lemma startsWith_app (p s : list N) : startsWith (p ++ s) p = true.
Proof.
  induction p as [|c p IH]; [done|]. simpl. by rewrite N.eqb_refl, IH.
Qed.

Lemma startsWith_inv (s p : list N) :
  startsWith s p = true -> s = p ++ drop (length p) s.
Proof.
  revert s. induction p as [|c p IH]; intros s; [done|].
  destruct s as [|d s]; [done|]. simpl.
  intros [Hc Hs]%andb_prop. apply N.eqb_eq in Hc as ->.
  f_equal. by apply IH.
Qed.

Lemma untag_tag_reimported (v : value) :
  untag_strings (tag_buffers v) = reimported v.
Proof.
  induction v as [ | b | m e | s | l IH | o IH | b ] using value_nested_ind;
    try reflexivity.
  - cbn [tag_buffers untag_strings reimported]. f_equal.
    rewrite <- list_fmap_compose. apply list_fmap_ext. intros i x Hx. simpl.
    rewrite List.Forall_forall in IH. apply IH.
    apply list_elem_of_In. by eapply list_elem_of_lookup_2.
  - cbn [tag_buffers untag_strings reimported]. f_equal.
    rewrite <- list_fmap_compose. apply list_fmap_ext. intros i kx Hx. simpl.
    f_equal. rewrite List.Forall_forall in IH. apply (IH kx).
    apply list_elem_of_In. by eapply list_elem_of_lookup_2.
  - cbn [tag_buffers untag_strings reimported].
    rewrite startsWith_app.
    change 4 with (length sentinel). rewrite drop_app_length.
    by rewrite str2ab_buffer_string.
Qed.

Lemma reimported_plain (v : value) : plain v = true -> reimported v = v.
Proof.
  induction v as [ | b | m e | s | l IH | o IH | b ] using value_nested_ind;
    try reflexivity; cbn [plain reimported]; intros Hp.
  - by apply negb_true_iff in Hp as ->.
  - f_equal. rewrite <- (list_fmap_id l) at 2.
    apply list_fmap_ext. intros i x Hx. simpl.
    rewrite List.Forall_forall in IH. rewrite forallb_forall in Hp.
    apply list_elem_of_lookup_2, list_elem_of_In in Hx. auto.
  - f_equal. rewrite <- (list_fmap_id o) at 2.
    apply list_fmap_ext. intros i [k x] Hx. simpl. f_equal.
    rewrite List.Forall_forall in IH. rewrite forallb_forall in Hp.
    apply list_elem_of_lookup_2, list_elem_of_In in Hx.
    apply (IH _ Hx). apply (Hp _ Hx).
  - apply bool_decide_eq_true in Hp as ->. done.
Qed.

Lemma json_tree_tag_buffers (v : value) : json_tree (tag_buffers v) = true.
Proof.
  induction v as [ | b | m e | s | l IH | o IH | b ] using value_nested_ind;
    try reflexivity; cbn [tag_buffers json_tree].
  - induction IH as [|x l Hx Hl IHl]; [done|]. rewrite fmap_cons. simpl.
    by rewrite Hx, IHl.
  - induction IH as [|x l Hx Hl IHl]; [done|]. rewrite fmap_cons. simpl.
    by rewrite Hx, IHl.
Qed.

Lemma well_formed_tag_buffers (v : value) :
  well_formed v = true -> well_formed (tag_buffers v) = true.
Proof.
  induction v as [ | b | m e | s | l IH | o IH | b ] using value_nested_ind;
    try reflexivity; cbn [tag_buffers well_formed]; intros Hwf.
  - induction IH as [|x l Hx Hl IHl]; [done|]. rewrite fmap_cons. simpl in *.
    apply andb_prop in Hwf as [H1 H2]. by rewrite Hx, IHl.
  - apply andb_prop in Hwf as [Hord Hwf].
    rewrite <- list_fmap_compose.
    change (fst ∘ _) with (@fst (list N) value). rewrite Hord. simpl.
    clear Hord. induction IH as [|x l Hx Hl IHl]; [done|]. rewrite fmap_cons. simpl in *.
    apply andb_prop in Hwf as [H1 H2]. by rewrite Hx, IHl.
Qed.

(** What an export writes for [v], read by an import, is [reimported v]. *)
Lemma JSON_parse_stringify (max_arguments : N) (v : value) (text : list N) :
  well_formed v = true ->
  JSON_stringify (exportReplacer max_arguments) v = Some text ->
  JSON_parse text importResolver = Some (reimported v).
Proof.
  intros Hwf [_ ->]%JSON_stringify_written. unfold JSON_parse.
  rewrite parse_text_written
    by (apply json_tree_tag_buffers || by apply well_formed_tag_buffers).
  by rewrite InternalizeJSONProperty_importResolver, untag_tag_reimported.
Qed.

(** ** The parser never lacks fuel *)

Ltac case_N_eqb_in H :=
  match type of H with
  | context [(?a =? ?b)%N] => destruct (N.eqb_spec a b) as [->|?]
  end.

Lemma skip_ws_length (s : list N) : length (skip_ws s) <= length s.
Proof.
  induction s as [|c s IH]; simpl; [done|]. destruct (is_ws c); simpl; lia.
Qed.

Lemma skip_ws_cons_length (s r : list N) (c : N) :
  skip_ws s = c :: r -> length r < length s.
Proof.
  intros H. pose proof (skip_ws_length s) as Hl. rewrite H in Hl.
  simpl in Hl. lia.
Qed.

Lemma skip_ws_head (s r : list N) (c : N) :
  skip_ws s = c :: r -> is_ws c = false.
Proof.
  induction s as [|d s IH]; simpl; [done|].
  destruct (is_ws d) eqn:Hd; [done|]. by intros [= <- <-].
Qed.

Lemma skip_ws_idem (s : list N) : skip_ws (skip_ws s) = skip_ws s.
Proof.
  destruct (skip_ws s) as [|c r] eqn:Hs; [done|].
  simpl. by rewrite (skip_ws_head _ _ _ Hs).
Qed.

Lemma parse_value_skip_ws (fuel : nat) (s : list N) :
  parse_value fuel (skip_ws s) = parse_value fuel s.
Proof. destruct fuel; [done|]. cbn [parse_value]. by rewrite skip_ws_idem. Qed.

Lemma parse_members_unfold (fuel : nat) (s : list N) :
  parse_members (S fuel) s =
  match skip_ws s with
  | [] => None
  | c :: r =>
      if (c =? 34)%N then
        match parse_string_chars r with
        | None => None
        | Some (k, r1) =>
            match skip_ws r1 with
            | [] => None
            | c1 :: r2 =>
                if (c1 =? 58)%N then
                  match parse_value fuel r2 with
                  | None => None
                  | Some (v, r3) =>
                      match skip_ws r3 with
                      | [] => None
                      | c3 :: r4 =>
                          if (c3 =? 44)%N then
                            match parse_members fuel r4 with
                            | Some (ms, rest) => Some ((k, v) :: ms, rest)
                            | None => None
                            end
                          else if (c3 =? 125)%N then Some ([(k, v)], r4)
                          else None
                      end
                  end
                else None
            end
        end
      else None
  end.
Proof. reflexivity. Qed.

Lemma parse_string_chars_length (s str rest : list N) :
  parse_string_chars s = Some (str, rest) -> length rest < length s.
Proof.
  enough (Hgen : forall n s, length s <= n -> forall str rest,
             parse_string_chars s = Some (str, rest) -> length rest < length s)
    by by apply (Hgen (length s)).
  clear. induction n as [|n IH]; intros s Hn str rest H.
  - destruct s; [done|simpl in Hn; lia].
  - destruct s as [|c r]; [done|]. cbn [parse_string_chars] in H.
    simpl in Hn.
    destruct (c =? 34)%N. { injection H as <- <-. simpl. lia. }
    destruct (c =? 92)%N.
    { destruct r as [|x r1]; [done|]. destruct (x =? 117)%N.
      - destruct r1 as [|a [|b [|c' [|d r2]]]]; try done.
        destruct (hex4 a b c' d); [|done].
        destruct (parse_string_chars r2) as [[str' rest']|] eqn:Hrec; [|done].
        injection H as <- <-. apply IH in Hrec; simpl in *; lia.
      - destruct (unescape x); [|done].
        destruct (parse_string_chars r1) as [[str' rest']|] eqn:Hrec; [|done].
        injection H as <- <-. apply IH in Hrec; simpl in *; lia. }
    destruct (c <? 32)%N; [done|].
    destruct (parse_string_chars r) as [[str' rest']|] eqn:Hrec; [|done].
    injection H as <- <-. apply IH in Hrec; simpl in *; lia.
Qed.

Lemma take_digits_length (s : list N) :
  forall u r, take_digits s = (u, r) ->
    length r + Decimal.nb_digits u = length s.
Proof.
  induction s as [|c s IH]; intros u r H; simpl in H.
  - by injection H as <- <-.
  - destruct (digit c) as [d|] eqn:Hd.
    + destruct (take_digits s) as [u' r'] eqn:Hs. injection H as <- <-.
      specialize (IH _ _ eq_refl). simpl.
      unfold digit in Hd.
      repeat (case_N_eqb_in Hd; [injection Hd as <-; simpl; lia|]).
      discriminate.
    + injection H as <- <-. simpl. lia.
Qed.

Lemma parse_fraction_length (s r : list N) (u : Decimal.uint) :
  parse_fraction s = Some (u, r) -> length r <= length s.
Proof.
  destruct s as [|c s]; simpl; [by intros [= <- <-]|].
  destruct (c =? 46)%N.
  - destruct (take_digits s) as [u' r'] eqn:Hs.
    apply take_digits_length in Hs.
    destruct u'; [done|..]; intros [= <- <-]; simpl in *; lia.
  - by intros [= <- <-].
Qed.

Lemma parse_exponent_length (s r : list N) (e : Z) :
  parse_exponent s = Some (e, r) -> length r <= length s.
Proof.
  destruct s as [|c s]; simpl; [by intros [= <- <-]|].
  destruct ((c =? 101)%N || (c =? 69)%N); [|by intros [= <- <-]].
  assert (Hsign : forall (negative : bool) (s0 : list N),
             length s0 <= length s ->
             match take_digits s0 with
             | (Decimal.Nil, _) => None
             | (ue, r1) =>
                 Some (if negative then (- Z.of_uint ue)%Z else Z.of_uint ue, r1)
             end = Some (e, r) -> length r <= S (length s)).
  { intros negative s0 Hs0.
    destruct (take_digits s0) as [u' r'] eqn:Hs.
    apply take_digits_length in Hs.
    destruct u'; [done|..]; intros [= <- <-]; simpl in *; lia. }
  destruct s as [|c' s']; [by apply (Hsign false)|].
  destruct (c' =? 45)%N; [apply (Hsign true); simpl; lia|].
  destruct (c' =? 43)%N; [apply (Hsign false); simpl; lia|].
  by apply (Hsign false).
Qed.

Lemma parse_number_length (s r : list N) (v : value) :
  parse_number s = Some (v, r) -> length r < length s.
Proof.
  unfold parse_number.
  assert (Hbody : forall (negative : bool) (s0 : list N),
             length s0 <= length s ->
             (let (ui, r1) := take_digits s0 in
              if canonical ui then
                match parse_fraction r1 with
                | Some (uf, r2) =>
                    match parse_exponent r2 with
                    | Some (ex, r3) =>
                        let mag := Z.of_uint (Decimal.app ui uf) in
                        Some (VNum (if negative then (- mag)%Z else mag)
                                (ex - Z.of_nat (Decimal.nb_digits uf))%Z, r3)
                    | None => None
                    end
                | None => None
                end
              else None) = Some (v, r) -> length r < length s).
  { intros negative s0 Hs0.
    destruct (take_digits s0) as [ui r1] eqn:Hs.
    apply take_digits_length in Hs.
    destruct (canonical ui) eqn:Hcan; [|done].
    assert (1 <= Decimal.nb_digits ui) by (destruct ui; [done|..]; simpl; lia).
    destruct (parse_fraction r1) as [[uf r2]|] eqn:Hf; [|done].
    apply parse_fraction_length in Hf.
    destruct (parse_exponent r2) as [[ex r3]|] eqn:He; [|done].
    apply parse_exponent_length in He.
    intros [= <- <-]. lia. }
  destruct s as [|c s']; [by apply (Hbody false)|].
  destruct (c =? 45)%N; [|by apply (Hbody false)].
  intros H. apply (Hbody true) in H; simpl in *; lia.
Qed.

(** Every parser consumes at least one unit. *)
Lemma parse_lengths (fuel : nat) :
  (forall s v r, parse_value fuel s = Some (v, r) -> length r < length s) /\
  (forall s l r, parse_elements fuel s = Some (l, r) -> length r < length s) /\
  (forall s ms r, parse_members fuel s = Some (ms, r) -> length r < length s).
Proof.
  induction fuel as [|fuel (IHv & IHe & IHm)]; [by repeat split|].
  split; [|split].
  - intros s v r H. rewrite <- parse_value_skip_ws in H.
    pose proof (skip_ws_length s) as Hs.
    destruct (skip_ws s) as [|c r0] eqn:Hskip; [done|].
    rewrite parse_value_S in H by (by eapply skip_ws_head).
    simpl in Hs.
    destruct (c =? 123)%N.
    { pose proof (skip_ws_length r0) as Hr0.
      destruct (skip_ws r0) as [|c' r'] eqn:Hskip0; [done|]. simpl in Hr0.
      destruct (c' =? 125)%N; [injection H as <- <-; lia|].
      destruct (parse_members fuel (c' :: r')) as [[ms rest]|] eqn:Hm; [|done].
      injection H as <- <-. apply IHm in Hm. simpl in Hm. lia. }
    destruct (c =? 91)%N.
    { pose proof (skip_ws_length r0) as Hr0.
      destruct (skip_ws r0) as [|c' r'] eqn:Hskip0; [done|]. simpl in Hr0.
      destruct (c' =? 93)%N; [injection H as <- <-; lia|].
      destruct (parse_elements fuel (c' :: r')) as [[l rest]|] eqn:He; [|done].
      injection H as <- <-. apply IHe in He. simpl in He. lia. }
    destruct (c =? 34)%N.
    { destruct (parse_string_chars r0) as [[str rest]|] eqn:Hstr; [|done].
      injection H as <- <-. apply parse_string_chars_length in Hstr. lia. }
    destruct (startsWith (c :: r0) text_true);
      [injection H as <- <-; rewrite length_drop; simpl; lia|].
    destruct (startsWith (c :: r0) text_false);
      [injection H as <- <-; rewrite length_drop; simpl; lia|].
    destruct (startsWith (c :: r0) text_null);
      [injection H as <- <-; rewrite length_drop; simpl; lia|].
    apply parse_number_length in H. simpl in H. lia.
  - intros s l r H. rewrite parse_elements_S in H.
    destruct (parse_value fuel s) as [[v r1]|] eqn:Hv; [|done].
    apply IHv in Hv.
    destruct (skip_ws r1) as [|c r'] eqn:Hskip; [done|].
    apply skip_ws_cons_length in Hskip.
    destruct (c =? 44)%N.
    { destruct (parse_elements fuel r') as [[l' rest]|] eqn:He; [|done].
      injection H as <- <-. apply IHe in He. lia. }
    destruct (c =? 93)%N; [|done]. injection H as <- <-. lia.
  - intros s ms r H. rewrite parse_members_unfold in H.
    destruct (skip_ws s) as [|c r0] eqn:Hskip; [done|].
    apply skip_ws_cons_length in Hskip.
    destruct (c =? 34)%N; [|done].
    destruct (parse_string_chars r0) as [[k r1]|] eqn:Hstr; [|done].
    apply parse_string_chars_length in Hstr.
    destruct (skip_ws r1) as [|c1 r2] eqn:Hskip1; [done|].
    apply skip_ws_cons_length in Hskip1.
    destruct (c1 =? 58)%N; [|done].
    destruct (parse_value fuel r2) as [[v r3]|] eqn:Hv; [|done].
    apply IHv in Hv.
    destruct (skip_ws r3) as [|c3 r4] eqn:Hskip3; [done|].
    apply skip_ws_cons_length in Hskip3.
    destruct (c3 =? 44)%N.
    { destruct (parse_members fuel r4) as [[ms' rest]|] eqn:Hm; [|done].
      injection H as <- <-. apply IHm in Hm. lia. }
    destruct (c3 =? 125)%N; [|done]. injection H as <- <-. lia.
Qed.

(** Beyond twice the length of the input, more fuel changes nothing. *)
Lemma parse_fuel_step (fuel : nat) :
  (forall s, 2 * length s + 2 <= fuel ->
     parse_value (S fuel) s = parse_value fuel s) /\
  (forall s, 2 * length s + 3 <= fuel ->
     parse_elements (S fuel) s = parse_elements fuel s) /\
  (forall s, 2 * length s + 3 <= fuel ->
     parse_members (S fuel) s = parse_members fuel s).
Proof.
  induction fuel as [|fuel (IHv & IHe & IHm)]; [repeat split; intros; lia|].
  split; [|split].
  - intros s Hs. rewrite <- (parse_value_skip_ws (S (S fuel))),
      <- (parse_value_skip_ws (S fuel)).
    pose proof (skip_ws_length s) as Hlen.
    destruct (skip_ws s) as [|c r0] eqn:Hskip; [done|].
    rewrite !parse_value_S by (by eapply skip_ws_head).
    simpl in Hlen.
    pose proof (skip_ws_length r0) as Hr0.
    destruct (skip_ws r0) as [|c' r'] eqn:Hskip0.
    + done.
    + simpl in Hr0.
      rewrite IHe, IHm by (simpl; lia). done.
  - intros s Hs. rewrite !parse_elements_S.
    rewrite IHv by lia.
    destruct (parse_value fuel s) as [[v r1]|] eqn:Hv; [|done].
    apply (proj1 (parse_lengths fuel)) in Hv.
    destruct (skip_ws r1) as [|c r'] eqn:Hskip; [done|].
    apply skip_ws_cons_length in Hskip.
    rewrite IHe by lia. done.
  - intros s Hs. rewrite !parse_members_unfold.
    destruct (skip_ws s) as [|c r0] eqn:Hskip; [done|].
    apply skip_ws_cons_length in Hskip.
    destruct (c =? 34)%N; [|done].
    destruct (parse_string_chars r0) as [[k r1]|] eqn:Hstr; [|done].
    apply parse_string_chars_length in Hstr.
    destruct (skip_ws r1) as [|c1 r2] eqn:Hskip1; [done|].
    apply skip_ws_cons_length in Hskip1.
    destruct (c1 =? 58)%N; [|done].
    rewrite IHv by lia.
    destruct (parse_value fuel r2) as [[v r3]|] eqn:Hv; [|done].
    apply (proj1 (parse_lengths fuel)) in Hv.
    destruct (skip_ws r3) as [|c3 r4] eqn:Hskip3; [done|].
    apply skip_ws_cons_length in Hskip3.
    rewrite IHm by lia. done.
Qed.

(** With less fuel a parser that answers gives the same answer. *)
Lemma parse_fuel_mono (fuel : nat) :
  (forall s x, parse_value fuel s = Some x -> parse_value (S fuel) s = Some x) /\
  (forall s x, parse_elements fuel s = Some x ->
     parse_elements (S fuel) s = Some x) /\
  (forall s x, parse_members fuel s = Some x ->
     parse_members (S fuel) s = Some x).
Proof.
  induction fuel as [|fuel (IHv & IHe & IHm)]; [by repeat split|].
  split; [|split].
  - intros s x. rewrite <- (parse_value_skip_ws (S (S fuel))),
      <- (parse_value_skip_ws (S fuel)).
    destruct (skip_ws s) as [|c r0] eqn:Hskip; [done|].
    rewrite !parse_value_S by (by eapply skip_ws_head).
    destruct (skip_ws r0) as [|c' r'] eqn:Hskip0; [done|].
    destruct (parse_members fuel (c' :: r')) as [xm|] eqn:Hm;
      [rewrite (IHm _ _ Hm)|];
      (destruct (parse_elements fuel (c' :: r')) as [xe|] eqn:He;
       [rewrite (IHe _ _ He)|]); try done.
    + destruct (c =? 123)%N; [done|]. destruct (c =? 91)%N; [|done].
      by destruct (c' =? 93)%N.
    + destruct (c =? 123)%N; [by destruct (c' =? 125)%N|]. done.
    + destruct (c =? 123)%N; [by destruct (c' =? 125)%N|].
      destruct (c =? 91)%N; [|done]. by destruct (c' =? 93)%N.
  - intros s x. rewrite !parse_elements_S.
    destruct (parse_value fuel s) as [[v r1]|] eqn:Hv; [|done].
    rewrite (IHv _ _ Hv).
    destruct (skip_ws r1) as [|c r'] eqn:Hskip; [done|].
    destruct (parse_elements fuel r') as [xe|] eqn:He;
      [by rewrite (IHe _ _ He)|].
    by destruct (c =? 44)%N.
  - intros s x. rewrite !parse_members_unfold.
    destruct (skip_ws s) as [|c r0] eqn:Hskip; [done|].
    destruct (c =? 34)%N; [|done].
    destruct (parse_string_chars r0) as [[k r1]|] eqn:Hstr; [|done].
    destruct (skip_ws r1) as [|c1 r2] eqn:Hskip1; [done|].
    destruct (c1 =? 58)%N; [|done].
    destruct (parse_value fuel r2) as [[v r3]|] eqn:Hv; [|done].
    rewrite (IHv _ _ Hv).
    destruct (skip_ws r3) as [|c3 r4] eqn:Hskip3; [done|].
    destruct (parse_members fuel r4) as [xm|] eqn:Hm;
      [by rewrite (IHm _ _ Hm)|].
    by destruct (c3 =? 44)%N.
Qed.

(** A text that some amount of fuel reads as one value, [parse_text] reads
    as that value: where it answers [None] the text is not JSON. *)
Lemma parse_text_complete (text : list N) (fuel : nat) (v : value)
    (rest : list N) :
  parse_value fuel text = Some (v, rest) -> skip_ws rest = [] ->
  parse_text text = Some v.
Proof.
  intros Hparse Hrest. unfold parse_text.
  enough (Henough : parse_value (2 * length text + 2) text = Some (v, rest))
    by by rewrite Henough, Hrest.
  destruct (Nat.le_gt_cases fuel (2 * length text + 2)) as [Hle|Hgt].
  - induction Hle as [|m Hle IH]; [done|].
    by apply (proj1 (parse_fuel_mono m)).
  - rewrite <- Hparse. clear Hparse.
    assert (Hle : 2 * length text + 2 <= fuel) by lia. clear Hgt.
    induction Hle as [|m Hle IH]; [done|].
    by rewrite (proj1 (parse_fuel_step m)).
Qed.

(** ** The replacer and the reviver *)

Lemma tag_buffers_json_tree (v : value) :
  json_tree v = true -> tag_buffers v = v.
Proof.
  induction v as [ | b | m e | s | l IH | o IH | b ] using value_nested_ind;
    try reflexivity; cbn [json_tree tag_buffers]; intros Hjson; [| |done].
  - f_equal. rewrite <- (list_fmap_id l) at 2.
    apply list_fmap_ext. intros i x Hx. simpl.
    rewrite List.Forall_forall in IH. rewrite forallb_forall in Hjson.
    apply list_elem_of_lookup_2, list_elem_of_In in Hx. auto.
  - f_equal. rewrite <- (list_fmap_id o) at 2.
    apply list_fmap_ext. intros i [k x] Hx. simpl. f_equal.
    rewrite List.Forall_forall in IH. rewrite forallb_forall in Hjson.
    apply list_elem_of_lookup_2, list_elem_of_In in Hx.
    apply (IH _ Hx). apply (Hjson _ Hx).
Qed.

Lemma spreadable_json_tree (max_arguments : N) (v : value) :
  json_tree v = true -> spreadable max_arguments v = true.
Proof.
  induction v as [ | b | m e | s | l IH | o IH | b ] using value_nested_ind;
    try reflexivity; cbn [json_tree spreadable]; intros Hjson; [| |done].
  - rewrite forallb_forall in Hjson. rewrite List.Forall_forall in IH.
    apply forallb_forall. auto.
  - rewrite forallb_forall in Hjson. rewrite List.Forall_forall in IH.
    apply forallb_forall. auto.
Qed.

(** C6, as the code has it.  What [isArrayBuffer] recognizes are the byte
    buffers.  For a buffer that the host spreads into one call,
    [exportReplacer] returns the string made of the sentinel ['_$AB'] and of
    one code unit per byte, equal to the byte's unsigned value; for a longer
    buffer it throws; every other value it hands back as it is.  So the
    text of a value is, by the structural rules of JSON, the text of the
    value with its buffers replaced in that way, or no text at all where a
    buffer is too long; and the text of a value without buffers is the one
    the serializer writes without a replacer. *)
Theorem exportReplacer_tags_byte_buffers (max_arguments : N) :
  sentinel = [95; 36; 65; 66]%N /\
  (forall v, isArrayBuffer v = true <-> exists buf, v = VBuf buf) /\
  (forall key buf,
     (N.of_nat (length buf) <= max_arguments)%N ->
     exists str,
       exportReplacer max_arguments key (VBuf buf)
       = Some (VStr (sentinel ++ str)) /\
       length str = length buf /\
       forall i b, buf !! i = Some b ->
         str !! i = Some (Byte.to_N b) /\ (Byte.to_N b <= 255)%N) /\
  (forall key buf,
     (max_arguments < N.of_nat (length buf))%N ->
     exportReplacer max_arguments key (VBuf buf) = None) /\
  (forall key v,
     isArrayBuffer v = false -> exportReplacer max_arguments key v = Some v) /\
  (forall v,
     JSON_stringify (exportReplacer max_arguments) v =
     if spreadable max_arguments v then Some (write_json (tag_buffers v))
     else None) /\
  (forall v, json_tree v = true ->
     JSON_stringify (exportReplacer max_arguments) v
     = JSON_stringify no_replacer v).
Proof.
  split; [reflexivity|]. split; [|split; [|split; [|split; [|split]]]].
  - intros v. split.
    + destruct v; try done. by eexists.
    + by intros [buf ->].
  - intros key buf Hfit. exists (buffer_string buf).
    cbn [exportReplacer isArrayBuffer]. rewrite ab2str_eq.
    apply N.leb_le in Hfit. rewrite Hfit. split; [done|].
    rewrite buffer_string_eq. split; [apply length_fmap|].
    intros i b Hb. rewrite list_lookup_fmap, Hb. split; [done|].
    apply Byte.to_N_bounded.
  - intros key buf Hlong. cbn [exportReplacer isArrayBuffer].
    rewrite ab2str_eq. apply N.leb_gt in Hlong. by rewrite Hlong.
  - intros key v Hv. unfold exportReplacer. by rewrite Hv.
  - apply JSON_stringify_exportReplacer.
  - intros v Hv.
    by rewrite JSON_stringify_exportReplacer, JSON_stringify_no_replacer,
         spreadable_json_tree, tag_buffers_json_tree.
Qed.

(** C6, as stated, fails on a buffer longer than the host spreads (here a
    host that spreads 65536 arguments): the replacer throws. *)
Lemma exportReplacer_throws_on_long_buffer :
  exportReplacer 65536 [] (VBuf (replicate (N.to_nat 65537) x00)) = None /\
  JSON_stringify (exportReplacer 65536)
    (VObj [([98%N], VBuf (replicate (N.to_nat 65537) x00))]) = None.
Proof. split; vm_compute; reflexivity. Qed.

(** C7.  [importResolver] turns every string that starts with the sentinel
    into the buffer decoded from the rest of it and hands every other value
    back as it is; the parser applies it to every value of the text.  A
    plain string that starts with the sentinel is written as it is,
    letter for letter as a buffer of the same bytes would be, and comes back
    from the import as a buffer. *)
Theorem importResolver_decodes_every_tagged_string :
  (forall key rest,
     importResolver key (VStr (sentinel ++ rest)) = VBuf (str2ab rest)) /\
  (forall key v,
     (forall rest, v <> VStr (sentinel ++ rest)) -> importResolver key v = v) /\
  (forall text, JSON_parse text importResolver = untag_strings <$> parse_text text) /\
  (forall max_arguments rest,
     JSON_stringify (exportReplacer max_arguments) (VStr (sentinel ++ rest))
     ≫= (fun text => JSON_parse text importResolver)
     = Some (VBuf (str2ab rest))) /\
  (forall max_arguments buf str,
     ab2str max_arguments buf = Some str ->
     JSON_stringify (exportReplacer max_arguments) (VStr (sentinel ++ str))
     = JSON_stringify (exportReplacer max_arguments) (VBuf buf)).
Proof.
  split; [|split; [|split; [|split]]].
  - intros key rest. unfold importResolver. rewrite startsWith_app.
    unfold slice. change 4 with (length sentinel). by rewrite drop_app_length.
  - intros key v Hv. destruct v as [ | b | m e | s | l | o | b ]; try done.
    unfold importResolver. destruct (startsWith s sentinel) eqn:Hs; [|done].
    apply startsWith_inv in Hs. by destruct (Hv (drop (length sentinel) s)); f_equal.
  - intros text. unfold JSON_parse. destruct (parse_text text); [|done].
    simpl. by rewrite InternalizeJSONProperty_importResolver.
  - intros max_arguments rest.
    assert (Htext : JSON_stringify (exportReplacer max_arguments)
                      (VStr (sentinel ++ rest))
                    = Some (write_json (VStr (sentinel ++ rest))))
      by by rewrite JSON_stringify_exportReplacer.
    rewrite Htext. cbn [mbind option_bind].
    rewrite (JSON_parse_stringify max_arguments (VStr (sentinel ++ rest)) _
               eq_refl Htext).
    cbn [reimported]. rewrite startsWith_app.
    change 4 with (length sentinel). by rewrite drop_app_length.
  - intros max_arguments buf str Hstr.
    rewrite !JSON_stringify_exportReplacer. cbn [spreadable tag_buffers].
    rewrite ab2str_eq in Hstr.
    destruct (N.of_nat (length buf) <=? max_arguments)%N; [|done].
    by injection Hstr as <-.
Qed.

(** ** Objects *)

Lemma obj_get_None (o : list (list N * value)) (k : list N) :
  obj_get o k = None <-> k ∉ keys o.
Proof.
  unfold keys. induction o as [|[k0 v0] o IH]; simpl.
  - split; [intros _; apply not_elem_of_nil|done].
  - rewrite not_elem_of_cons. destruct (decide (k = k0)) as [->|Hne].
    + split; [done|]. by intros [? _].
    + rewrite IH. split; [done|]. by intros [_ ?].
Qed.

Lemma obj_get_Some_key (o : list (list N * value)) (k : list N) (v : value) :
  obj_get o k = Some v -> k ∈ keys o.
Proof.
  intros Hget. destruct (decide (k ∈ keys o)) as [|Hn]; [done|].
  apply obj_get_None in Hn. congruence.
Qed.

Lemma obj_get_insert (o : list (list N * value)) (k k' : list N) (v : value) :
  obj_get o k = None ->
  obj_get (obj_insert k v o) k' = if decide (k' = k) then Some v else obj_get o k'.
Proof.
  induction o as [|[k0 v0] o IH]; simpl; intros Hfresh.
  - done.
  - destruct (decide (k = k0)) as [|Hne]; [done|].
    destruct (precedes k k0); simpl.
    + destruct (decide (k' = k)); [done|]. done.
    + rewrite IH by done.
      destruct (decide (k' = k0)) as [->|]; [|done].
      by rewrite decide_False by done.
Qed.

Lemma obj_get_replace (o : list (list N * value)) (k k' : list N) (v : value) :
  is_Some (obj_get o k) ->
  obj_get (obj_replace k v o) k' = if decide (k' = k) then Some v else obj_get o k'.
Proof.
  induction o as [|[k0 v0] o IH]; simpl; intros Hsome.
  - by destruct Hsome.
  - destruct (decide (k = k0)) as [->|Hne]; simpl.
    + destruct (decide (k' = k0)); done.
    + rewrite IH by done.
      destruct (decide (k' = k0)) as [->|]; [|done].
      by rewrite decide_False by done.
Qed.

Lemma obj_get_set (o : list (list N * value)) (k k' : list N) (v : value) :
  obj_get (obj_set k v o) k' = if decide (k' = k) then Some v else obj_get o k'.
Proof.
  unfold obj_set. destruct (obj_get o k) eqn:Hget.
  - apply obj_get_replace. by rewrite Hget.
  - by apply obj_get_insert.
Qed.

Lemma keys_obj_insert (o : list (list N * value)) (k : list N) (v : value) :
  keys (obj_insert k v o) ≡ₚ k :: keys o.
Proof.
  unfold keys. induction o as [|[k0 v0] o IH]; simpl; [done|].
  destruct (precedes k k0); simpl; [done|].
  rewrite IH. apply Permutation_swap.
Qed.

Lemma keys_obj_set_fresh (o : list (list N * value)) (k : list N) (v : value) :
  obj_get o k = None -> keys (obj_set k v o) ≡ₚ k :: keys o.
Proof. unfold obj_set. intros ->. apply keys_obj_insert. Qed.

Lemma obj_get_fmap (f : value -> value) (o : list (list N * value)) (k : list N) :
  obj_get ((fun kx => (fst kx, f (snd kx))) <$> o) k = f <$> obj_get o k.
Proof.
  induction o as [|[k0 v0] o IH]; simpl; [done|].
  destruct (decide (k = k0)); done.
Qed.

Lemma obj_get_delete (o : list (list N * value)) (k k' : list N) :
  obj_get (obj_delete k o) k' = if decide (k' = k) then None else obj_get o k'.
Proof.
  induction o as [|[k0 v0] o IH]; simpl.
  - by destruct (decide (k' = k)).
  - destruct (decide (k = k0)) as [->|Hne]; simpl.
    + rewrite IH. destruct (decide (k' = k0)); done.
    + rewrite IH. destruct (decide (k' = k0)) as [->|]; [|done].
      by rewrite decide_False by done.
Qed.

(** The order in which the host lists properties survives a new one. *)
Lemma precedes_irrefl_pair (k k' : list N) :
  precedes k k' = true -> precedes k' k = false.
Proof.
  unfold precedes.
  destruct (array_index k), (array_index k'); try done.
  intros H%N.ltb_lt. apply N.ltb_ge. lia.
Qed.

Lemma precedes_trans_neg (k k1 k2 : list N) :
  precedes k k1 = true -> precedes k2 k1 = false -> precedes k2 k = false.
Proof.
  unfold precedes.
  destruct (array_index k), (array_index k1), (array_index k2); try done.
  intros H1%N.ltb_lt H2%N.ltb_ge. apply N.ltb_ge. lia.
Qed.

Lemma property_order_insert (o : list (list N * value)) (k : list N) (v : value) :
  obj_get o k = None ->
  property_order (keys o) = true ->
  property_order (keys (obj_insert k v o)) = true.
Proof.
  unfold keys. induction o as [|[k0 v0] o IH]; simpl; intros Hfresh Hord.
  - done.
  - destruct (decide (k = k0)) as [|Hne]; [done|].
    apply andb_prop in Hord as [Hall Hord].
    destruct (precedes k k0) eqn:Hprec; simpl; fold_fmap.
    + rewrite Hall, Hord. rewrite (precedes_irrefl_pair _ _ Hprec).
      rewrite bool_decide_eq_false_2 by done. simpl. rewrite andb_true_r.
      apply forallb_forall. intros k2 Hk2.
      rewrite forallb_forall in Hall. specialize (Hall k2 Hk2).
      apply andb_prop in Hall as [_ Hp2]. apply negb_true_iff in Hp2.
      rewrite (precedes_trans_neg _ _ _ Hprec Hp2). rewrite andb_true_r.
      apply negb_true_iff, bool_decide_eq_false.
      intros ->. apply obj_get_None in Hfresh. apply Hfresh.
      unfold keys. by apply list_elem_of_In.
    + rewrite IH by done. rewrite andb_true_r.
      apply forallb_forall. intros k2 Hk2.
      apply list_elem_of_In in Hk2.
      change (k2 ∈ keys (obj_insert k v o)) in Hk2.
      rewrite keys_obj_insert in Hk2. apply elem_of_cons in Hk2 as [->|Hk2].
      * rewrite Hprec. by rewrite bool_decide_eq_false_2 by done.
      * rewrite forallb_forall in Hall. apply Hall. by apply list_elem_of_In.
Qed.

Lemma property_order_set_fresh (o : list (list N * value)) (k : list N) (v : value) :
  obj_get o k = None ->
  property_order (keys o) = true ->
  property_order (keys (obj_set k v o)) = true.
Proof. unfold obj_set. intros Hfresh. rewrite Hfresh. by apply property_order_insert. Qed.

(** ** Runs of the engine *)

Lemma run_cons {St} (step : St -> engine_event -> option St) (s : St)
    (ev : engine_event) (evs : list engine_event) :
  run step s (ev :: evs) =
  match step s ev with
  | Some s' => run step s' evs
  | None => None
  end.
Proof. reflexivity. Qed.

Lemma run_app {St} (step : St -> engine_event -> option St)
    (evs1 evs2 : list engine_event) :
  forall s,
    run step s (evs1 ++ evs2) =
    match run step s evs1 with
    | Some s' => run step s' evs2
    | None => None
    end.
Proof.
  induction evs1 as [|ev evs1 IH]; intros s; [done|].
  cbn [app]. rewrite !run_cons. by destruct (step s ev).
Qed.

(** ** exportToJsonString *)

Lemma property_order_NoDup (ks : list (list N)) :
  property_order ks = true -> NoDup ks.
Proof.
  induction ks as [|k ks IH]; simpl; [constructor|].
  intros [Hall Hord]%andb_prop. constructor; [|by apply IH].
  intros Hin. rewrite forallb_forall in Hall.
  apply list_elem_of_In, Hall in Hin.
  apply andb_prop in Hin as [Hne _].
  apply negb_true_iff, bool_decide_eq_false in Hne. done.
Qed.

Lemma NoDup_subset_length {A} (l k : list A) :
  NoDup l -> (forall x, x ∈ l -> x ∈ k) -> length l <= length k.
Proof. intros Hl Hsub. apply submseteq_length. by apply NoDup_submseteq. Qed.

Lemma NoDup_subset_full {A} (l k : list A) :
  NoDup l -> (forall x, x ∈ l -> x ∈ k) -> length k <= length l ->
  forall x, x ∈ k -> x ∈ l.
Proof.
  intros Hl Hsub Hlen x Hx.
  assert (Hperm : l ≡ₚ k)
    by (apply submseteq_length_Permutation; [by apply NoDup_submseteq|done]).
  by rewrite Hperm.
Qed.

Lemma NoDup_lookup_ne {A} (l : list A) (i j : nat) (x y : A) :
  NoDup l -> l !! i = Some x -> l !! j = Some y -> i <> j -> x <> y.
Proof.
  intros Hnd Hi Hj Hij ->. apply Hij. by eapply NoDup_lookup.
Qed.

Lemma cursor_name (cursors : list (list N * cursor)) (names : list (list N))
    (i : nat) (name : list N) (c : cursor) :
  fst <$> cursors = names -> cursors !! i = Some (name, c) -> names !! i = Some name.
Proof. intros <- Hi. by rewrite list_lookup_fmap, Hi. Qed.

Lemma NoDup_subset_lt {A} (l k : list A) (y : A) :
  NoDup l -> (forall x, x ∈ l -> x ∈ k) -> y ∈ k -> y ∉ l ->
  length l < length k.
Proof.
  intros Hl Hsub Hy Hfresh.
  assert (length (y :: l) <= length k); [|simpl in *; lia].
  apply NoDup_subset_length; [by constructor|].
  intros x [->|Hx]%elem_of_cons; [done|by apply Hsub].
Qed.

(** An assignment under a fresh name creates the property, unless the name
    is [__proto__]. *)
Lemma obj_assign_fresh (o : list (list N * value)) (k : list N) (v : value) :
  obj_get o k = None ->
  obj_assign k v o = if decide (k = name_proto) then o else obj_set k v o.
Proof. unfold obj_assign, obj_set. by intros ->. Qed.

Lemma export_inv_init (max_arguments : N) (db : list (list N * list value)) :
  export_inv max_arguments db (exportToJsonString db).
Proof.
  unfold exportToJsonString.
  destruct (length (objectStoreNames db) =? 0) eqn:Hlen.
  - apply Nat.eqb_eq in Hlen. constructor; simpl.
    + done.
    + symmetry. by apply length_zero_iff_nil.
    + done.
    + done.
    + intros i name a r. by rewrite lookup_nil.
    + intros i name. by rewrite lookup_nil.
    + intros i name. by rewrite lookup_nil.
    + intros name Hin. by apply elem_of_nil in Hin.
    + rewrite Hlen. reflexivity.
  - constructor; simpl.
    + done.
    + rewrite <- list_fmap_compose. apply list_fmap_id.
    + done.
    + done.
    + intros i name a r. rewrite list_lookup_fmap.
      destruct (objectStoreNames db !! i); simpl; [|done].
      by intros [= -> <- <-].
    + intros i name. rewrite list_lookup_fmap.
      by destruct (objectStoreNames db !! i).
    + intros i name. rewrite list_lookup_fmap.
      by destruct (objectStoreNames db !! i).
    + intros name Hin. by apply elem_of_nil in Hin.
    + by rewrite Hlen.
Qed.

Lemma export_inv_keys_length (max_arguments : N)
    (db : list (list N * list value)) (s : export_state) :
  export_inv max_arguments db s ->
  length (keys (exportObject s)) <= length (objectStoreNames db).
Proof.
  intros Hinv. apply NoDup_subset_length.
  - apply property_order_NoDup, Hinv.
  - apply Hinv.
Qed.

(** While a cursor is open the export object has fewer keys than there are
    stores, and no callback has been made. *)
Lemma export_inv_open (max_arguments : N) (db : list (list N * list value))
    (s : export_state) (i : nat) (name : list N)
    (allObjects remaining : list value) :
  export_inv max_arguments db s ->
  ex_cursors s !! i = Some (name, CursorOpen allObjects remaining) ->
  length (keys (exportObject s)) < length (objectStoreNames db) /\
  ex_calls s = [].
Proof.
  intros Hinv Hi.
  destruct (exi_open _ _ _ Hinv _ _ _ _ Hi) as [Hfresh _].
  pose proof (cursor_name _ _ _ _ _ (exi_cursors _ _ _ Hinv) Hi) as Hname.
  assert (Hlt : length (keys (exportObject s)) < length (objectStoreNames db)).
  { apply (NoDup_subset_lt _ _ name).
    - apply property_order_NoDup, Hinv.
    - apply Hinv.
    - by eapply list_elem_of_lookup_2.
    - by apply obj_get_None. }
  split; [done|]. rewrite (exi_calls _ _ _ Hinv).
  destruct (Nat.eqb_spec (length (objectStoreNames db))
              (length (keys (exportObject s)))); [lia|done].
Qed.

(** A success keeps the export as described. *)
Lemma export_inv_step (max_arguments : N) (db : list (list N * list value))
    (s s' : export_state) (i : nat) :
  NoDup (objectStoreNames db) ->
  export_inv max_arguments db s ->
  export_step max_arguments s (Success i) = Some s' ->
  export_inv max_arguments db s'.
Proof.
  intros Hnd Hinv Hstep. cbn [export_step] in Hstep.
  rewrite (exi_live _ _ _ Hinv) in Hstep.
  destruct (ex_cursors s !! i) as [[name [allObjects [|r rest]| |]]|] eqn:Hi;
    try discriminate; injection Hstep as <-.
  - (* the cursor has reported its end *)
    destruct (exi_open _ _ _ Hinv _ _ _ _ Hi) as [Hfresh Hrecords].
    destruct (export_inv_open _ _ _ _ _ _ _ Hinv Hi) as [Hlt Hcalls].
    rewrite app_nil_r in Hrecords.
    pose proof (cursor_name _ _ _ _ _ (exi_cursors _ _ _ Hinv) Hi) as Hname.
    assert (Hcursors : fst <$> <[i := (name, CursorDone)]> (ex_cursors s)
                       = objectStoreNames db).
    { rewrite list_fmap_insert. simpl. rewrite list_insert_id; [apply Hinv|].
      by rewrite list_lookup_fmap, Hi. }
    assert (Hother : forall j name' c,
               j <> i -> ex_cursors s !! j = Some (name', c) -> name' <> name).
    { intros j name' c Hji Hj.
      pose proof (cursor_name _ _ _ _ _ (exi_cursors _ _ _ Hinv) Hj) as Hname'.
      eapply NoDup_lookup_ne; [exact Hnd|exact Hname'|exact Hname|done]. }
    rewrite (obj_assign_fresh _ _ _ Hfresh).
    destruct (decide (name = name_proto)) as [Hproto|Hproto].
    + (* under the name __proto__ nothing is installed *)
      constructor; cbn [ex_names exportObject ex_cursors ex_aborted ex_calls];
        try apply Hinv; try done.
      * intros j name' a r Hj.
        destruct (decide (j = i)) as [->|Hji].
        { rewrite list_lookup_insert_eq in Hj by (by eapply lookup_lt_Some).
          discriminate. }
        rewrite list_lookup_insert_ne in Hj by done. by eapply Hinv.
      * intros j name' Hj.
        destruct (decide (j = i)) as [->|Hji].
        { rewrite list_lookup_insert_eq in Hj by (by eapply lookup_lt_Some).
          injection Hj as <-. by rewrite decide_True. }
        rewrite list_lookup_insert_ne in Hj by done. by eapply Hinv.
      * intros j name' Hj.
        destruct (decide (j = i)) as [->|Hji].
        { rewrite list_lookup_insert_eq in Hj by (by eapply lookup_lt_Some).
          discriminate. }
        rewrite list_lookup_insert_ne in Hj by done.
        by eapply (exi_failed _ _ _ Hinv).
      * rewrite (exi_names _ _ _ Hinv), Hcalls.
        by destruct (Nat.eqb_spec (length (objectStoreNames db))
                       (length (keys (exportObject s)))); [lia|].
    + assert (Hkeys : keys (obj_set name (VArr allObjects) (exportObject s))
                      ≡ₚ name :: keys (exportObject s))
        by by apply keys_obj_set_fresh.
      assert (Hinv' : forall name',
                 name' ∈ keys (obj_set name (VArr allObjects) (exportObject s)) ->
                 name' ∈ objectStoreNames db).
      { intros name'. rewrite Hkeys. intros [->|Hin]%elem_of_cons.
        - by eapply list_elem_of_lookup_2.
        - by apply Hinv. }
      constructor; cbn [ex_names exportObject ex_cursors ex_aborted ex_calls].
      * apply Hinv.
      * done.
      * done.
      * apply property_order_set_fresh; [done|apply Hinv].
      * intros j name' a r Hj.
        destruct (decide (j = i)) as [->|Hji].
        { rewrite list_lookup_insert_eq in Hj by (by eapply lookup_lt_Some).
          discriminate. }
        rewrite list_lookup_insert_ne in Hj by done.
        rewrite obj_get_set, decide_False by by eapply Hother.
        by eapply Hinv.
      * intros j name' Hj.
        destruct (decide (j = i)) as [->|Hji].
        { rewrite list_lookup_insert_eq in Hj by (by eapply lookup_lt_Some).
          injection Hj as <-. rewrite obj_get_set, decide_True by done.
          by rewrite decide_False, Hrecords. }
        rewrite list_lookup_insert_ne in Hj by done.
        rewrite obj_get_set, decide_False by by eapply Hother.
        by eapply Hinv.
      * intros j name' Hj.
        destruct (decide (j = i)) as [->|Hji].
        { rewrite list_lookup_insert_eq in Hj by (by eapply lookup_lt_Some).
          discriminate. }
        rewrite list_lookup_insert_ne in Hj by done.
        by eapply (exi_failed _ _ _ Hinv).
      * done.
      * rewrite (exi_names _ _ _ Hinv), Hcalls.
        by destruct (Nat.eqb_spec (length (objectStoreNames db))
                       (length (keys (obj_set name (VArr allObjects)
                                        (exportObject s))))).
  - (* the cursor is at a record *)
    destruct (exi_open _ _ _ Hinv _ _ _ _ Hi) as [Hfresh Hrecords].
    constructor; cbn [ex_names exportObject ex_cursors ex_aborted ex_calls];
      try apply Hinv; try done.
    + rewrite list_fmap_insert. simpl. rewrite list_insert_id; [apply Hinv|].
      by rewrite list_lookup_fmap, Hi.
    + intros j name' a r' Hj.
      destruct (decide (j = i)) as [->|Hji].
      { rewrite list_lookup_insert_eq in Hj by (by eapply lookup_lt_Some).
        injection Hj as <- <- <-. by rewrite <- app_assoc. }
      rewrite list_lookup_insert_ne in Hj by done. by eapply Hinv.
    + intros j name' Hj.
      destruct (decide (j = i)) as [->|Hji].
      { rewrite list_lookup_insert_eq in Hj by (by eapply lookup_lt_Some).
        discriminate. }
      rewrite list_lookup_insert_ne in Hj by done. by eapply Hinv.
    + intros j name' Hj.
      destruct (decide (j = i)) as [->|Hji].
      { rewrite list_lookup_insert_eq in Hj by (by eapply lookup_lt_Some).
        discriminate. }
      rewrite list_lookup_insert_ne in Hj by done.
      by eapply (exi_failed _ _ _ Hinv).
Qed.

Lemma export_inv_run (max_arguments : N) (db : list (list N * list value))
    (evs : list engine_event) :
  NoDup (objectStoreNames db) ->
  forall s s',
    export_inv max_arguments db s ->
    forallb is_success evs = true ->
    run (export_step max_arguments) s evs = Some s' ->
    export_inv max_arguments db s'.
Proof.
  intros Hnd. induction evs as [|[i|i e] evs IH]; intros s s' Hinv Hok Hrun.
  - by injection Hrun as <-.
  - rewrite run_cons in Hrun. cbn [forallb is_success andb] in Hok.
    destruct (export_step max_arguments s (Success i)) as [s1|] eqn:Hstep;
      [|done].
    eapply IH; [|done|done]. by eapply export_inv_step.
  - done.
Qed.

Lemma store_records_at (db : list (list N * list value)) (i : nat)
    (name : list N) (records : list value) :
  NoDup (objectStoreNames db) -> db !! i = Some (name, records) ->
  store_records db name = records.
Proof.
  unfold objectStoreNames.
  revert i. induction db as [|[n rs] db IH]; intros i Hnd Hi; [done|].
  rewrite fmap_cons in Hnd. apply list.NoDup_cons in Hnd as [Hn Hnd].
  destruct i as [|i]; simpl in *.
  - injection Hi as -> ->. by rewrite decide_True.
  - rewrite decide_False; [by apply (IH i)|].
    intros ->. apply Hn. apply list_elem_of_fmap. exists (n, records).
    split; [done|]. by eapply list_elem_of_lookup_2.
Qed.

Lemma store_records_elem (db : list (list N * list value)) (name : list N)
    (r : value) :
  r ∈ store_records db name ->
  exists records, (name, records) ∈ db /\ r ∈ records.
Proof.
  induction db as [|[n rs] db IH]; simpl.
  - by intros ?%elem_of_nil.
  - destruct (decide (name = n)) as [->|Hne].
    + intros Hr. exists rs. split; [apply list_elem_of_here|done].
    + intros Hr. destruct (IH Hr) as (records & Hin & Hr').
      exists records. split; [by apply list_elem_of_further|done].
Qed.

Lemma obj_get_elem (o : list (list N * value)) (k : list N) (v : value) :
  NoDup (keys o) -> (k, v) ∈ o -> obj_get o k = Some v.
Proof.
  unfold keys. induction o as [|[k0 v0] o IH]; intros Hnd Hin.
  - by apply elem_of_nil in Hin.
  - rewrite fmap_cons in Hnd. apply list.NoDup_cons in Hnd as [Hk Hnd].
    simpl. apply elem_of_cons in Hin as [[= -> ->]|Hin].
    + by rewrite decide_True.
    + rewrite decide_False; [by apply IH|].
      intros ->. apply Hk. apply list_elem_of_fmap. by exists (k0, v).
Qed.

Lemma records_Forall (P : value -> Prop) (db : list (list N * list value)) :
  Forall (fun st => Forall P (snd st)) db ->
  forall name records r, (name, records) ∈ db -> r ∈ records -> P r.
Proof.
  intros Hall name records r Hin Hr.
  rewrite List.Forall_forall in Hall.
  apply list_elem_of_In, Hall in Hin. simpl in Hin.
  rewrite List.Forall_forall in Hin. by apply Hin, list_elem_of_In.
Qed.

Lemma obj_get_Some_elem (o : list (list N * value)) (k : list N) (v : value) :
  obj_get o k = Some v -> (k, v) ∈ o.
Proof.
  induction o as [|[k0 v0] o IH]; [done|]. cbn [obj_get].
  destruct (decide (k = k0)) as [->|Hne].
  - intros [= ->]. apply list_elem_of_here.
  - intros Hget. by apply list_elem_of_further, IH.
Qed.

Lemma export_settled_closed (s : export_state) (i : nat) (name : list N)
    (c : cursor) :
  export_settled s = true -> ex_cursors s !! i = Some (name, c) ->
  cursor_is_open (name, c) = false.
Proof.
  unfold export_settled. rewrite forallb_forall. intros Hall Hi.
  apply list_elem_of_lookup_2, list_elem_of_In, Hall in Hi.
  by apply negb_true_iff in Hi.
Qed.

Lemma forallb_existsb_negb {A} (f : A -> bool) (l : list A) :
  forallb (fun x => negb (f x)) l = negb (existsb f l).
Proof.
  induction l as [|x l IH]; [done|]. simpl. rewrite IH. by destruct (f x).
Qed.

(** Once no cursor is open the engine has nothing more to deliver. *)
Lemma export_settled_stuck (max_arguments : N) (s : export_state)
    (ev : engine_event) :
  export_settled s = true -> export_step max_arguments s ev = None.
Proof.
  intros Hset. destruct ev as [i|i e]; cbn [export_step].
  - destruct (ex_aborted s); [done|].
    destruct (ex_cursors s !! i) as [[name c]|] eqn:Hi; [|done].
    pose proof (export_settled_closed _ _ _ _ Hset Hi). by destruct c.
  - destruct (ex_cursors s !! i) as [[name c]|] eqn:Hi; [|done].
    pose proof (export_settled_closed _ _ _ _ Hset Hi). by destruct c.
Qed.

Lemma export_inv_document (max_arguments : N) (db : list (list N * list value))
    (s : export_state) :
  export_inv max_arguments db s -> export_settled s = true ->
  forall name, name ∈ objectStoreNames db ->
    obj_get (exportObject s) name =
    if decide (name = name_proto) then None
    else Some (VArr (store_records db name)).
Proof.
  intros Hinv Hset name Hin.
  apply list_elem_of_lookup_1 in Hin as [i Hi].
  rewrite <- (exi_cursors _ _ _ Hinv), list_lookup_fmap in Hi.
  destruct (ex_cursors s !! i) as [[name' c]|] eqn:Hc; [|done].
  injection Hi as ->.
  pose proof (export_settled_closed _ _ _ _ Hset Hc) as Hclosed.
  destruct c as [| |]; [done| |].
  - by eapply Hinv.
  - by destruct (exi_failed _ _ _ Hinv _ _ Hc).
Qed.

Lemma export_inv_records (max_arguments : N) (db : list (list N * list value))
    (s : export_state) (name : list N) :
  export_inv max_arguments db s -> export_settled s = true ->
  name ∈ objectStoreNames db -> name <> name_proto ->
  obj_get (exportObject s) name = Some (VArr (store_records db name)).
Proof.
  intros Hinv Hset Hin Hne.
  by rewrite (export_inv_document _ _ _ Hinv Hset _ Hin), decide_False.
Qed.

(** The export object has a key for every store exactly when every cursor
    is done and no store is named [__proto__]. *)
Lemma export_inv_settled (max_arguments : N) (db : list (list N * list value))
    (s : export_state) :
  NoDup (objectStoreNames db) -> export_inv max_arguments db s ->
  length (objectStoreNames db) = length (keys (exportObject s))
  <-> export_settled s = true /\ name_proto ∉ objectStoreNames db.
Proof.
  intros Hnd Hinv. split.
  - intros Hlen.
    assert (Hfull : forall name,
               name ∈ objectStoreNames db -> name ∈ keys (exportObject s)).
    { apply NoDup_subset_full; [|apply Hinv|lia].
      apply property_order_NoDup, Hinv. }
    assert (Hset : export_settled s = true).
    { unfold export_settled. apply forallb_forall.
      intros [name [allObjects remaining| |]] Hin; [|done|done]. exfalso.
      apply list_elem_of_In, list_elem_of_lookup_1 in Hin as [i Hi].
      destruct (exi_open _ _ _ Hinv _ _ _ _ Hi) as [Hfresh _].
      apply obj_get_None in Hfresh. apply Hfresh, Hfull.
      eapply list_elem_of_lookup_2.
      eapply cursor_name; [apply Hinv|exact Hi]. }
    split; [done|]. intros Hproto.
    pose proof (Hfull _ Hproto) as Hkey. apply obj_get_None in Hkey; [done|].
    by rewrite (export_inv_document _ _ _ Hinv Hset _ Hproto), decide_True.
  - intros [Hset Hproto].
    apply Nat.le_antisymm; [|by eapply export_inv_keys_length].
    apply NoDup_subset_length; [done|].
    intros name Hin. eapply obj_get_Some_key.
    eapply export_inv_records; [done|done|done|]. by intros ->.
Qed.

(** Every entry of the export object is a store with its records. *)
Lemma export_inv_entries (max_arguments : N) (db : list (list N * list value))
    (s : export_state) :
  export_inv max_arguments db s ->
  forall k v, (k, v) ∈ exportObject s -> v = VArr (store_records db k).
Proof.
  intros Hinv k v Hin.
  assert (Hget : obj_get (exportObject s) k = Some v).
  { apply obj_get_elem; [|done]. apply property_order_NoDup, Hinv. }
  assert (Hk : k ∈ objectStoreNames db).
  { apply Hinv. by eapply obj_get_Some_key. }
  apply list_elem_of_lookup_1 in Hk as [i Hi].
  rewrite <- (exi_cursors _ _ _ Hinv), list_lookup_fmap in Hi.
  destruct (ex_cursors s !! i) as [[name' c]|] eqn:Hc; [|done].
  injection Hi as ->. destruct c as [allObjects remaining| |].
  - destruct (exi_open _ _ _ Hinv _ _ _ _ Hc) as [Hfresh _]. congruence.
  - rewrite (exi_done _ _ _ Hinv _ _ Hc) in Hget.
    destruct (decide (k = name_proto)); congruence.
  - by destruct (exi_failed _ _ _ Hinv _ _ Hc).
Qed.

(** The export object, as a value, is well formed when the records are, and
    can be written when the host spreads every buffer of the records. *)
Lemma export_inv_well_formed (max_arguments : N)
    (db : list (list N * list value)) (s : export_state) :
  export_inv max_arguments db s ->
  (forall name records r,
     (name, records) ∈ db -> r ∈ records -> well_formed r = true) ->
  well_formed (VObj (exportObject s)) = true.
Proof.
  intros Hinv Hwf. cbn [well_formed].
  change (fst <$> exportObject s) with (keys (exportObject s)).
  rewrite (exi_order _ _ _ Hinv). simpl.
  apply forallb_forall. intros [k v] Hin%list_elem_of_In.
  rewrite (export_inv_entries _ _ _ Hinv _ _ Hin). simpl.
  apply forallb_forall. intros r Hr%list_elem_of_In.
  apply store_records_elem in Hr as (records & Hrecords & Hr).
  by eapply Hwf.
Qed.

Lemma export_inv_spreadable (max_arguments : N)
    (db : list (list N * list value)) (s : export_state) :
  export_inv max_arguments db s ->
  (forall name records r,
     (name, records) ∈ db -> r ∈ records -> spreadable max_arguments r = true) ->
  spreadable max_arguments (VObj (exportObject s)) = true.
Proof.
  intros Hinv Hfit. cbn [spreadable].
  apply forallb_forall. intros [k v] Hin%list_elem_of_In.
  rewrite (export_inv_entries _ _ _ Hinv _ _ Hin). simpl.
  apply forallb_forall. intros r Hr%list_elem_of_In.
  apply store_records_elem in Hr as (records & Hrecords & Hr).
  by eapply Hfit.
Qed.

Lemma export_inv_not_spreadable (max_arguments : N)
    (db : list (list N * list value)) (s : export_state)
    (name : list N) (records : list value) (r : value) :
  NoDup (objectStoreNames db) ->
  export_inv max_arguments db s -> export_settled s = true ->
  name_proto ∉ objectStoreNames db ->
  (name, records) ∈ db -> r ∈ records -> spreadable max_arguments r = false ->
  spreadable max_arguments (VObj (exportObject s)) = false.
Proof.
  intros Hnd Hinv Hset Hproto Hin Hr Hlong.
  apply list_elem_of_lookup_1 in Hin as [i Hi].
  assert (Hname : name ∈ objectStoreNames db).
  { unfold objectStoreNames. apply list_elem_of_fmap. exists (name, records).
    split; [done|]. by eapply list_elem_of_lookup_2. }
  assert (Hget : obj_get (exportObject s) name = Some (VArr records)).
  { rewrite <- (store_records_at db i name records Hnd Hi).
    eapply export_inv_records; [done|done|done|]. by intros ->. }
  apply obj_get_Some_elem in Hget.
  destruct (spreadable max_arguments (VObj (exportObject s))) eqn:Hs; [|done].
  cbn [spreadable] in Hs. rewrite forallb_forall in Hs.
  apply list_elem_of_In, Hs in Hget. cbn [snd spreadable] in Hget.
  rewrite forallb_forall in Hget.
  apply list_elem_of_In, Hget in Hr. congruence.
Qed.

(** An export that has handed over a text has all its cursors done, has no
    store named [__proto__], and the text is that of its export object. *)
Lemma export_call_text (max_arguments : N) (db : list (list N * list value))
    (s : export_state) (text : list N) :
  NoDup (objectStoreNames db) -> export_inv max_arguments db s ->
  ex_calls s = [(None, Some text)] ->
  export_settled s = true /\
  (name_proto ∉ objectStoreNames db) /\
  JSON_stringify (exportReplacer max_arguments) (VObj (exportObject s))
  = Some text.
Proof.
  intros Hnd Hinv Hcalls. rewrite (exi_calls _ _ _ Hinv) in Hcalls.
  destruct (Nat.eqb_spec (length (objectStoreNames db))
              (length (keys (exportObject s)))) as [Hlen|]; [|done].
  apply (export_inv_settled _ _ _ Hnd Hinv) in Hlen as [Hset Hproto].
  split; [done|]. split; [done|].
  unfold export_call in Hcalls.
  destruct (JSON_stringify (exportReplacer max_arguments)
              (VObj (exportObject s))) as [t|]; [|done].
  by injection Hcalls as <-.
Qed.

(** Where a store is named [__proto__], or a record holds a buffer longer
    than the host spreads, an export never calls back. *)
Lemma export_inv_never (max_arguments : N) (db : list (list N * list value))
    (s : export_state) :
  NoDup (objectStoreNames db) -> export_inv max_arguments db s ->
  name_proto ∈ objectStoreNames db \/
  (exists name records r,
     (name, records) ∈ db /\ r ∈ records /\
     spreadable max_arguments r = false) ->
  ex_calls s = [].
Proof.
  intros Hnd Hinv Hbad. rewrite (exi_calls _ _ _ Hinv).
  destruct (Nat.eqb_spec (length (objectStoreNames db))
              (length (keys (exportObject s)))) as [He|He]; [|done].
  apply (export_inv_settled _ _ _ Hnd Hinv) in He as [Hset Hproto].
  destruct Hbad as [Hin|(name & records & r & Hin & Hr & Hlong)]; [done|].
  unfold export_call.
  rewrite JSON_stringify_exportReplacer.
  by rewrite (export_inv_not_spreadable _ _ _ _ _ _ Hnd Hinv Hset Hproto
                Hin Hr Hlong).
Qed.

(** A store [a] of one record: two events and its cursor is done. *)
Lemma export_one_record (max_arguments : N) (r : value) :
  exists s,
    run (export_step max_arguments) (exportToJsonString [([97%N], [r])])
      [Success 0; Success 0] = Some s /\
    export_settled s = true.
Proof. eexists. split; [vm_compute; reflexivity|reflexivity]. Qed.

(** C3, as the code has it.  Whatever the order in which the cursors of the
    stores report, and at every moment of it: the callback has been made
    when the export object came to have as many keys as the database has
    stores, and not before; that is when the last cursor is done, unless a
    store is named [__proto__], for which no key is ever installed.  Once
    every cursor is done nothing more is delivered, and the object holds
    every other store's records under the store's name, the same whatever
    the order was.  Where no store is named [__proto__] and the host spreads
    every buffer of the records, the callback is made exactly once, with the
    text of the export object, at that moment; where a store is named
    [__proto__], or a record holds a buffer longer than the host spreads,
    the callback is never made. *)
Theorem exportToJsonString_calls_back_once_when_complete
    (max_arguments : N) (db : list (list N * list value))
    (evs : list engine_event) (s : export_state) :
  NoDup (objectStoreNames db) ->
  forallb is_success evs = true ->
  run (export_step max_arguments) (exportToJsonString db) evs = Some s ->
  ex_calls s =
    (if (length (objectStoreNames db) =? length (keys (exportObject s)))%nat
     then export_call max_arguments (exportObject s) else []) /\
  (length (objectStoreNames db) = length (keys (exportObject s))
   <-> export_settled s = true /\ name_proto ∉ objectStoreNames db) /\
  (export_settled s = true ->
   (forall ev, export_step max_arguments s ev = None) /\
   (forall name, name ∈ objectStoreNames db -> name <> name_proto ->
      obj_get (exportObject s) name = Some (VArr (store_records db name))) /\
   (forall evs' s',
      forallb is_success evs' = true ->
      run (export_step max_arguments) (exportToJsonString db) evs' = Some s' ->
      export_settled s' = true ->
      forall name,
        obj_get (exportObject s') name = obj_get (exportObject s) name)) /\
  (name_proto ∉ objectStoreNames db ->
   (forall name records r,
      (name, records) ∈ db -> r ∈ records ->
      spreadable max_arguments r = true) ->
   exists text,
     JSON_stringify (exportReplacer max_arguments) (VObj (exportObject s))
     = Some text /\
     ex_calls s = if export_settled s then [(None, Some text)] else []) /\
  (name_proto ∈ objectStoreNames db \/
   (exists name records r,
      (name, records) ∈ db /\ r ∈ records /\
      spreadable max_arguments r = false) ->
   ex_calls s = []).
Proof.
  intros Hnd Hok Hrun.
  assert (Hinv : export_inv max_arguments db s)
    by (eapply export_inv_run; [done|apply export_inv_init|done|done]).
  pose proof (export_inv_settled _ _ _ Hnd Hinv) as Hlen.
  split; [apply Hinv|]. split; [done|]. split; [|split].
  - intros Hset. split; [|split].
    + intros ev. by apply export_settled_stuck.
    + intros name Hin Hne. by eapply export_inv_records.
    + intros evs' s' Hok' Hrun' Hset' name.
      assert (Hinv' : export_inv max_arguments db s')
        by (eapply export_inv_run; [done|apply export_inv_init|done|done]).
      destruct (decide (name ∈ objectStoreNames db)) as [Hin|Hout].
      * by rewrite (export_inv_document _ _ _ Hinv Hset _ Hin),
             (export_inv_document _ _ _ Hinv' Hset' _ Hin).
      * assert (Hnone : forall s0, export_inv max_arguments db s0 ->
                          obj_get (exportObject s0) name = None).
        { intros s0 H0. apply obj_get_None. intros Hk. apply Hout.
          by apply (exi_keys _ _ _ H0). }
        by rewrite !Hnone.
  - intros Hproto Hfit.
    pose proof (export_inv_spreadable _ _ _ Hinv Hfit) as Hs.
    exists (write_json (tag_buffers (VObj (exportObject s)))).
    assert (Htext : JSON_stringify (exportReplacer max_arguments)
                      (VObj (exportObject s))
                    = Some (write_json (tag_buffers (VObj (exportObject s)))))
      by by rewrite JSON_stringify_exportReplacer, Hs.
    split; [done|]. rewrite (exi_calls _ _ _ Hinv).
    unfold export_call. rewrite Htext. cbn [call_with_text app].
    destruct (Nat.eqb_spec (length (objectStoreNames db))
                (length (keys (exportObject s)))) as [He|He].
    + apply Hlen in He as [-> _]. done.
    + destruct (export_settled s) eqn:Hset; [|done].
      destruct He. by apply Hlen.
  - by apply export_inv_never.
Qed.

Lemma exportToJsonString_calls_back_once_when_complete_witness :
  let db := [([97%N], [VNum 1 0]); ([98%N], [])] in
  exists s text,
    run (export_step 65536) (exportToJsonString db)
      [Success 1; Success 0; Success 0]
    = Some s /\
    ex_calls s = [(None, Some text)] /\
    obj_get (exportObject s) [97%N] = Some (VArr [VNum 1 0]).
Proof.
  intros db.
  assert (Hrun : exists s,
             run (export_step 65536) (exportToJsonString db)
               [Success 1; Success 0; Success 0] = Some s /\
             export_settled s = true).
  { eexists. split; vm_compute; reflexivity. }
  destruct Hrun as (s & Hrun & Hset).
  destruct (exportToJsonString_calls_back_once_when_complete 65536 db
              [Success 1; Success 0; Success 0] s
              ltac:(apply (bool_decide_unpack _); vm_compute; exact I)
              eq_refl Hrun) as (_ & _ & Hdoc & Honce & _).
  destruct Honce as (text & _ & Hcalls).
  { apply (bool_decide_unpack _). vm_compute. exact I. }
  { apply records_Forall. repeat constructor. }
  rewrite Hset in Hcalls.
  exists s, text. split; [exact Hrun|]. split; [exact Hcalls|].
  destruct (Hdoc Hset) as (_ & Hrecords & _).
  apply (Hrecords [97%N]); [apply list_elem_of_here|discriminate].
Defined.

(** C3, as stated, fails on a database with a store named [__proto__]: its
    cursor ends, no key is installed, and the callback is never made. *)
Lemma exportToJsonString_proto_store_never_calls_back :
  let db := [(name_proto, [VNum 1 0])] in
  exists s,
    run (export_step 65536) (exportToJsonString db) [Success 0; Success 0]
    = Some s /\
    export_settled s = true /\
    exportObject s = [] /\
    ex_calls s = [] /\
    forall ev, export_step 65536 s ev = None.
Proof.
  intros db. eexists. split; [vm_compute; reflexivity|].
  split; [reflexivity|]. split; [reflexivity|]. split; [reflexivity|].
  intros ev. by apply export_settled_stuck.
Qed.

(** C3, as stated, fails on a record that holds a buffer longer than the
    host spreads (here 65537 bytes on a host that spreads 65536 arguments):
    the handler of the last cursor throws while it writes the text, and the
    callback is never made. *)
Lemma exportToJsonString_long_buffer_never_calls_back :
  let db := [([97%N], [VBuf (replicate (N.to_nat 65537) x00)])] in
  exists s,
    run (export_step 65536) (exportToJsonString db) [Success 0; Success 0]
    = Some s /\
    export_settled s = true /\
    ex_calls s = [] /\
    forall ev, export_step 65536 s ev = None.
Proof.
  intros db.
  destruct (export_one_record 65536 (VBuf (replicate (N.to_nat 65537) x00)))
    as (s & Hrun & Hset).
  assert (Hnd : NoDup (objectStoreNames db))
    by (apply (bool_decide_unpack _); vm_compute; exact I).
  exists s. split; [done|]. split; [done|]. split.
  - apply (export_inv_never 65536 db); [done| |].
    + exact (export_inv_run 65536 db [Success 0; Success 0] Hnd _ s
               (export_inv_init 65536 db) eq_refl Hrun).
    + right. exists [97%N], [VBuf (replicate (N.to_nat 65537) x00)],
        (VBuf (replicate (N.to_nat 65537) x00)).
      split; [apply list_elem_of_here|]. split; [apply list_elem_of_here|].
      cbn [spreadable]. by rewrite length_replicate, N2Nat.id.
  - intros ev. by apply export_settled_stuck.
Qed.

(** The text lists the stores in the order in which the host enumerates
    the keys of the export object: with stores [a] and [b], both empty, in
    the order their cursors ended. *)
Lemma exportToJsonString_text_follows_completion_order :
  let db := [([97%N], []); ([98%N], [])] in
  (ex_calls <$> run (export_step 65536) (exportToJsonString db)
                  [Success 0; Success 1])
  = Some [(None, Some [123;34;97;34;58;91;93;44;34;98;34;58;91;93;125]%N)] /\
  (ex_calls <$> run (export_step 65536) (exportToJsonString db)
                  [Success 1; Success 0])
  = Some [(None, Some [123;34;98;34;58;91;93;44;34;97;34;58;91;93;125]%N)].
Proof. by vm_compute. Qed.

(** The scenario of stores [a] (one record, [{id: 1, v: "x"}]) and [b]
    (empty): where the cursor of [a] ends first the text is
    [{"a":[{"id":1,"v":"x"}],"b":[]}]; where the requests are answered in the
    order they were made, the cursor of [b] ends first and [b] comes first. *)
Lemma exportToJsonString_scenario :
  let record := VObj [([105; 100]%N, VNum 1 0); ([118%N], VStr [120%N])] in
  let db := [([97%N], [record]); ([98%N], [])] in
  (ex_calls <$> run (export_step 65536) (exportToJsonString db)
                  [Success 0; Success 0; Success 1])
  = Some [(None, Some [123;34;97;34;58;91;123;34;105;100;34;58;49;44;34;118;
                       34;58;34;120;34;125;93;44;34;98;34;58;91;93;125]%N)] /\
  (ex_calls <$> run (export_step 65536) (exportToJsonString db)
                  [Success 0; Success 1; Success 0])
  = Some [(None, Some [123;34;98;34;58;91;93;44;34;97;34;58;91;123;34;105;
                       100;34;58;49;44;34;118;34;58;34;120;34;125;93;125]%N)].
Proof. by vm_compute. Qed.
(** ** Errors *)

Lemma errors_of_cons (ev : engine_event) (evs : list engine_event) :
  errors_of (ev :: evs) =
  match ev with
  | Success _ => errors_of evs
  | Failure _ e => e :: errors_of evs
  end.
Proof. by destruct ev. Qed.

(** What every one of the three operations does with the error events: an
    error aborts, after an abort nothing succeeds, and each error event
    makes one call. *)
Section Abort.
Context {St C : Type}.
Variable step : St -> engine_event -> option St.
Variable aborted : St -> bool.
Variable calls : St -> list C.
Variable error_call : error_event -> C.
Hypothesis step_failure : forall s i e s',
  step s (Failure i e) = Some s' ->
  aborted s' = true /\ calls s' = calls s ++ [error_call e].
Hypothesis step_success : forall s i s',
  step s (Success i) = Some s' -> aborted s = false.

Lemma run_aborted (evs : list engine_event) :
  forall s s',
    aborted s = true -> run step s evs = Some s' ->
    forallb (fun ev => negb (is_success ev)) evs = true /\
    calls s' = calls s ++ (error_call <$> errors_of evs).
Proof.
  induction evs as [|ev evs IH]; intros s s' Habort Hrun.
  - injection Hrun as <-. by rewrite app_nil_r.
  - rewrite run_cons in Hrun.
    destruct (step s ev) as [sa|] eqn:Hstep; [|done].
    destruct ev as [i|i e].
    + apply step_success in Hstep. congruence.
    + destruct (step_failure _ _ _ _ Hstep) as [Ha Hc].
      destruct (IH _ _ Ha Hrun) as [Hall Hcalls].
      split; [done|].
      rewrite Hcalls, Hc, errors_of_cons, fmap_cons, <- app_assoc. done.
Qed.

(** A run in which an error is delivered: successes, then the first
    error, and from there one call for each error event. *)
Lemma run_errors (evs : list engine_event) :
  forall s s',
    run step s evs = Some s' -> forallb is_success evs = false ->
    exists pre i e s1 s2,
      forallb is_success pre = true /\
      run step s pre = Some s1 /\
      step s1 (Failure i e) = Some s2 /\
      calls s' = calls s1 ++ (error_call <$> errors_of evs).
Proof.
  induction evs as [|ev evs IH]; intros s s' Hrun Hbad; [done|].
  rewrite run_cons in Hrun.
  destruct (step s ev) as [sa|] eqn:Hstep; [|done].
  destruct ev as [j|i e].
  - cbn [forallb is_success andb] in Hbad.
    destruct (IH _ _ Hrun Hbad)
      as (pre & i & e & s1 & s2 & Hok & Hpre & Hfail & Hcalls).
    exists (Success j :: pre), i, e, s1, s2.
    split; [done|]. split; [by rewrite run_cons, Hstep|]. done.
  - destruct (step_failure _ _ _ _ Hstep) as [Ha Hc].
    destruct (run_aborted _ _ _ Ha Hrun) as [_ Hcalls].
    exists [], i, e, s, sa. split; [done|]. split; [done|]. split; [done|].
    rewrite Hcalls, Hc, errors_of_cons, fmap_cons, <- app_assoc. done.
Qed.

(** A run is successes followed by errors. *)
Lemma run_shape (evs : list engine_event) :
  forall s s',
    run step s evs = Some s' ->
    exists pre post,
      evs = pre ++ post /\
      forallb is_success pre = true /\
      forallb (fun ev => negb (is_success ev)) post = true.
Proof.
  induction evs as [|ev evs IH]; intros s s' Hrun.
  - by exists [], [].
  - rewrite run_cons in Hrun.
    destruct (step s ev) as [sa|] eqn:Hstep; [|done].
    destruct ev as [j|i e].
    + destruct (IH _ _ Hrun) as (pre & post & -> & Hpre & Hpost).
      by exists (Success j :: pre), post.
    + destruct (step_failure _ _ _ _ Hstep) as [Ha _].
      destruct (run_aborted _ _ _ Ha Hrun) as [Hall _].
      exists [], (Failure i e :: evs).
      split; [done|]. split; [done|]. cbn [forallb is_success negb andb].
      exact Hall.
Qed.
End Abort.

Lemma export_failure_step (max_arguments : N) (s s' : export_state) (i : nat)
    (e : error_event) :
  export_step max_arguments s (Failure i e) = Some s' ->
  (exists name allObjects remaining,
     ex_cursors s !! i = Some (name, CursorOpen allObjects remaining)) /\
  ex_aborted s' = true /\
  ex_calls s' = ex_calls s ++ [(Some e, None)].
Proof.
  cbn [export_step].
  destruct (ex_cursors s !! i) as [[name [allObjects remaining| |]]|];
    try done.
  intros [= <-]. split; [by eexists _, _, _|done].
Qed.

Lemma export_success_live (max_arguments : N) (s : export_state) (i : nat)
    (s' : export_state) :
  export_step max_arguments s (Success i) = Some s' -> ex_aborted s = false.
Proof. cbn [export_step]. by destruct (ex_aborted s). Qed.

(** An export to which an error is delivered has made one call for each
    error event, with the event and without a document, and no other. *)
Lemma export_error_calls (max_arguments : N) (db : list (list N * list value))
    (evs : list engine_event) (s : export_state) :
  NoDup (objectStoreNames db) ->
  run (export_step max_arguments) (exportToJsonString db) evs = Some s ->
  forallb is_success evs = false ->
  ex_calls s = (fun e => (Some e, None)) <$> errors_of evs.
Proof.
  intros Hnd Hrun Hbad.
  destruct (run_errors (export_step max_arguments) ex_aborted ex_calls
              (fun e => (Some e, None))
              ltac:(intros ? ? ? ? H;
                    by apply export_failure_step in H as (_ & ? & ?))
              (export_success_live max_arguments)
              evs _ _ Hrun Hbad)
    as (pre & i & e & s1 & s2 & Hok & Hpre & Hfail & ->).
  assert (Hinv : export_inv max_arguments db s1)
    by (eapply export_inv_run; [done|apply export_inv_init|done|done]).
  apply export_failure_step in Hfail as ((name & a & r & Hi) & _).
  by destruct (export_inv_open _ _ _ _ _ _ _ Hinv Hi) as [_ ->].
Qed.

(** ** clearDatabase *)

Lemma filter_Forall_id {A} (P : A -> Prop) `{forall x, Decision (P x)}
    (l : list A) :
  Forall P l -> filter P l = l.
Proof.
  induction 1 as [|x l Hx Hl IH]; [done|].
  by rewrite filter_cons_True, IH.
Qed.

Lemma clear_inv_init (db : list (list N * list value)) :
  clear_inv (clearDatabase db).
Proof.
  constructor; simpl.
  - done.
  - by rewrite length_fmap.
  - rewrite filter_Forall_id, length_fmap; [done|].
    apply List.Forall_forall. intros r Hr%list_elem_of_In.
    by apply list_elem_of_fmap in Hr as (name & -> & _).
  - done.
Qed.

Lemma filter_insert_false {A} (P : A -> Prop) `{forall x, Decision (P x)}
    (l : list A) (i : nat) (x y : A) :
  l !! i = Some x -> P x -> ~ P y ->
  S (length (filter P (<[i := y]> l))) = length (filter P l).
Proof.
  intros Hi Hx Hy.
  rewrite <- (take_drop_middle l i x Hi) at 2.
  rewrite insert_take_drop by (by eapply lookup_lt_Some).
  rewrite !list.filter_app, (filter_cons_True P x), (filter_cons_False P y) by done.
  rewrite !length_app. simpl. lia.
Qed.

Lemma existsb_filter_length {A} (f : A -> bool) (l : list A) :
  existsb f l = true -> 0 < length (filter (fun x => f x = true) l).
Proof.
  induction l as [|x l IH]; [done|]. simpl.
  destruct (f x) eqn:Hx; simpl.
  - rewrite filter_cons_True by done. simpl. lia.
  - rewrite filter_cons_False by (by rewrite Hx). done.
Qed.

Lemma clear_inv_step (s s' : clear_state) (i : nat) :
  clear_inv s -> clear_step s (Success i) = Some s' -> clear_inv s'.
Proof.
  intros Hinv Hstep. unfold clear_step in Hstep.
  rewrite (cli_live _ Hinv) in Hstep.
  destruct (cl_requests s !! i) as [[name [|]]|] eqn:Hi; try discriminate.
  injection Hstep as <-.
  pose proof (filter_insert_false (fun r : list N * bool => snd r = true)
                (cl_requests s) i (name, true) (name, false) Hi eq_refl
                ltac:(done)) as Hfilter.
  pose proof (cli_count _ Hinv) as Hcount.
  change (match length (cl_names s) with
          | 0 => false
          | S m' => cl_count s =? m'
          end) with (S (cl_count s) =? length (cl_names s)).
  destruct (Nat.eqb_spec (S (cl_count s)) (length (cl_names s))) as [Hall|Hmore];
    constructor;
    cbn [cl_snapshot cl_database cl_names cl_count cl_requests cl_aborted
         cl_calls];
    try done;
    try (rewrite length_insert; apply Hinv); try lia;
    intros Hpending%existsb_filter_length; [lia|].
  - apply (cli_calls _ Hinv). apply existsb_exists. exists (name, true). split; [|done].
    apply list_elem_of_In. by eapply list_elem_of_lookup_2.
Qed.

Lemma clear_inv_run (evs : list engine_event) :
  forall s s',
    clear_inv s -> forallb is_success evs = true ->
    run clear_step s evs = Some s' -> clear_inv s'.
Proof.
  induction evs as [|[i|i e] evs IH]; intros s s' Hinv Hok Hrun.
  - by injection Hrun as <-.
  - rewrite run_cons in Hrun. cbn [forallb is_success andb] in Hok.
    destruct (clear_step s (Success i)) as [s1|] eqn:Hstep; [|done].
    eapply IH; [|done|done]. by eapply clear_inv_step.
  - done.
Qed.

Lemma clear_failure_step (s s' : clear_state) (i : nat) (e : error_event) :
  clear_step s (Failure i e) = Some s' ->
  existsb snd (cl_requests s) = true /\
  cl_aborted s' = true /\
  cl_calls s' = cl_calls s ++ [Some e].
Proof.
  cbn [clear_step].
  destruct (cl_requests s !! i) as [[name [|]]|] eqn:Hi; try done.
  intros [= <-]. split; [|done].
  apply existsb_exists. exists (name, true). split; [|done].
  apply list_elem_of_In. by eapply list_elem_of_lookup_2.
Qed.

Lemma clear_success_live (s : clear_state) (i : nat) (s' : clear_state) :
  clear_step s (Success i) = Some s' -> cl_aborted s = false.
Proof. cbn [clear_step]. by destruct (cl_aborted s). Qed.

Lemma clear_idle_stuck (s : clear_state) (ev : engine_event) :
  existsb snd (cl_requests s) = false -> clear_step s ev = None.
Proof.
  intros Hidle.
  assert (Hnone : forall i name, cl_requests s !! i <> Some (name, true)).
  { intros i name Hi. apply not_true_iff_false in Hidle. apply Hidle.
    apply existsb_exists. exists (name, true). split; [|done].
    apply list_elem_of_In. by eapply list_elem_of_lookup_2. }
  destruct ev as [i|i e]; cbn [clear_step].
  - destruct (cl_aborted s); [done|].
    destruct (cl_requests s !! i) as [[name [|]]|] eqn:Hi; try done.
    by destruct (Hnone i name).
  - destruct (cl_requests s !! i) as [[name [|]]|] eqn:Hi; try done.
    by destruct (Hnone i name).
Qed.

(** A clear to which an error is delivered has made one call for each error
    event, with the event, and no other. *)
Lemma clear_error_calls (db : list (list N * list value))
    (evs : list engine_event) (s : clear_state) :
  run clear_step (clearDatabase db) evs = Some s ->
  forallb is_success evs = false ->
  cl_calls s = Some <$> errors_of evs.
Proof.
  intros Hrun Hbad.
  destruct (run_errors clear_step cl_aborted cl_calls Some
              ltac:(intros ? ? ? ? H;
                    by apply clear_failure_step in H as (_ & ? & ?))
              clear_success_live
              evs _ _ Hrun Hbad)
    as (pre & i & e & s1 & s2 & Hok & Hpre & Hfail & ->).
  assert (Hinv : clear_inv s1)
    by (eapply clear_inv_run; [apply clear_inv_init|done|done]).
  apply clear_failure_step in Hfail as (Hopen & _).
  by rewrite (cli_calls _ Hinv Hopen).
Qed.

(** C10.  On a database without object stores [clearDatabase] makes no
    request, the engine has nothing to deliver to it, and its callback is
    never called, with or without an error; [exportToJsonString], which
    tests for that case, calls back at once. *)
Theorem clearDatabase_without_stores_never_calls_back
    (db : list (list N * list value)) :
  objectStoreNames db = [] ->
  cl_calls (clearDatabase db) = [] /\
  (forall ev, clear_step (clearDatabase db) ev = None) /\
  (forall evs s, run clear_step (clearDatabase db) evs = Some s ->
     evs = [] /\ cl_calls s = []) /\
  ex_calls (exportToJsonString db) = [(None, Some [123; 125]%N)].
Proof.
  intros Hnames.
  assert (Hstuck : forall ev, clear_step (clearDatabase db) ev = None).
  { intros ev. apply clear_idle_stuck. simpl. by rewrite Hnames. }
  split; [done|split; [done|split]].
  - intros [|ev evs] s Hrun.
    + by injection Hrun as <-.
    + by rewrite run_cons, Hstuck in Hrun.
  - unfold exportToJsonString. by rewrite Hnames.
Qed.

Lemma clearDatabase_without_stores_never_calls_back_witness :
  cl_calls (clearDatabase []) = [] /\
  (forall ev, clear_step (clearDatabase []) ev = None) /\
  (forall evs s, run clear_step (clearDatabase []) evs = Some s ->
     evs = [] /\ cl_calls s = []) /\
  ex_calls (exportToJsonString []) = [(None, Some [123; 125]%N)].
Proof.
  apply (clearDatabase_without_stores_never_calls_back []). reflexivity.
Defined.

(** ** importFromJsonString *)

Lemma engine_add_at (db : list (list N * list value)) (i : nat)
    (name : list N) (records : list value) (v : value) :
  NoDup (fst <$> db) ->
  db !! i = Some (name, records) ->
  engine_add db name v = <[i := (name, records ++ [v])]> db.
Proof.
  revert i. induction db as [|[n rs] db IH]; intros i Hnd Hi; [done|].
  simpl in Hnd. apply list.NoDup_cons in Hnd as [Hn Hnd]. fold_fmap.
  destruct i as [|i]; simpl in *.
  - injection Hi as -> ->. by rewrite decide_True.
  - rewrite decide_False.
    + by rewrite (IH i).
    + intros ->. apply Hn.
      apply list_elem_of_fmap. exists (n, records). split; [done|].
      by eapply list_elem_of_lookup_2.
Qed.

Lemma importFromJsonString_started (db : list (list N * list value))
    (text : list N) (o0 : list (list N * value)) :
  JSON_parse text importResolver = Some (VObj o0) ->
  importFromJsonString db text =
  Started
    {| im_snapshot := db;
       im_database := db;
       importObject := VObj o0;
       im_requests :=
         (fun storeName =>
            {| rq_store := storeName; rq_count := 0;
               rq_pending := lodash_forEach (obj_get o0 storeName) |})
           <$> objectStoreNames db;
       im_aborted := false;
       im_calls := [] |}.
Proof. unfold importFromJsonString. by intros ->. Qed.

Lemma import_inv_init (db : list (list N * list value))
    (o0 : list (list N * value)) :
  import_inv db o0
    {| im_snapshot := db;
       im_database := db;
       importObject := VObj o0;
       im_requests :=
         (fun storeName =>
            {| rq_store := storeName; rq_count := 0;
               rq_pending := lodash_forEach (obj_get o0 storeName) |})
           <$> objectStoreNames db;
       im_aborted := false;
       im_calls := [] |}.
Proof.
  constructor;
    cbn [im_snapshot im_database importObject im_requests im_aborted im_calls].
  - done.
  - rewrite <- list_fmap_compose. apply list_fmap_id.
  - done.
  - by exists o0.
  - intros i r. unfold objectStoreNames. rewrite !list_lookup_fmap.
    destruct (db !! i) as [[name records]|] eqn:Hi; [|done].
    simpl. intros [= <-]. simpl. exists records, []. by rewrite app_nil_r.
  - done.
Qed.

Lemma lodash_forEach_array_valued (o0 : list (list N * value)) (name : list N) :
  array_valued o0 ->
  lodash_forEach (obj_get o0 name) <> [] ->
  exists l, obj_get o0 name = Some (VArr l) /\
            lodash_forEach (obj_get o0 name) = Some <$> l.
Proof.
  intros Harr Hne. destruct (obj_get o0 name) as [v|] eqn:Hget; [|done].
  destruct (Harr _ _ Hget) as [l ->]. by exists l.
Qed.

Lemma strict_eq_count_length (count n : nat) :
  strict_eq_count count (Some (VNum (Z.of_nat n) 0)) = (n =? count)%nat.
Proof.
  unfold strict_eq_count, number_to_Z. simpl.
  destruct (Nat.eqb_spec n count) as [->|Hne].
  - apply Z.eqb_eq. lia.
  - apply Z.eqb_neq. lia.
Qed.

Lemma fmap_Some_split (l added : list value) (toAdd : option value)
    (rest : list (option value)) :
  Some <$> l = (Some <$> added) ++ toAdd :: rest ->
  exists v l', toAdd = Some v /\ l = added ++ v :: l' /\ rest = Some <$> l'.
Proof.
  revert added. induction l as [|x l IH]; intros [|a added] Heq; simpl in Heq.
  - done.
  - done.
  - injection Heq as <- <-. by exists x, l.
  - injection Heq as <- Heq. destruct (IH _ Heq) as (v & l' & -> & -> & ->).
    by exists v, l'.
Qed.

Lemma existsb_pending (requests : list add_requests) (i : nat) (r : add_requests) :
  requests !! i = Some r -> rq_pending r <> [] ->
  existsb (fun r => negb (bool_decide (rq_pending r = []))) requests = true.
Proof.
  intros Hi Hne. apply existsb_exists. exists r. split.
  - apply list_elem_of_In. by eapply list_elem_of_lookup_2.
  - by rewrite bool_decide_eq_false_2.
Qed.

Lemma request_store (requests : list add_requests) (names : list (list N))
    (i : nat) (r : add_requests) :
  rq_store <$> requests = names -> requests !! i = Some r ->
  names !! i = Some (rq_store r).
Proof. intros <- Hi. by rewrite list_lookup_fmap, Hi. Qed.

(** A success keeps the import as described. *)
Lemma import_inv_step (db0 : list (list N * list value))
    (o0 : list (list N * value)) (s s' : import_state) (i : nat) :
  NoDup (objectStoreNames db0) -> array_valued o0 ->
  import_inv db0 o0 s ->
  import_step s (Success i) = Some s' ->
  import_inv db0 o0 s'.
Proof.
  intros Hnd Harr Hinv Hstep. unfold import_step in Hstep.
  rewrite (imi_live _ _ _ Hinv) in Hstep.
  destruct (im_requests s !! i) as [[name count [|toAdd rest]]|] eqn:Hi;
    try discriminate.
  destruct (imi_progress _ _ _ Hinv i _ Hi)
    as (records & added & Hdb0 & Hitems & Hcount & Hdb).
  cbn [rq_store rq_count rq_pending] in Hdb0, Hitems, Hcount, Hdb.
  destruct (imi_object _ _ _ Hinv) as (o & Hio & Hlive).
  assert (Hget : obj_get o name = obj_get o0 name) by by apply (Hlive i _ Hi).
  destruct (lodash_forEach_array_valued o0 name Harr) as (l & Hentry & Hl).
  { rewrite Hitems. by destruct added. }
  rewrite Hl in Hitems.
  apply fmap_Some_split in Hitems as (v & l' & -> & -> & ->).
  pose proof (request_store _ _ _ _ (imi_stores _ _ _ Hinv) Hi) as Hname.
  cbn [rq_store] in Hname.
  assert (Hadd : engine_add_opt (im_database s) name (Some v)
                 = <[i := (name, records ++ added ++ [v])]> (im_database s)).
  { simpl. rewrite (engine_add_at _ i name (records ++ added)).
    - by rewrite <- app_assoc.
    - by rewrite (imi_database _ _ _ Hinv).
    - done. }
  assert (Hcalls : im_calls s = []).
  { apply (imi_calls _ _ _ Hinv). by eapply existsb_pending. }
  assert (Hcond : strict_eq_count (S count)
                    (get_prop (importObject s) name ≫= length_prop)
                  = bool_decide (l' = [])).
  { rewrite Hio. cbn [get_prop]. rewrite Hget, Hentry. cbn [mbind option_bind length_prop].
    rewrite strict_eq_count_length, length_app. cbn [length].
    destruct l' as [|x l'].
    - rewrite bool_decide_eq_true_2 by done. apply Nat.eqb_eq. simpl. lia.
    - rewrite bool_decide_eq_false_2 by done. apply Nat.eqb_neq. simpl. lia. }
  rewrite Hcond, Hadd, Hio in Hstep.
  assert (Hothers : forall j r, j <> i ->
             <[i := {| rq_store := name; rq_count := S count;
                       rq_pending := Some <$> l' |}]> (im_requests s) !! j = Some r ->
             im_requests s !! j = Some r /\ rq_store r <> name).
  { intros j r Hji Hj. rewrite list_lookup_insert_ne in Hj by done.
    split; [done|].
    pose proof (request_store _ _ _ _ (imi_stores _ _ _ Hinv) Hj) as Hnamej.
    eapply NoDup_lookup_ne; [exact Hnd|exact Hnamej|exact Hname|done]. }
  assert (Hprogress : forall j r,
             <[i := {| rq_store := name; rq_count := S count;
                       rq_pending := Some <$> l' |}]> (im_requests s) !! j = Some r ->
             exists records' added',
               db0 !! j = Some (rq_store r, records') /\
               lodash_forEach (obj_get o0 (rq_store r))
               = (Some <$> added') ++ rq_pending r /\
               rq_count r = length added' /\
               <[i := (name, records ++ added ++ [v])]> (im_database s) !! j
               = Some (rq_store r, records' ++ added')).
  { intros j r Hj. destruct (decide (j = i)) as [->|Hji].
    - rewrite list_lookup_insert_eq in Hj by (by eapply lookup_lt_Some).
      injection Hj as <-. cbn [rq_store rq_count rq_pending].
      exists records, (added ++ [v]). repeat split.
      + done.
      + rewrite Hl, !fmap_app, <- app_assoc. done.
      + rewrite length_app. simpl. lia.
      + by rewrite list_lookup_insert_eq by (by eapply lookup_lt_Some).
    - destruct (Hothers j r Hji Hj) as [Hj' _].
      destruct (imi_progress _ _ _ Hinv j r Hj')
        as (records' & added' & ? & ? & ? & ?).
      exists records', added'. repeat split; try done.
      by rewrite list_lookup_insert_ne by done. }
  assert (Hstores : rq_store <$>
                      <[i := {| rq_store := name; rq_count := S count;
                                rq_pending := Some <$> l' |}]> (im_requests s)
                    = objectStoreNames db0).
  { rewrite list_fmap_insert. cbn [rq_store].
    rewrite list_insert_id; [apply Hinv|].
    by rewrite list_lookup_fmap, Hi. }
  assert (Hdatabase : fst <$> <[i := (name, records ++ added ++ [v])]> (im_database s)
                      = objectStoreNames db0).
  { rewrite list_fmap_insert. cbn [fst].
    rewrite list_insert_id; [apply Hinv|].
    by rewrite list_lookup_fmap, Hdb. }
  destruct (decide (l' = [])) as [->|Hmore].
  - (* the last request of the store *)
    rewrite bool_decide_eq_true_2 in Hstep by done.
    cbn [delete_prop lodash_keys] in Hstep. injection Hstep as <-.
    constructor;
      cbn [im_snapshot im_database importObject im_requests im_aborted im_calls];
      [done|done|done| | done|].
    + exists (obj_delete name o). split; [done|].
      intros j r Hj Hpending.
      destruct (decide (j = i)) as [->|Hji].
      { rewrite list_lookup_insert_eq in Hj by (by eapply lookup_lt_Some).
        by injection Hj as <-. }
      destruct (Hothers j r Hji Hj) as [Hj' Hne].
      rewrite obj_get_delete, decide_False by done. by eapply Hlive.
    + intros (r & Hr & Hpending)%existsb_exists.
      apply negb_true_iff, bool_decide_eq_false in Hpending.
      apply list_elem_of_In, list_elem_of_lookup_1 in Hr as [j Hj].
      destruct (decide (j = i)) as [->|Hji].
      { rewrite list_lookup_insert_eq in Hj by (by eapply lookup_lt_Some).
        by injection Hj as <-. }
      destruct (Hothers j r Hji Hj) as [Hj' Hne].
      assert (Hin : rq_store r ∈ keys (obj_delete name o)).
      { destruct (imi_progress _ _ _ Hinv j r Hj')
          as (records' & added' & _ & Hitems' & _ & _).
        destruct (lodash_forEach_array_valued o0 (rq_store r) Harr)
          as (lr & Hentry' & _).
        { rewrite Hitems'. by destruct added', (rq_pending r). }
        eapply obj_get_Some_key.
        rewrite obj_get_delete, decide_False by done.
        rewrite (Hlive j r Hj' Hpending). exact Hentry'. }
      destruct (keys (obj_delete name o)) as [|k ks] eqn:Hkeys.
      * by apply elem_of_nil in Hin.
      * done.
  - (* more requests of the store are outstanding *)
    rewrite bool_decide_eq_false_2 in Hstep by done. injection Hstep as <-.
    constructor;
      cbn [im_snapshot im_database importObject im_requests im_aborted im_calls];
      [done|done|done| | done|done].
    exists o. split; [done|].
    intros j r Hj Hpending.
    destruct (decide (j = i)) as [->|Hji].
    { rewrite list_lookup_insert_eq in Hj by (by eapply lookup_lt_Some).
      by injection Hj as <-. }
    destruct (Hothers j r Hji Hj) as [Hj' Hne]. by eapply Hlive.
Qed.

Lemma import_inv_run (db0 : list (list N * list value))
    (o0 : list (list N * value)) (evs : list engine_event) :
  NoDup (objectStoreNames db0) -> array_valued o0 ->
  forall s s',
    import_inv db0 o0 s ->
    forallb is_success evs = true ->
    run import_step s evs = Some s' ->
    import_inv db0 o0 s'.
Proof.
  intros Hnd Harr. induction evs as [|[i|i e] evs IH]; intros s s' Hinv Hok Hrun.
  - by injection Hrun as <-.
  - rewrite run_cons in Hrun. cbn [forallb is_success andb] in Hok.
    destruct (import_step s (Success i)) as [s1|] eqn:Hstep; [|done].
    eapply IH; [|done|done]. by eapply import_inv_step.
  - done.
Qed.

Lemma import_settled_pending (s : import_state) (i : nat) (r : add_requests) :
  import_settled s = true -> im_requests s !! i = Some r -> rq_pending r = [].
Proof.
  unfold import_settled. rewrite forallb_forall. intros Hall Hi.
  apply list_elem_of_lookup_2, list_elem_of_In, Hall in Hi.
  by apply bool_decide_eq_true in Hi.
Qed.

Lemma import_settled_idle (s : import_state) :
  import_settled s = true <->
  existsb (fun r => negb (bool_decide (rq_pending r = []))) (im_requests s)
  = false.
Proof.
  unfold import_settled.
  induction (im_requests s) as [|r l IH]; simpl; [done|].
  destruct (bool_decide (rq_pending r = [])); simpl; [exact IH|done].
Qed.

Lemma import_settled_stuck (s : import_state) (ev : engine_event) :
  import_settled s = true -> import_step s ev = None.
Proof.
  intros Hset. destruct ev as [i|i e]; unfold import_step.
  - destruct (im_aborted s); [done|].
    destruct (im_requests s !! i) as [[name count pending]|] eqn:Hi; [|done].
    apply (import_settled_pending _ _ _ Hset) in Hi. simpl in Hi. by subst.
  - destruct (im_requests s !! i) as [[name count pending]|] eqn:Hi; [|done].
    apply (import_settled_pending _ _ _ Hset) in Hi. simpl in Hi. by subst.
Qed.

Lemma import_failure_step (s s' : import_state) (i : nat) (e : error_event) :
  import_step s (Failure i e) = Some s' ->
  existsb (fun r => negb (bool_decide (rq_pending r = []))) (im_requests s)
  = true /\
  im_aborted s' = true /\
  im_calls s' = im_calls s ++ [Some e].
Proof.
  unfold import_step.
  destruct (im_requests s !! i) as [[name count [|toAdd rest]]|] eqn:Hi;
    try done.
  intros [= <-]. split; [|done]. by eapply existsb_pending.
Qed.

Lemma import_success_live (s : import_state) (i : nat) (s' : import_state) :
  import_step s (Success i) = Some s' -> im_aborted s = false.
Proof. unfold import_step. by destruct (im_aborted s). Qed.

(** An import to which an error is delivered has made one call for each
    error event, with the event, and no other. *)
Lemma import_error_calls (db : list (list N * list value))
    (o0 : list (list N * value)) (evs : list engine_event)
    (s0 s : import_state) :
  NoDup (objectStoreNames db) -> array_valued o0 ->
  import_inv db o0 s0 ->
  run import_step s0 evs = Some s ->
  forallb is_success evs = false ->
  im_calls s = Some <$> errors_of evs.
Proof.
  intros Hnd Harr Hinv0 Hrun Hbad.
  destruct (run_errors import_step im_aborted im_calls Some
              ltac:(intros ? ? ? ? H;
                    by apply import_failure_step in H as (_ & ? & ?))
              import_success_live
              evs _ _ Hrun Hbad)
    as (pre & i & e & s1 & s2 & Hok & Hpre & Hfail & ->).
  assert (Hinv : import_inv db o0 s1) by by eapply import_inv_run.
  apply import_failure_step in Hfail as (Hopen & _).
  by rewrite (imi_calls _ _ _ Hinv Hopen).
Qed.

Lemma errors_of_failure (evs : list engine_event) :
  forallb is_success evs = false -> 1 <= length (errors_of evs).
Proof.
  induction evs as [|[i|i e] evs IH]; [done| |].
  - cbn [forallb is_success andb]. rewrite errors_of_cons. exact IH.
  - intros _. rewrite errors_of_cons. cbn [length]. lia.
Qed.

(** Whatever the document: a success adds no call with an error, an error
    event adds the call with that event. *)
Lemma import_step_errors (s s' : import_state) (ev : engine_event) :
  import_step s ev = Some s' ->
  omap id (im_calls s') = omap id (im_calls s) ++ errors_of [ev].
Proof.
  destruct ev as [i|i e]; unfold import_step.
  - destruct (im_aborted s); [done|].
    destruct (im_requests s !! i) as [[name count [|toAdd rest]]|];
      try done.
    destruct (strict_eq_count _ _).
    + destruct (_ =? _)%nat; intros [= <-]; cbn [im_calls errors_of omap].
      * rewrite omap_app. done.
      * by rewrite app_nil_r.
    + intros [= <-]. cbn [im_calls errors_of omap]. by rewrite app_nil_r.
  - destruct (im_requests s !! i) as [[name count [|toAdd rest]]|];
      try done.
    intros [= <-]. cbn [im_calls]. by rewrite omap_app.
Qed.

Lemma import_run_errors (evs : list engine_event) :
  forall s s',
    run import_step s evs = Some s' ->
    omap id (im_calls s') = omap id (im_calls s) ++ errors_of evs.
Proof.
  induction evs as [|ev evs IH]; intros s s' Hrun.
  - injection Hrun as <-. by rewrite app_nil_r.
  - rewrite run_cons in Hrun.
    destruct (import_step s ev) as [sa|] eqn:Hstep; [|done].
    rewrite (IH _ _ Hrun), (import_step_errors _ _ _ Hstep), <- app_assoc.
    f_equal. by destruct ev.
Qed.

(** C5, as the code has it.  In each of the three operations the handler of
    a transaction error calls the callback once for the error event it is
    handed, with the event (and, in an export, no document), and nothing
    keeps it from being called again: a call to which the engine delivers
    errors has made one such call for each error event, at least one, and
    no other call.  For an import the calls that carry an error are the
    error events, one for one and in order, whatever the document is; that
    there is no other call is said of a text in the exported form, an object
    whose values are arrays. *)
Theorem transaction_error_calls_back_for_each_error_event
    (max_arguments : N) (db : list (list N * list value))
    (evs : list engine_event) :
  NoDup (objectStoreNames db) ->
  forallb is_success evs = false ->
  ((forall s s' i e, export_step max_arguments s (Failure i e) = Some s' ->
      ex_calls s' = ex_calls s ++ [(Some e, None)]) /\
   (forall s,
      run (export_step max_arguments) (exportToJsonString db) evs = Some s ->
      ex_calls s = (fun e => (Some e, None)) <$> errors_of evs)) /\
  ((forall s s' i e, import_step s (Failure i e) = Some s' ->
      im_calls s' = im_calls s ++ [Some e]) /\
   (forall text s0 s,
      importFromJsonString db text = Started s0 ->
      run import_step s0 evs = Some s ->
      omap id (im_calls s) = errors_of evs /\
      (forall o0,
         JSON_parse text importResolver = Some (VObj o0) ->
         array_valued o0 ->
         im_calls s = Some <$> errors_of evs))) /\
  ((forall s s' i e, clear_step s (Failure i e) = Some s' ->
      cl_calls s' = cl_calls s ++ [Some e]) /\
   (forall s, run clear_step (clearDatabase db) evs = Some s ->
      cl_calls s = Some <$> errors_of evs)) /\
  1 <= length (errors_of evs).
Proof.
  intros Hnd Hbad.
  split; [split|split; [split|split; [split|]]].
  - intros s s' i e H. by apply export_failure_step in H as (_ & _ & ?).
  - intros s Hrun. by eapply export_error_calls.
  - intros s s' i e H. by apply import_failure_step in H as (_ & _ & ?).
  - intros text s0 s Hstart Hrun. split.
    + rewrite (import_run_errors _ _ _ Hrun).
      unfold importFromJsonString in Hstart.
      destruct (JSON_parse text importResolver) as [v|]; [|done].
      destruct v, (objectStoreNames db); try done;
        by injection Hstart as <-.
    + intros o0 Hparse Harr.
      rewrite (importFromJsonString_started db text _ Hparse) in Hstart.
      injection Hstart as <-.
      eapply import_error_calls; [done|done|apply import_inv_init|done|done].
  - intros s s' i e H. by apply clear_failure_step in H as (_ & _ & ?).
  - intros s Hrun. by eapply clear_error_calls.
  - by apply errors_of_failure.
Qed.

Lemma transaction_error_calls_back_for_each_error_event_witness :
  let db := [([97%N], [VNum 1 0])] in
  let text := [123; 34; 97; 34; 58; 91; 50; 93; 125]%N in
  let e := ErrorEvent [] in
  (exists s, run (export_step 65536) (exportToJsonString db)
               [Success 0; Failure 0 e] = Some s /\
             ex_calls s = [(Some e, None)]) /\
  (exists s0 s, importFromJsonString db text = Started s0 /\
                run import_step s0 [Failure 0 e] = Some s /\
                im_calls s = [Some e]) /\
  (exists s, run clear_step (clearDatabase db) [Failure 0 e] = Some s /\
             cl_calls s = [Some e]).
Proof.
  intros db text e.
  assert (Hnd : NoDup (objectStoreNames db))
    by (apply (bool_decide_unpack _); vm_compute; exact I).
  assert (Hparse : JSON_parse text importResolver
                   = Some (VObj [([97%N], VArr [VNum 2 0])]))
    by (vm_compute; reflexivity).
  assert (Harr : array_valued [([97%N], VArr [VNum 2 0])]).
  { intros k v. simpl. destruct (decide (k = [97%N])); [|done].
    intros [= <-]. by eexists. }
  split; [|split].
  - eexists. split; [reflexivity|].
    destruct (transaction_error_calls_back_for_each_error_event 65536 db
                [Success 0; Failure 0 e] Hnd eq_refl)
      as ((_ & Hexport) & _ & _).
    by apply Hexport.
  - destruct (transaction_error_calls_back_for_each_error_event 65536 db
                [Failure 0 e] Hnd eq_refl)
      as (_ & (_ & Himport) & _).
    eexists _, _. split; [by apply importFromJsonString_started|].
    split; [reflexivity|].
    exact (proj2 (Himport text _ _
                    (importFromJsonString_started db text _ Hparse) eq_refl)
             _ Hparse Harr).
  - eexists. split; [reflexivity|].
    destruct (transaction_error_calls_back_for_each_error_event 65536 db
                [Failure 0 e] Hnd eq_refl)
      as (_ & _ & (_ & Hclear) & _).
    by apply Hclear.
Defined.

(** C5, as stated, fails where more than one request is outstanding when
    the transaction is aborted.  An import of three values into store [a],
    the first [add] of which fails: the engine aborts the transaction and
    answers the two other requests with an error each, and the callback is
    called three times; the store is left as it was.  A clear of two
    stores, and an export of two stores, the first request of which fails:
    the callback is called twice. *)
Lemma transaction_error_calls_back_more_than_once :
  let ConstraintError :=
    ErrorEvent [67;111;110;115;116;114;97;105;110;116;69;114;114;111;114]%N in
  let UnknownError :=
    ErrorEvent [85;110;107;110;111;119;110;69;114;114;111;114]%N in
  let AbortError := ErrorEvent [65;98;111;114;116;69;114;114;111;114]%N in
  let text := [123; 34; 97; 34; 58; 91; 49; 44; 50; 44; 51; 93; 125]%N in
  (exists s0 s,
     importFromJsonString [([97%N], [VNum 1 0])] text = Started s0 /\
     run import_step s0
       [Failure 0 ConstraintError; Failure 0 AbortError; Failure 0 AbortError]
     = Some s /\
     im_calls s = [Some ConstraintError; Some AbortError; Some AbortError] /\
     im_database s = [([97%N], [VNum 1 0])]) /\
  (exists s,
     run clear_step (clearDatabase [([97%N], [VNum 1 0]); ([98%N], [])])
       [Failure 0 UnknownError; Failure 1 AbortError] = Some s /\
     cl_calls s = [Some UnknownError; Some AbortError]) /\
  (exists s,
     run (export_step 65536)
       (exportToJsonString [([97%N], [VNum 1 0]); ([98%N], [])])
       [Failure 0 UnknownError; Failure 1 AbortError] = Some s /\
     ex_calls s = [(Some UnknownError, None); (Some AbortError, None)]).
Proof.
  intros ConstraintError UnknownError AbortError text. split; [|split].
  - eexists _, _. split; [vm_compute; reflexivity|].
    split; [vm_compute; reflexivity|]. by vm_compute.
  - eexists. split; [vm_compute; reflexivity|]. by vm_compute.
  - eexists. split; [vm_compute; reflexivity|]. by vm_compute.
Qed.

(** C9.  A text that does not parse makes [importFromJsonString] throw the
    parser's exception to its caller: no request has been made and no
    callback called. *)
Theorem importFromJsonString_invalid_json_throws
    (db : list (list N * list value)) (text : list N) :
  parse_text text = None ->
  importFromJsonString db text = Threw SyntaxError.
Proof.
  intros Hparse. unfold importFromJsonString, JSON_parse. by rewrite Hparse.
Qed.

Lemma importFromJsonString_invalid_json_throws_witness :
  importFromJsonString [([97%N], [])] [123; 34; 97; 34; 58]%N
  = Threw SyntaxError.
Proof.
  apply importFromJsonString_invalid_json_throws. vm_compute. reflexivity.
Defined.

(** C4, on the code.  Importing the text of the empty object makes no
    request whatever the stores of the database, so no request ever
    succeeds, the engine has nothing to deliver, and the callback is never
    called. *)
Theorem importFromJsonString_empty_object_never_calls_back
    (db : list (list N * list value)) :
  exists s0,
    importFromJsonString db [123; 125]%N = Started s0 /\
    im_calls s0 = [] /\
    (forall ev, import_step s0 ev = None) /\
    (forall evs s, run import_step s0 evs = Some s -> evs = [] /\ im_calls s = []).
Proof.
  eexists. split.
  { apply importFromJsonString_started. vm_compute. reflexivity. }
  cbn [im_calls].
  match goal with |- _ /\ (forall ev, import_step ?s ev = None) /\ _ =>
    assert (Hstuck : forall ev, import_step s ev = None) end.
  { intros ev. apply import_settled_stuck. unfold import_settled. simpl.
    apply forallb_forall. intros r Hr.
    apply list_elem_of_In, list_elem_of_fmap in Hr as (name & -> & _). done. }
  split; [done|split; [done|]].
  intros [|ev evs] s Hrun.
  - by injection Hrun as <-.
  - by rewrite run_cons, Hstuck in Hrun.
Qed.

(** The same silence where the document holds a store that is empty: the
    store's key is never deleted, so the import of what an export wrote for
    stores [a] (one record) and [b] (none) adds the record of [a] and then
    has nothing more to do, its callback never called. *)
Lemma importFromJsonString_empty_store_never_calls_back :
  let db := [([97%N], []); ([98%N], [])] in
  let text := [123;34;97;34;58;91;49;93;44;34;98;34;58;91;93;125]%N in
  exists s0 s,
    importFromJsonString db text = Started s0 /\
    run import_step s0 [Success 0] = Some s /\
    im_database s = [([97%N], [VNum 1 0]); ([98%N], [])] /\
    import_settled s = true /\
    im_calls s = [].
Proof.
  eexists _, _. split; [vm_compute; reflexivity|].
  split; [vm_compute; reflexivity|]. by vm_compute.
Qed.

(** ** An export followed by an import *)

Lemma emptied_names (db : list (list N * list value)) :
  objectStoreNames (emptied db) = objectStoreNames db.
Proof.
  unfold objectStoreNames, emptied. rewrite <- list_fmap_compose.
  by apply list_fmap_ext.
Qed.

Lemma fmap_Some_inj (l1 l2 : list value) :
  Some <$> l1 = Some <$> l2 -> l1 = l2.
Proof.
  revert l2. induction l1 as [|x l1 IH]; intros [|y l2] Heq; try done.
  injection Heq as -> Heq. f_equal. by apply IH.
Qed.

(** What a completed import of the exported text has put into the emptied
    database. *)
Lemma import_inv_settled_database (db : list (list N * list value))
    (o : list (list N * value)) (s' : import_state) :
  NoDup (objectStoreNames db) ->
  (forall name, name ∈ objectStoreNames db ->
     obj_get o name = Some (VArr (store_records db name))) ->
  import_inv (emptied db)
    ((fun kx : list N * value => (fst kx, reimported (snd kx))) <$> o) s' ->
  import_settled s' = true ->
  im_database s' = reimported_database db.
Proof.
  intros Hnd Hdoc Hinv Hset. apply list_eq. intros i.
  unfold reimported_database. rewrite list_lookup_fmap.
  destruct (db !! i) as [[name records]|] eqn:Hi; simpl.
  - assert (Hname : objectStoreNames db !! i = Some name)
      by (unfold objectStoreNames; by rewrite list_lookup_fmap, Hi).
    rewrite <- emptied_names, <- (imi_stores _ _ _ Hinv), list_lookup_fmap
      in Hname.
    destruct (im_requests s' !! i) as [r|] eqn:Hr; [|done].
    injection Hname as Hname.
    destruct (imi_progress _ _ _ Hinv i r Hr)
      as (records0 & added & Hdb0 & Hitems & _ & Hdb).
    rewrite (import_settled_pending _ _ _ Hset Hr), app_nil_r in Hitems.
    unfold emptied in Hdb0. rewrite list_lookup_fmap, Hi in Hdb0.
    injection Hdb0 as _ <-.
    rewrite Hname in Hitems, Hdb.
    rewrite obj_get_fmap, Hdoc in Hitems
      by (eapply list_elem_of_lookup_2;
          unfold objectStoreNames; by rewrite list_lookup_fmap, Hi).
    rewrite (store_records_at _ _ _ _ Hnd Hi) in Hitems.
    apply fmap_Some_inj in Hitems as <-. done.
  - apply lookup_ge_None_2.
    apply lookup_ge_None_1 in Hi.
    rewrite <- (length_fmap fst), (imi_database _ _ _ Hinv), emptied_names.
    unfold objectStoreNames. by rewrite length_fmap.
Qed.

(** C1, as the code has it.  Export a database whose records are well
    formed, with its cursors reporting in any order, and import the text
    into the emptied database, with the additions succeeding in any order:
    every store then holds, in their order, its records as the codec hands
    them back ([reimported]: a byte buffer followed by as many zero bytes
    again, a string that starts with the sentinel turned into a buffer); and
    where no record holds a buffer other than the empty one or a string that
    starts with the sentinel, the database is the one that was exported. *)
Theorem export_then_import_reproduces_records
    (max_arguments : N) (db : list (list N * list value))
    (evs : list engine_event) (s : export_state) (text : list N) :
  NoDup (objectStoreNames db) ->
  (forall name records r,
     (name, records) ∈ db -> r ∈ records -> well_formed r = true) ->
  forallb is_success evs = true ->
  run (export_step max_arguments) (exportToJsonString db) evs = Some s ->
  ex_calls s = [(None, Some text)] ->
  exists s0,
    importFromJsonString (emptied db) text = Started s0 /\
    forall evs' s',
      forallb is_success evs' = true ->
      run import_step s0 evs' = Some s' ->
      import_settled s' = true ->
      im_database s' = reimported_database db /\
      ((forall name records r,
          (name, records) ∈ db -> r ∈ records -> plain r = true) ->
       im_database s' = db).
Proof.
  intros Hnd Hwf Hok Hrun Hcalls.
  assert (Hinv : export_inv max_arguments db s)
    by (eapply export_inv_run; [done|apply export_inv_init|done|done]).
  destruct (export_call_text _ _ _ _ Hnd Hinv Hcalls)
    as (Hset & Hproto & Htext).
  pose proof (export_inv_well_formed _ _ _ Hinv Hwf) as Hwfo.
  pose proof (JSON_parse_stringify _ _ _ Hwfo Htext) as Hparse.
  cbn [reimported] in Hparse.
  assert (Hdoc : forall name, name ∈ objectStoreNames db ->
            obj_get (exportObject s) name
            = Some (VArr (store_records db name))).
  { intros name Hname. eapply export_inv_records; [done|done|done|].
    by intros ->. }
  set (o0 := (fun kx : list N * value => (fst kx, reimported (snd kx))) <$> exportObject s) in *.
  assert (Harr : array_valued o0).
  { intros k v. unfold o0. rewrite obj_get_fmap.
    destruct (obj_get (exportObject s) k) as [v0|] eqn:Hget; [|done].
    intros [= <-].
    assert (Hk : k ∈ objectStoreNames db)
      by (apply Hinv; by eapply obj_get_Some_key).
    rewrite (Hdoc _ Hk) in Hget.
    injection Hget as <-. by eexists. }
  eexists. split; [by apply importFromJsonString_started|].
  intros evs' s' Hok' Hrun' Hset'.
  assert (Hinv' : import_inv (emptied db) o0 s').
  { eapply import_inv_run; [by rewrite emptied_names|done| |done|done].
    rewrite emptied_names.
    pose proof (import_inv_init (emptied db) o0) as H0.
    by rewrite emptied_names in H0. }
  assert (Hdb : im_database s'
                = reimported_database db).
  { by apply import_inv_settled_database with (o := exportObject s). }
  split; [done|].
  intros Hplain. rewrite Hdb. unfold reimported_database.
  rewrite <- (list_fmap_id db) at 2.
  apply list_fmap_ext. intros i [name records] Hi. simpl. f_equal.
  rewrite <- (list_fmap_id records) at 2.
  apply list_fmap_ext. intros j r Hj. simpl.
  apply reimported_plain. eapply Hplain; by eapply list_elem_of_lookup_2.
Qed.

Lemma export_then_import_reproduces_records_witness :
  let record := VObj [([105; 100]%N, VNum 2 0);
                      ([98; 117; 102]%N, VBuf [x00; xff; x10])] in
  let back := VObj [([105; 100]%N, VNum 2 0);
                    ([98; 117; 102]%N, VBuf [x00; xff; x10; x00; x00; x00])] in
  let db := [([97%N], [record]); ([98%N], [VStr [120%N]])] in
  let text := [123;34;97;34;58;91;123;34;105;100;34;58;50;44;34;98;117;102;
               34;58;34;95;36;65;66;92;117;48;48;48;48;255;92;117;48;48;49;
               48;34;125;93;44;34;98;34;58;91;34;120;34;93;125]%N in
  exists s s0 s',
    run (export_step 65536) (exportToJsonString db)
      [Success 0; Success 1; Success 0; Success 1] = Some s /\
    ex_calls s = [(None, Some text)] /\
    importFromJsonString (emptied db) text = Started s0 /\
    run import_step s0 [Success 1; Success 0] = Some s' /\
    im_database s' = [([97%N], [back]); ([98%N], [VStr [120%N]])].
Proof.
  intros record back db text.
  assert (Hexport : exists s,
             run (export_step 65536) (exportToJsonString db)
               [Success 0; Success 1; Success 0; Success 1] = Some s /\
             ex_calls s = [(None, Some text)]).
  { eexists. split; vm_compute; reflexivity. }
  destruct Hexport as (s & Hrun & Hcalls).
  destruct (export_then_import_reproduces_records 65536 db
              [Success 0; Success 1; Success 0; Success 1] s text
              ltac:(apply (bool_decide_unpack _); vm_compute; exact I)
              ltac:(apply records_Forall; repeat constructor)
              eq_refl Hrun Hcalls)
    as (s0 & Hstart & Himport).
  exists s, s0. eexists. split; [exact Hrun|]. split; [exact Hcalls|].
  split; [exact Hstart|].
  vm_compute in Hstart. injection Hstart as <-.
  split; [vm_compute; reflexivity|].
  match goal with
  | |- im_database ?s' = _ =>
      destruct (Himport [Success 1; Success 0] s' eq_refl
                  ltac:(vm_compute; reflexivity)
                  ltac:(vm_compute; reflexivity)) as [Hdb _]
  end.
  rewrite Hdb. vm_compute. reflexivity.
Defined.

(** C1, as stated, fails on a record that holds a byte buffer: the store
    comes back with the buffer twice as long. *)
Lemma export_then_import_doubles_buffers :
  let record := VObj [([105; 100]%N, VNum 2 0);
                      ([98; 117; 102]%N, VBuf [x00; xff; x10])] in
  let back := VObj [([105; 100]%N, VNum 2 0);
                    ([98; 117; 102]%N, VBuf [x00; xff; x10; x00; x00; x00])] in
  let db := [([97%N], [record])] in
  exists s text s0 s',
    run (export_step 65536) (exportToJsonString db) [Success 0; Success 0] = Some s /\
    ex_calls s = [(None, Some text)] /\
    importFromJsonString (emptied db) text = Started s0 /\
    run import_step s0 [Success 0] = Some s' /\
    import_settled s' = true /\
    im_calls s' = [None] /\
    im_database s' = [([97%N], [back])] /\
    im_database s' <> db.
Proof.
  eexists _, _, _, _.
  split; [vm_compute; reflexivity|]. split; [vm_compute; reflexivity|].
  split; [vm_compute; reflexivity|]. split; [vm_compute; reflexivity|].
  vm_compute. repeat split. discriminate.
Qed.
(** ** The codec in the other direction, and what the text keeps *)

Lemma land_255_id (c : N) : N.land c 255 = c <-> (c < 256)%N.
Proof.
  change 255%N with (N.ones 8). rewrite N.land_ones.
  change (2 ^ 8)%N with 256%N. split.
  - intros <-. by apply N.mod_lt.
  - apply N.mod_small.
Qed.

Lemma fmap_id_Forall {A} (f : A -> A) (l : list A) :
  f <$> l = l <-> Forall (fun x => f x = x) l.
Proof.
  induction l as [|x l IH]; cbn [fmap list_fmap].
  - split; [constructor | done].
  - rewrite list.Forall_cons, <- IH. split.
    + by intros [= -> ->].
    + by intros [-> ->].
Qed.

(** X1.  A string turned into a buffer and back: [ab2str] throws where the
    buffer, twice as long as the string, is longer than the host spreads;
    where it returns, the string comes out with every code unit cut to its
    low byte and as many zero units appended.  The first half of the buffer
    gives the string back exactly when the host spreads it and every code
    unit of the string is below 256. *)
Theorem ab2str_str2ab_low_bytes (max_arguments : N) (s : jsstring) :
  (ab2str max_arguments (str2ab s) = None
   <-> (max_arguments < N.of_nat (2 * length s))%N) /\
  (forall str, ab2str max_arguments (str2ab s) = Some str ->
     str = ((fun c => N.land c 255) <$> s) ++ replicate (length s) 0%N) /\
  (ab2str max_arguments (take (length s) (str2ab s)) = Some s
   <-> (N.of_nat (length s) <= max_arguments)%N /\
       Forall (fun c => (c < 256)%N) s).
Proof.
  rewrite !ab2str_eq, str2ab_eq. split; [|split].
  - rewrite length_app, length_fmap, length_replicate.
    replace (length s + length s) with (2 * length s) by lia.
    destruct (N.leb_spec (N.of_nat (2 * length s)) max_arguments);
      split; (done || lia).
  - intros str.
    destruct (_ <=? _)%N; [|done]. intros [= <-].
    rewrite buffer_string_eq, fmap_app, fmap_replicate, <- list_fmap_compose.
    f_equal. apply list_fmap_ext. intros _ c _. apply ToUint8_low_byte.
  - rewrite take_app_length' by by rewrite length_fmap.
    rewrite length_fmap, buffer_string_eq, <- list_fmap_compose.
    assert (Hid : (Byte.to_N ∘ ToUint8) <$> s = s
                  <-> Forall (fun c => (c < 256)%N) s).
    { rewrite fmap_id_Forall. apply Forall_iff. intros c. cbn.
      rewrite ToUint8_low_byte. apply land_255_id. }
    destruct (N.leb_spec (N.of_nat (length s)) max_arguments) as [Hfit|Hlong].
    + split.
      * intros [= Heq]. split; [done|]. by apply Hid.
      * intros [_ Hlow]. f_equal. by apply Hid.
    + split; [done|]. intros [Hfit _]. lia.
Qed.

Lemma reimported_fixed (v : value) : reimported v = v -> plain v = true.
Proof.
  induction v as [| | | s | l IH | o IH | buf] using value_nested_ind;
    cbn [reimported plain]; try done.
  - destruct (startsWith s sentinel); [discriminate|done].
  - intros [= Hl]. apply fmap_id_Forall in Hl.
    apply forallb_forall, List.Forall_forall.
    eapply List.Forall_impl; [|exact (List.Forall_and IH Hl)].
    intros x [Hx1 Hx2]. by apply Hx1.
  - intros [= Ho]. apply fmap_id_Forall in Ho.
    apply forallb_forall, List.Forall_forall.
    eapply List.Forall_impl; [|exact (List.Forall_and IH Ho)].
    intros [k x] [Hx1 Hx2]. cbn in *. apply Hx1. congruence.
  - intros [= Hb]. apply bool_decide_eq_true.
    apply (f_equal length) in Hb. rewrite length_app, length_replicate in Hb.
    destruct buf; [done|]. cbn in Hb. lia.
Qed.

(** X2.  The text that [JSON.stringify] with [exportReplacer] writes for a
    value, read by [JSON.parse] with [importResolver].  The writing throws
    exactly where the value holds a buffer longer than the host spreads.
    The text it otherwise returns reads back as the value with its buffers
    padded and its sentinel strings decoded, which is the value itself
    exactly when the value holds no buffer but the empty one and no string
    that starts with the sentinel. *)
Theorem JSON_round_trip_identity_iff_plain (max_arguments : N) (v : value) :
  well_formed v = true ->
  (JSON_stringify (exportReplacer max_arguments) v = None
   <-> spreadable max_arguments v = false) /\
  (spreadable max_arguments v = true ->
   exists text, JSON_stringify (exportReplacer max_arguments) v = Some text) /\
  (forall text,
     JSON_stringify (exportReplacer max_arguments) v = Some text ->
     JSON_parse text importResolver = Some (reimported v) /\
     (JSON_parse text importResolver = Some v <-> plain v = true)).
Proof.
  intros Hwf. split; [|split].
  - rewrite JSON_stringify_exportReplacer.
    by destruct (spreadable max_arguments v).
  - intros Hs. rewrite JSON_stringify_exportReplacer, Hs. by eexists.
  - intros text Htext. rewrite (JSON_parse_stringify _ _ _ Hwf Htext).
    split; [done|]. split.
    + intros [= Hv]. by apply reimported_fixed.
    + intros Hv. by rewrite reimported_plain.
Qed.

Lemma JSON_round_trip_identity_iff_plain_witness :
  let v := VObj [([107%N], VArr [VBuf [x07]; VStr [120%N]])] in
  exists text,
    JSON_stringify (exportReplacer 65536) v = Some text /\
    JSON_parse text importResolver
    = Some (VObj [([107%N], VArr [VBuf [x07; x00]; VStr [120%N]])]).
Proof.
  intros v.
  destruct (JSON_round_trip_identity_iff_plain 65536 v eq_refl)
    as (_ & Hsome & Hback).
  destruct (Hsome eq_refl) as [text Htext].
  exists text. split; [exact Htext|]. exact (proj1 (Hback text Htext)).
Defined.

Lemma fmap_inj_Forall {A B} (f : A -> B) (P : A -> Prop) (l1 : list A) :
  Forall (fun x => forall y, P x -> P y -> f x = f y -> x = y) l1 ->
  Forall P l1 ->
  forall l2, Forall P l2 -> f <$> l1 = f <$> l2 -> l1 = l2.
Proof.
  induction 1 as [|x l1 Hx _ IH]; intros H1 [|y l2] H2;
    cbn [fmap list_fmap]; try done.
  apply Forall_cons_1 in H1 as [Hpx H1]. apply Forall_cons_1 in H2 as [Hpy H2].
  intros [= Hxy Hl]. f_equal; [by apply Hx | by apply IH].
Qed.

Lemma reimported_inj (v1 : value) :
  forall v2,
    untagged v1 = true -> untagged v2 = true ->
    reimported v1 = reimported v2 -> v1 = v2.
Proof.
  induction v1 as [| | | s | l IH | o IH | buf] using value_nested_ind;
    intros v2 H1 H2 Heq.
  - destruct v2 as [| | | s2| | |]; cbn [reimported untagged] in *; try done.
    apply negb_true_iff in H2. by rewrite H2 in Heq.
  - destruct v2 as [| | | s2| | |]; cbn [reimported untagged] in *; try done.
    apply negb_true_iff in H2. by rewrite H2 in Heq.
  - destruct v2 as [| | | s2| | |]; cbn [reimported untagged] in *; try done.
    apply negb_true_iff in H2. by rewrite H2 in Heq.
  - cbn [reimported untagged] in *. apply negb_true_iff in H1.
    rewrite H1 in Heq.
    destruct v2 as [| | | s2| | |]; cbn [reimported untagged] in *; try done.
    apply negb_true_iff in H2. by rewrite H2 in Heq.
  - destruct v2 as [| | | s2| l2 | |]; cbn [reimported untagged] in *;
      try done.
    { apply negb_true_iff in H2. by rewrite H2 in Heq. }
    injection Heq as Heq. f_equal.
    rewrite forallb_forall, <- List.Forall_forall in H1.
    rewrite forallb_forall, <- List.Forall_forall in H2.
    by apply (fmap_inj_Forall reimported (fun x => untagged x = true) l IH H1 l2).
  - destruct v2 as [| | | s2| | o2 |]; cbn [reimported untagged] in *;
      try done.
    { apply negb_true_iff in H2. by rewrite H2 in Heq. }
    injection Heq as Heq. f_equal.
    rewrite forallb_forall, <- List.Forall_forall in H1.
    rewrite forallb_forall, <- List.Forall_forall in H2.
    apply (fmap_inj_Forall
             (fun kx : list N * value => (fst kx, reimported (snd kx)))
             (fun kx => untagged (snd kx) = true) o); [|done|done|done].
    eapply List.Forall_impl; [|exact IH].
    intros [k x] Hx [k2 y] Hux Huy [= -> Hxy]. cbn in *.
    f_equal. by apply Hx.
  - destruct v2 as [| | | s2| | | buf2]; cbn [reimported untagged] in *;
      try done.
    { apply negb_true_iff in H2. by rewrite H2 in Heq. }
    injection Heq as Heq. f_equal.
    assert (Hlen : length buf = length buf2).
    { apply (f_equal length) in Heq.
      rewrite !length_app, !length_replicate in Heq. lia. }
    by apply app_inj_1 in Heq as [? _].
Qed.

(** X3.  The text keeps the value: two values without a string that starts
    with the sentinel, written with [exportReplacer] to the same text, are
    the same value. *)
Theorem exported_text_determines_value (max_arguments : N) (v1 v2 : value)
    (text : list N) :
  well_formed v1 = true -> well_formed v2 = true ->
  untagged v1 = true -> untagged v2 = true ->
  JSON_stringify (exportReplacer max_arguments) v1 = Some text ->
  JSON_stringify (exportReplacer max_arguments) v2 = Some text ->
  v1 = v2.
Proof.
  intros Hwf1 Hwf2 Hu1 Hu2 Htext1 Htext2.
  pose proof (JSON_parse_stringify _ _ _ Hwf1 Htext1) as Hp1.
  rewrite (JSON_parse_stringify _ _ _ Hwf2 Htext2) in Hp1.
  injection Hp1 as Hre. symmetry. by apply reimported_inj.
Qed.

Lemma exported_text_determines_value_witness :
  VArr [VBuf [x01]; VStr [120%N]] = VArr [VBuf [x01]; VStr [120%N]].
Proof.
  exact (exported_text_determines_value 65536
           (VArr [VBuf [x01]; VStr [120%N]]) (VArr [VBuf [x01]; VStr [120%N]])
           [91; 34; 95; 36; 65; 66; 92; 117; 48; 48; 48; 49; 34; 44; 34; 120;
            34; 93]%N
           eq_refl eq_refl eq_refl eq_refl eq_refl eq_refl).
Defined.
(** ** Export: how long it takes and what it writes *)

Lemma sum_list_fmap_insert {A} (f : A -> nat) (l : list A) (i : nat) (x y : A) :
  l !! i = Some x ->
  sum_list (f <$> <[i := y]> l) + f x = sum_list (f <$> l) + f y.
Proof.
  revert i. induction l as [|z l IH]; intros [|i] Hi; try done.
  - injection Hi as ->. simpl. lia.
  - simpl in Hi |- *. specialize (IH i Hi). fold_fmap. lia.
Qed.

Lemma events_due_init (db : list (list N * list value)) :
  NoDup (objectStoreNames db) ->
  events_due (ex_cursors (exportToJsonString db)) = export_events db.
Proof.
  intros Hnd. unfold exportToJsonString, export_events, events_due.
  destruct (Nat.eqb_spec (length (objectStoreNames db)) 0) as [Hz|_];
    cbn [ex_cursors].
  { unfold objectStoreNames in Hz. rewrite length_fmap in Hz.
    by destruct db. }
  unfold objectStoreNames. rewrite <- !list_fmap_compose. f_equal.
  apply list_fmap_ext. intros i [name records] Hi. cbn.
  by rewrite (store_records_at db i name records Hnd Hi).
Qed.

Lemma events_due_step (max_arguments : N) (s s' : export_state) (i : nat) :
  export_step max_arguments s (Success i) = Some s' ->
  S (events_due (ex_cursors s')) = events_due (ex_cursors s).
Proof.
  cbn [export_step]. destruct (ex_aborted s); [done|].
  destruct (ex_cursors s !! i) as [[name [allObjects [|r rest]| |]]|] eqn:Hi;
    try done; intros [= <-]; cbn [ex_cursors]; unfold events_due.
  - pose proof (sum_list_fmap_insert
      (fun c : list N * cursor =>
         match snd c with
         | CursorOpen _ remaining => S (length remaining)
         | _ => 0
         end) _ i _ (name, CursorDone) Hi) as H.
    cbn in H. lia.
  - pose proof (sum_list_fmap_insert
      (fun c : list N * cursor =>
         match snd c with
         | CursorOpen _ remaining => S (length remaining)
         | _ => 0
         end) _ i _ (name, CursorOpen (allObjects ++ [r]) rest) Hi) as H.
    cbn in H. lia.
Qed.

Lemma events_due_run (max_arguments : N) (evs : list engine_event) :
  forall s s',
    forallb is_success evs = true ->
    run (export_step max_arguments) s evs = Some s' ->
    length evs + events_due (ex_cursors s') = events_due (ex_cursors s).
Proof.
  induction evs as [|ev evs IH]; intros s s' Hok Hrun.
  - by injection Hrun as <-.
  - cbn [forallb] in Hok. apply andb_true_iff in Hok as [Hev Hok].
    rewrite run_cons in Hrun.
    destruct ev as [i|]; [|done].
    destruct (export_step max_arguments s (Success i)) as [s1|] eqn:Hstep;
      [|done].
    pose proof (events_due_step _ _ _ _ Hstep).
    specialize (IH _ _ Hok Hrun). cbn [length]. lia.
Qed.

Lemma events_due_settled (s : export_state) :
  events_due (ex_cursors s) = 0 <-> export_settled s = true.
Proof.
  unfold events_due, export_settled.
  induction (ex_cursors s) as [|[name [allObjects remaining| |]] cursors IH];
    cbn; [done| |done|done].
  split; [lia|done].
Qed.

Lemma events_due_open (max_arguments : N) (s : export_state) :
  ex_aborted s = false ->
  0 < events_due (ex_cursors s) ->
  exists i s', export_step max_arguments s (Success i) = Some s'.
Proof.
  intros Hlive Hdue.
  assert (exists i name allObjects remaining,
            ex_cursors s !! i = Some (name, CursorOpen allObjects remaining))
    as (i & name & allObjects & remaining & Hi).
  { unfold events_due in Hdue.
    induction (ex_cursors s) as [|[name [allObjects remaining| |]] cursors IH].
    - cbn in Hdue. lia.
    - by exists 0, name, allObjects, remaining.
    - destruct IH as (i & IH); [done|]. by exists (S i).
    - destruct IH as (i & IH); [done|]. by exists (S i). }
  exists i. cbn [export_step]. rewrite Hlive, Hi.
  destruct remaining; by eexists.
Qed.

(** X4.  An export takes one cursor event for each record and one more for
    each store: while its events succeed they never exceed that number,
    every cursor is done exactly when that many have been delivered, until
    then some cursor still has an event due, and the callback is not made
    before. *)
Theorem exportToJsonString_takes_one_event_per_record
    (max_arguments : N) (db : list (list N * list value))
    (evs : list engine_event) (s : export_state) :
  NoDup (objectStoreNames db) ->
  forallb is_success evs = true ->
  run (export_step max_arguments) (exportToJsonString db) evs = Some s ->
  length evs <= export_events db /\
  (export_settled s = true <-> length evs = export_events db) /\
  (length evs < export_events db ->
   exists i s', export_step max_arguments s (Success i) = Some s') /\
  (ex_calls s <> [] -> length evs = export_events db).
Proof.
  intros Hnd Hok Hrun.
  pose proof (events_due_run _ _ _ _ Hok Hrun) as Hdue.
  rewrite (events_due_init db Hnd) in Hdue.
  assert (Hinv : export_inv max_arguments db s)
    by (eapply export_inv_run; [done|apply export_inv_init|done|done]).
  assert (Hset : export_settled s = true <-> length evs = export_events db)
    by (rewrite <- events_due_settled; lia).
  split; [lia|]. split; [done|]. split.
  - intros Hlt. apply events_due_open; [apply Hinv|lia].
  - rewrite (exi_calls _ _ _ Hinv).
    destruct (Nat.eqb_spec (length (objectStoreNames db))
                (length (keys (exportObject s)))) as [Hlen|Hlen]; [|done].
    intros _. by apply Hset, (export_inv_settled _ _ _ Hnd Hinv).
Qed.

Lemma exportToJsonString_takes_one_event_per_record_witness :
  let db := [([97%N], [VNum 1 0; VNum 2 0]); ([98%N], [])] in
  exists s,
    run (export_step 65536) (exportToJsonString db)
      [Success 0; Success 1; Success 0; Success 0] = Some s /\
    export_events db = 4 /\
    export_settled s = true.
Proof.
  eexists. split; [vm_compute; reflexivity|]. split; [reflexivity|].
  apply (exportToJsonString_takes_one_event_per_record 65536
           [([97%N], [VNum 1 0; VNum 2 0]); ([98%N], [])]
           [Success 0; Success 1; Success 0; Success 0]).
  - apply (bool_decide_unpack _); vm_compute; exact I.
  - reflexivity.
  - vm_compute. reflexivity.
  - reflexivity.
Defined.

(** X5.  The text an export hands to its callback is JSON: read without a
    reviver it is an object with one key for each store, no other key, and
    under each key the array of that store's records in cursor order, their
    byte buffers written as tagged strings. *)
Theorem exportToJsonString_text_is_json
    (max_arguments : N) (db : list (list N * list value))
    (evs : list engine_event) (s : export_state) (text : list N) :
  NoDup (objectStoreNames db) ->
  (forall name records r,
     (name, records) ∈ db -> r ∈ records -> well_formed r = true) ->
  forallb is_success evs = true ->
  run (export_step max_arguments) (exportToJsonString db) evs = Some s ->
  ex_calls s = [(None, Some text)] ->
  exists o,
    parse_text text = Some (VObj o) /\
    keys o ≡ₚ objectStoreNames db /\
    forall name, name ∈ objectStoreNames db ->
      obj_get o name = Some (VArr (tag_buffers <$> store_records db name)).
Proof.
  intros Hnd Hwf Hok Hrun Hcalls.
  assert (Hinv : export_inv max_arguments db s)
    by (eapply export_inv_run; [done|apply export_inv_init|done|done]).
  destruct (export_call_text _ _ _ _ Hnd Hinv Hcalls)
    as (Hset & Hproto & Htext).
  apply JSON_stringify_written in Htext as [_ ->].
  pose proof (proj2 (export_inv_settled _ _ _ Hnd Hinv) (conj Hset Hproto))
    as Hlen.
  pose proof (export_inv_well_formed _ _ _ Hinv Hwf) as Hwfo.
  exists ((fun kx : list N * value => (fst kx, tag_buffers (snd kx)))
            <$> exportObject s).
  split; [|split].
  - apply (parse_text_written (tag_buffers (VObj (exportObject s)))).
    + apply json_tree_tag_buffers.
    + by apply well_formed_tag_buffers.
  - replace (keys ((fun kx : list N * value => (fst kx, tag_buffers (snd kx)))
                     <$> exportObject s))
      with (keys (exportObject s))
      by (unfold keys; rewrite <- list_fmap_compose; by apply list_fmap_ext).
    apply submseteq_length_Permutation; [|lia].
    apply NoDup_submseteq.
    + apply property_order_NoDup, Hinv.
    + apply Hinv.
  - intros name Hname. rewrite obj_get_fmap.
    rewrite (export_inv_records _ _ _ _ Hinv Hset Hname); [done|].
    by intros ->.
Qed.

Lemma exportToJsonString_text_is_json_witness :
  let db := [([97%N], [VBuf [x01]; VNum 5 0])] in
  let text := [123;34;97;34;58;91;34;95;36;65;66;92;117;48;48;48;49;34;44;53;
               93;125]%N in
  exists s o,
    run (export_step 65536) (exportToJsonString db)
      [Success 0; Success 0; Success 0]
    = Some s /\
    ex_calls s = [(None, Some text)] /\
    parse_text text = Some (VObj o) /\
    obj_get o [97%N] = Some (VArr [VStr [95; 36; 65; 66; 1]%N; VNum 5 0]).
Proof.
  intros db text.
  assert (Hexport : exists s,
             run (export_step 65536) (exportToJsonString db)
               [Success 0; Success 0; Success 0] = Some s /\
             ex_calls s = [(None, Some text)]).
  { eexists. split; vm_compute; reflexivity. }
  destruct Hexport as (s & Hrun & Hcalls).
  destruct (exportToJsonString_text_is_json 65536 db
              [Success 0; Success 0; Success 0] s text
              ltac:(apply (bool_decide_unpack _); vm_compute; exact I)
              ltac:(apply records_Forall; repeat constructor)
              eq_refl Hrun Hcalls)
    as (o & Hparse & _ & Hget).
  exists s, o. split; [exact Hrun|]. split; [exact Hcalls|].
  split; [exact Hparse|].
  apply (Hget [97%N]). by apply list_elem_of_here.
Defined.
(** ** Clear: when it reports and what it leaves *)

Lemma engine_clear_at (db : list (list N * list value)) (i : nat)
    (name : list N) (records : list value) :
  NoDup (fst <$> db) ->
  db !! i = Some (name, records) ->
  engine_clear db name = <[i := (name, [])]> db.
Proof.
  revert i. induction db as [|[n rs] db IH]; intros i Hnd Hi; [done|].
  cbn [fmap list_fmap] in Hnd. fold_fmap.
  apply list.NoDup_cons in Hnd as [Hn Hnd].
  cbn [engine_clear]. destruct i as [|i].
  - injection Hi as -> ->. by rewrite decide_True.
  - cbn in Hi. rewrite decide_False.
    + cbn. f_equal. by apply IH.
    + intros ->. apply Hn, list_elem_of_fmap.
      exists (n, records). split; [done|]. by eapply list_elem_of_lookup_2.
Qed.

Lemma existsb_filter_nil {A} (f : A -> bool) (l : list A) :
  existsb f l = false <-> length (filter (fun x => f x = true) l) = 0.
Proof.
  induction l as [|x l IH]; [done|]. cbn [existsb].
  destruct (f x) eqn:Hx.
  - rewrite (filter_cons_True (fun x => f x = true) x) by done.
    cbn. split; [done|lia].
  - rewrite (filter_cons_False (fun x => f x = true) x) by congruence.
    by cbn.
Qed.

Lemma clear_progress_init (db : list (list N * list value)) :
  NoDup (objectStoreNames db) -> clear_progress db (clearDatabase db).
Proof.
  intros Hnd.
  split; cbn [clearDatabase cl_names cl_requests cl_database cl_calls].
  - done.
  - apply list_eq. intros j. rewrite !list_lookup_fmap.
    by destruct (objectStoreNames db !! j).
  - done.
  - intros i name pending. unfold objectStoreNames.
    rewrite <- list_fmap_compose, list_lookup_fmap.
    destruct (db !! i) as [[n rs]|] eqn:Hi; [|done].
    cbn. intros [= <- <-]. by rewrite (store_records_at db i n rs Hnd Hi).
  - destruct db as [|st db]; [done|]. by cbn.
Qed.

Lemma clear_progress_step (db : list (list N * list value))
    (s s' : clear_state) (i : nat) :
  NoDup (objectStoreNames db) ->
  clear_inv s -> clear_progress db s ->
  clear_step s (Success i) = Some s' ->
  clear_progress db s'.
Proof.
  intros Hnd Hinv Hp. cbn [clear_step]. rewrite (cli_live _ Hinv).
  destruct (cl_requests s !! i) as [[name [|]]|] eqn:Hi; try done.
  intros [= <-].
  pose proof (clp_database _ _ Hp _ _ _ Hi) as Hdb.
  assert (Hclear : engine_clear (cl_database s) name
                   = <[i := (name, [])]> (cl_database s)).
  { eapply engine_clear_at; [|exact Hdb]. by rewrite (clp_stores _ _ Hp). }
  split; cbn [cl_names cl_requests cl_database cl_calls].
  - apply Hp.
  - rewrite list_fmap_insert. cbn [fst].
    rewrite <- (clp_requests _ _ Hp).
    apply list_insert_id. by rewrite list_lookup_fmap, Hi.
  - rewrite Hclear, list_fmap_insert. cbn [fst].
    rewrite <- (clp_stores _ _ Hp).
    apply list_insert_id. by rewrite list_lookup_fmap, Hdb.
  - intros j n pending. rewrite Hclear.
    destruct (decide (j = i)) as [->|Hne].
    + rewrite !list_lookup_insert_eq
        by (by eapply lookup_lt_Some).
      by intros [= <- <-].
    + rewrite !list_lookup_insert_ne by done. apply Hp.
  - assert (Hdbne : (length db =? 0)%nat = false).
    { apply Nat.eqb_neq. intros Hz.
      apply lookup_lt_Some in Hi.
      pose proof (f_equal length (clp_requests _ _ Hp)) as Hl.
      unfold objectStoreNames in Hl. rewrite !length_fmap in Hl. lia. }
    rewrite (cli_calls _ Hinv)
      by (apply existsb_exists; exists (name, true); split;
          [by eapply list_elem_of_In, list_elem_of_lookup_2|done]).
    rewrite Hdbne, orb_false_r.
    pose proof (cli_count _ Hinv) as Hcount.
    pose proof (filter_insert_false (fun r : list N * bool => snd r = true)
                  (cl_requests s) i (name, true) (name, false) Hi eq_refl
                  ltac:(done)) as Hfilter.
    change (match length (cl_names s) with
            | 0 => false
            | S m' => cl_count s =? m'
            end) with (S (cl_count s) =? length (cl_names s)).
    destruct (Nat.eqb_spec (S (cl_count s)) (length (cl_names s))) as [He|He].
    + rewrite (proj2 (existsb_filter_nil snd _)); [done|]. lia.
    + destruct (existsb snd (<[i:=(name, false)]> (cl_requests s))) eqn:Hex;
        [done|].
      apply existsb_filter_nil in Hex. lia.
Qed.

Lemma clear_progress_run (db : list (list N * list value))
    (evs : list engine_event) :
  NoDup (objectStoreNames db) ->
  forall s s',
    clear_inv s -> clear_progress db s ->
    forallb is_success evs = true ->
    run clear_step s evs = Some s' ->
    clear_inv s' /\ clear_progress db s' /\
    cl_count s' = cl_count s + length evs.
Proof.
  intros Hnd. induction evs as [|ev evs IH]; intros s s' Hinv Hp Hok Hrun.
  - injection Hrun as <-. split; [done|]. split; [done|]. cbn [length]. lia.
  - cbn [forallb] in Hok. apply andb_true_iff in Hok as [Hev Hok].
    rewrite run_cons in Hrun.
    destruct ev as [i|]; [|done].
    destruct (clear_step s (Success i)) as [s1|] eqn:Hstep; [|done].
    destruct (IH s1 s') as (H1 & H2 & H3); try done.
    + by eapply clear_inv_step.
    + by eapply clear_progress_step.
    + split; [done|]. split; [done|].
      rewrite H3. cbn [length].
      cbn [clear_step] in Hstep. rewrite (cli_live _ Hinv) in Hstep.
      destruct (cl_requests s !! i) as [[name [|]]|]; try done.
      injection Hstep as <-. cbn [cl_count]. lia.
Qed.

Lemma existsb_false_lookup {A} (f : A -> bool) (l : list A) (i : nat) (x : A) :
  existsb f l = false -> l !! i = Some x -> f x = false.
Proof.
  intros Hex Hi. destruct (f x) eqn:Hx; [|done].
  rewrite <- Hex. symmetry. apply existsb_exists. exists x.
  split; [|done]. by eapply list_elem_of_In, list_elem_of_lookup_2.
Qed.

Lemma clear_progress_emptied (db : list (list N * list value))
    (s : clear_state) :
  clear_progress db s -> existsb snd (cl_requests s) = false ->
  cl_database s = emptied db.
Proof.
  intros Hp Hex. apply list_eq. intros j. unfold emptied.
  rewrite list_lookup_fmap.
  pose proof (f_equal (fun l => l !! j) (clp_requests _ _ Hp)) as Hname.
  pose proof (f_equal (fun l => l !! j) (clp_stores _ _ Hp)) as Hstore.
  cbn beta in Hname, Hstore. unfold objectStoreNames in Hname, Hstore.
  rewrite !list_lookup_fmap in Hname. rewrite !list_lookup_fmap in Hstore.
  destruct (cl_requests s !! j) as [[name pending]|] eqn:Hj.
  - rewrite (clp_database _ _ Hp _ _ _ Hj).
    pose proof (existsb_false_lookup _ _ _ _ Hex Hj) as Hpending.
    cbn in Hpending. subst pending.
    destruct (db !! j) as [[n rs]|]; [|done].
    cbn in Hname |- *. by injection Hname as ->.
  - destruct (db !! j); [done|].
    by destruct (cl_database s !! j).
Qed.

(** X6.  A clear of a database with stores, whose requests succeed in any
    order, calls back once, with a null error, when the last of them has
    succeeded: that is after as many events as there are stores, and every
    store is then empty.  Until then a store whose request is outstanding
    holds its records, and a store whose request has succeeded is empty. *)
Theorem clearDatabase_calls_back_once_when_all_cleared
    (db : list (list N * list value)) (evs : list engine_event)
    (s : clear_state) :
  NoDup (objectStoreNames db) ->
  db <> [] ->
  forallb is_success evs = true ->
  run clear_step (clearDatabase db) evs = Some s ->
  length evs <= length db /\
  cl_calls s = (if (length evs =? length db)%nat then [None] else []) /\
  (forall i name pending,
     cl_requests s !! i = Some (name, pending) ->
     store_records (cl_database s) name
     = if pending : bool then store_records db name else []) /\
  (length evs = length db ->
   cl_database s = emptied db /\ forall ev, clear_step s ev = None).
Proof.
  intros Hnd Hne Hok Hrun.
  destruct (clear_progress_run db evs Hnd _ _ (clear_inv_init db)
              (clear_progress_init db Hnd) Hok Hrun) as (Hinv & Hp & Hc).
  cbn [clearDatabase cl_count] in Hc.
  pose proof (cli_count _ Hinv) as Hcount.
  rewrite (clp_names _ _ Hp) in Hcount.
  unfold objectStoreNames in Hcount. rewrite length_fmap in Hcount.
  assert (Hidle : length evs = length db ->
                  existsb snd (cl_requests s) = false)
    by (intros Hall; apply existsb_filter_nil; lia).
  split; [lia|]. split; [|split].
  - rewrite (clp_calls _ _ Hp).
    replace (length db =? 0)%nat with false
      by (symmetry; apply Nat.eqb_neq; by destruct db).
    rewrite orb_false_r.
    destruct (Nat.eqb_spec (length evs) (length db)) as [Hall|Hmore].
    + by rewrite Hidle.
    + destruct (existsb snd (cl_requests s)) eqn:Hex; [done|].
      apply existsb_filter_nil in Hex. lia.
  - intros i name pending Hi.
    apply (store_records_at (cl_database s) i).
    + unfold objectStoreNames. by rewrite (clp_stores _ _ Hp).
    + by apply Hp.
  - intros Hall. split.
    + apply clear_progress_emptied; [done|by apply Hidle].
    + intros ev. apply clear_idle_stuck. by apply Hidle.
Qed.

Lemma clearDatabase_calls_back_once_when_all_cleared_witness :
  let db := [([97%N], [VNum 1 0]); ([98%N], [VNum 2 0])] in
  exists s,
    run clear_step (clearDatabase db) [Success 1; Success 0] = Some s /\
    cl_calls s = [None] /\
    cl_database s = [([97%N], []); ([98%N], [])].
Proof.
  intros db. eexists. split; [vm_compute; reflexivity|].
  destruct (clearDatabase_calls_back_once_when_all_cleared db
              [Success 1; Success 0] _
              ltac:(apply (bool_decide_unpack _); vm_compute; exact I)
              ltac:(discriminate) eq_refl eq_refl)
    as (_ & Hcalls & _ & Hdone).
  split; [exact Hcalls|]. exact (proj1 (Hdone eq_refl)).
Defined.
(** ** Import: what it adds and when it reports *)

Lemma import_step_shape (db0 : list (list N * list value))
    (o0 : list (list N * value)) (s s' : import_state) (i : nat) :
  array_valued o0 ->
  import_inv db0 o0 s ->
  import_step s (Success i) = Some s' ->
  exists name count v rest o,
    im_requests s !! i
    = Some {| rq_store := name; rq_count := count;
              rq_pending := Some v :: (Some <$> rest) |} /\
    importObject s = VObj o /\
    im_calls s = [] /\
    im_requests s'
    = <[i := {| rq_store := name; rq_count := S count;
                rq_pending := Some <$> rest |}]> (im_requests s) /\
    (rest = [] ->
     importObject s' = VObj (obj_delete name o) /\
     im_calls s'
     = if (length (keys (obj_delete name o)) =? 0)%nat then [None] else []) /\
    (rest <> [] -> importObject s' = VObj o /\ im_calls s' = []).
Proof.
  intros Harr Hinv Hstep. unfold import_step in Hstep.
  rewrite (imi_live _ _ _ Hinv) in Hstep.
  destruct (im_requests s !! i) as [[name count [|toAdd rest]]|] eqn:Hi;
    try discriminate.
  destruct (imi_progress _ _ _ Hinv i _ Hi)
    as (records & added & Hdb0 & Hitems & Hcount & Hdb).
  cbn [rq_store rq_count rq_pending] in Hdb0, Hitems, Hcount, Hdb.
  destruct (imi_object _ _ _ Hinv) as (o & Hio & Hlive).
  assert (Hget : obj_get o name = obj_get o0 name) by by apply (Hlive i _ Hi).
  destruct (lodash_forEach_array_valued o0 name Harr) as (l & Hentry & Hl).
  { rewrite Hitems. by destruct added. }
  rewrite Hl in Hitems.
  apply fmap_Some_split in Hitems as (v & l' & -> & -> & ->).
  assert (Hcalls : im_calls s = []).
  { apply (imi_calls _ _ _ Hinv). by eapply existsb_pending. }
  assert (Hcond : strict_eq_count (S count)
                    (get_prop (importObject s) name ≫= length_prop)
                  = bool_decide (l' = [])).
  { rewrite Hio. cbn [get_prop]. rewrite Hget, Hentry.
    cbn [mbind option_bind length_prop].
    rewrite strict_eq_count_length, length_app. cbn [length].
    destruct l' as [|x l'].
    - rewrite bool_decide_eq_true_2 by done. apply Nat.eqb_eq. simpl. lia.
    - rewrite bool_decide_eq_false_2 by done. apply Nat.eqb_neq. simpl. lia. }
  rewrite Hcond, Hio, Hcalls in Hstep.
  exists name, count, v, l', o.
  split; [done|]. split; [done|]. split; [done|].
  destruct (decide (l' = [])) as [->|Hmore].
  - rewrite bool_decide_eq_true_2 in Hstep by done.
    cbn [delete_prop lodash_keys] in Hstep. injection Hstep as <-.
    cbn [im_requests importObject im_calls]. split; [done|]. split; [|done].
    intros _. split; [done|].
    by destruct (length (keys (obj_delete name o)) =? 0)%nat.
  - rewrite bool_decide_eq_false_2 in Hstep by done. injection Hstep as <-.
    cbn [im_requests importObject im_calls]. split; [done|]. split; [done|].
    by intros _.
Qed.

Lemma finished_insert (requests : list add_requests) (i : nat)
    (r r' : add_requests) (k : list N) :
  requests !! i = Some r -> round_completed r = false ->
  finished (<[i := r']> requests) k
  = finished requests k
    || (bool_decide (rq_store r' = k) && round_completed r').
Proof.
  unfold finished. revert i.
  induction requests as [|r0 requests IH]; intros [|i] Hi Hr; try done.
  - injection Hi as ->.
    change (<[0 := r']> (r :: requests)) with (r' :: requests).
    cbn [existsb]. rewrite Hr, andb_false_r, orb_false_l. apply orb_comm.
  - change (<[S i := r']> (r0 :: requests)) with (r0 :: <[i := r']> requests).
    cbn [existsb]. rewrite (IH i Hi Hr). by rewrite orb_assoc.
Qed.

Lemma remaining_document_ext (requests requests' : list add_requests)
    (o0 : list (list N * value)) :
  (forall k, finished requests' k = finished requests k) ->
  remaining_document requests' o0 = remaining_document requests o0.
Proof.
  intros Hsame. unfold remaining_document. apply list_filter_iff.
  intros [k v]. cbn. by rewrite Hsame.
Qed.

Lemma remaining_document_delete (requests requests' : list add_requests)
    (name : list N) (o0 : list (list N * value)) :
  (forall k, finished requests' k
             = finished requests k || bool_decide (name = k)) ->
  remaining_document requests' o0
  = obj_delete name (remaining_document requests o0).
Proof.
  intros Hmore. unfold remaining_document.
  induction o0 as [|[k v] o0 IH]; [done|].
  destruct (finished requests k) eqn:Hk.
  - rewrite (filter_cons_False _ (k, v)) by (cbn; by rewrite Hmore, Hk).
    by rewrite (filter_cons_False _ (k, v)) by (cbn; by rewrite Hk).
  - rewrite (filter_cons_True (fun kx : list N * value =>
                                 finished requests (fst kx) = false) (k, v))
      by done.
    cbn [obj_delete]. destruct (decide (name = k)) as [->|Hne].
    + rewrite (filter_cons_False _ (k, v)); [done|].
      cbn. rewrite Hmore, Hk. by rewrite bool_decide_eq_true_2.
    + rewrite (filter_cons_True _ (k, v)); [by f_equal|].
      cbn. rewrite Hmore, Hk. by rewrite bool_decide_eq_false_2.
Qed.

Lemma import_done_init (db : list (list N * list value))
    (o0 : list (list N * value)) :
  import_done o0
    {| im_snapshot := db;
       im_database := db;
       importObject := VObj o0;
       im_requests :=
         (fun storeName =>
            {| rq_store := storeName; rq_count := 0;
               rq_pending := lodash_forEach (obj_get o0 storeName) |})
           <$> objectStoreNames db;
       im_aborted := false;
       im_calls := [] |}.
Proof.
  assert (Hnone : forall names : list (list N),
            existsb round_completed
              ((fun storeName =>
                  {| rq_store := storeName; rq_count := 0;
                     rq_pending := lodash_forEach (obj_get o0 storeName) |})
                 <$> names) = false).
  { intros names. induction names as [|n names IH]; [done|].
    cbn [fmap list_fmap existsb]. fold_fmap. rewrite IH.
    unfold round_completed. cbn [rq_count]. by rewrite andb_false_r. }
  assert (Hfin : forall (names : list (list N)) k,
            finished
              ((fun storeName =>
                  {| rq_store := storeName; rq_count := 0;
                     rq_pending := lodash_forEach (obj_get o0 storeName) |})
                 <$> names) k = false).
  { intros names k. unfold finished.
    induction names as [|n names IH]; [done|].
    cbn [fmap list_fmap existsb]. fold_fmap. rewrite IH.
    unfold round_completed. cbn [rq_count]. by rewrite !andb_false_r. }
  split; cbn [importObject im_requests im_calls].
  - f_equal. unfold remaining_document. symmetry.
    apply filter_Forall_id, List.Forall_forall. intros [k v] _. apply Hfin.
  - intros _. by rewrite Hnone.
Qed.

Lemma import_done_step (db0 : list (list N * list value))
    (o0 : list (list N * value)) (s s' : import_state) (i : nat) :
  array_valued o0 ->
  import_inv db0 o0 s -> import_done o0 s ->
  import_step s (Success i) = Some s' ->
  import_done o0 s'.
Proof.
  intros Harr Hinv Hdone Hstep.
  destruct (import_step_shape _ _ _ _ _ Harr Hinv Hstep)
    as (name & count & v & rest & o & Hi & Hio & Hcalls & Hreq & Hlast & Hmore).
  pose proof (imd_object _ _ Hdone) as Ho. rewrite Hio in Ho.
  injection Ho as ->.
  assert (Hfin : forall k,
            finished (im_requests s') k
            = finished (im_requests s) k
              || (bool_decide (name = k)
                  && round_completed
                       {| rq_store := name; rq_count := S count;
                          rq_pending := Some <$> rest |})).
  { intros k. rewrite Hreq. by rewrite (finished_insert _ _ _ _ _ Hi). }
  destruct (decide (rest = [])) as [->|Hrest].
  - destruct (Hlast eq_refl) as [Ho' Hcalls'].
    assert (Hrem : remaining_document (im_requests s') o0
                   = obj_delete name (remaining_document (im_requests s) o0)).
    { apply remaining_document_delete. intros k. rewrite Hfin.
      by rewrite andb_true_r. }
    split.
    + by rewrite Ho', Hrem.
    + intros _. rewrite Hcalls', Hrem.
      replace (existsb round_completed (im_requests s')) with true.
      * cbn [andb].
        by destruct (obj_delete name (remaining_document (im_requests s) o0)).
      * symmetry. apply existsb_exists.
        exists {| rq_store := name; rq_count := S count; rq_pending := [] |}.
        split; [|done]. apply list_elem_of_In. rewrite Hreq.
        apply (list_elem_of_lookup_2 _ i).
        apply list_lookup_insert_eq. by eapply lookup_lt_Some.
  - destruct (Hmore Hrest) as [Ho' Hcalls'].
    assert (Hnot : round_completed
                     {| rq_store := name; rq_count := S count;
                        rq_pending := Some <$> rest |} = false).
    { unfold round_completed. cbn [rq_pending].
      rewrite bool_decide_eq_false_2; [done|]. by destruct rest. }
    split.
    + rewrite Ho'. f_equal. symmetry. apply remaining_document_ext.
      intros k. by rewrite Hfin, Hnot, andb_false_r, orb_false_r.
    + intros Hset.
      assert (Hi' : im_requests s' !! i
                    = Some {| rq_store := name; rq_count := S count;
                              rq_pending := Some <$> rest |}).
      { rewrite Hreq. apply list_lookup_insert_eq. by eapply lookup_lt_Some. }
      pose proof (import_settled_pending _ _ _ Hset Hi') as Hp.
      cbn [rq_pending] in Hp. by destruct rest.
Qed.

Lemma import_done_run (db0 : list (list N * list value))
    (o0 : list (list N * value)) (evs : list engine_event) :
  NoDup (objectStoreNames db0) -> array_valued o0 ->
  forall s s',
    import_inv db0 o0 s -> import_done o0 s ->
    forallb is_success evs = true ->
    run import_step s evs = Some s' ->
    import_inv db0 o0 s' /\ import_done o0 s'.
Proof.
  intros Hnd Harr. induction evs as [|ev evs IH]; intros s s' Hinv Hdone Hok Hrun.
  - by injection Hrun as <-.
  - cbn [forallb] in Hok. apply andb_true_iff in Hok as [Hev Hok].
    rewrite run_cons in Hrun.
    destruct ev as [i|]; [|done].
    destruct (import_step s (Success i)) as [s1|] eqn:Hstep; [|done].
    apply (IH s1 s'); try done.
    + by eapply import_inv_step.
    + by eapply import_done_step.
Qed.

Lemma lodash_forEach_document (o0 : list (list N * value)) (name : list N) :
  array_valued o0 ->
  lodash_forEach (obj_get o0 name) = Some <$> document_records o0 name.
Proof.
  intros Harr. unfold document_records.
  destruct (obj_get o0 name) as [v|] eqn:Hget; [|done].
  by destruct (Harr _ _ Hget) as [l ->].
Qed.

Lemma fmap_Some_app (l added : list value) (pending : list (option value)) :
  Some <$> l = (Some <$> added) ++ pending ->
  exists rest, l = added ++ rest /\ pending = Some <$> rest.
Proof.
  revert l. induction added as [|x added IH]; intros l Heq.
  - exists l. split; [done|]. by symmetry.
  - destruct l as [|y l]; [done|]. cbn in Heq. fold_fmap.
    injection Heq as -> Heq.
    destruct (IH l Heq) as (rest & -> & ->). by exists rest.
Qed.

Lemma import_inv_round (db0 : list (list N * list value))
    (o0 : list (list N * value)) (s : import_state) (name : list N) :
  NoDup (objectStoreNames db0) -> array_valued o0 ->
  import_inv db0 o0 s ->
  name ∈ objectStoreNames db0 ->
  exists i r added rest,
    im_requests s !! i = Some r /\
    rq_store r = name /\
    document_records o0 name = added ++ rest /\
    rq_pending r = Some <$> rest /\
    rq_count r = length added /\
    store_records (im_database s) name = store_records db0 name ++ added.
Proof.
  intros Hnd Harr Hinv Hname.
  apply list_elem_of_lookup_1 in Hname as [i Hi].
  assert (exists r, im_requests s !! i = Some r /\ rq_store r = name)
    as (r & Hr & Hstore).
  { rewrite <- (imi_stores _ _ _ Hinv), list_lookup_fmap in Hi.
    destruct (im_requests s !! i) as [r|]; [|done].
    exists r. split; [done|]. by injection Hi. }
  destruct (imi_progress _ _ _ Hinv i r Hr)
    as (records & added & Hdb0 & Hitems & Hcount & Hdb).
  rewrite Hstore in Hdb0, Hitems, Hdb.
  rewrite (lodash_forEach_document _ _ Harr) in Hitems.
  apply fmap_Some_app in Hitems as (rest & Hdoc & Hpending).
  exists i, r, added, rest. repeat split; try done.
  rewrite (store_records_at db0 i name records Hnd Hdb0).
  apply (store_records_at (im_database s) i); [|done].
  unfold objectStoreNames. by rewrite (imi_database _ _ _ Hinv).
Qed.

(** X7.  An import adds and never removes: while its requests succeed, in
    any order, the stores stay the same, each store holds the records it
    had followed by the first so many of the values the document lists for
    it, and once every request has succeeded, by all of them in order. *)
Theorem importFromJsonString_appends_to_stores
    (db : list (list N * list value)) (text : list N)
    (o0 : list (list N * value)) (s0 s : import_state)
    (evs : list engine_event) :
  NoDup (objectStoreNames db) ->
  JSON_parse text importResolver = Some (VObj o0) ->
  array_valued o0 ->
  importFromJsonString db text = Started s0 ->
  forallb is_success evs = true ->
  run import_step s0 evs = Some s ->
  objectStoreNames (im_database s) = objectStoreNames db /\
  (forall name, name ∈ objectStoreNames db ->
     exists added,
       added `prefix_of` document_records o0 name /\
       store_records (im_database s) name = store_records db name ++ added) /\
  (import_settled s = true ->
   forall name, name ∈ objectStoreNames db ->
     store_records (im_database s) name
     = store_records db name ++ document_records o0 name).
Proof.
  intros Hnd Hparse Harr Hstart Hok Hrun.
  rewrite (importFromJsonString_started _ _ _ Hparse) in Hstart.
  injection Hstart as <-.
  assert (Hinv : import_inv db o0 s)
    by (eapply import_inv_run; [done|done|apply import_inv_init|done|done]).
  split; [apply Hinv|]. split.
  - intros name Hname.
    destruct (import_inv_round _ _ _ _ Hnd Harr Hinv Hname)
      as (i & r & added & rest & _ & _ & Hdoc & _ & _ & Hdb).
    exists added. split; [by exists rest|done].
  - intros Hset name Hname.
    destruct (import_inv_round _ _ _ _ Hnd Harr Hinv Hname)
      as (i & r & added & rest & Hr & _ & Hdoc & Hpending & _ & Hdb).
    rewrite (import_settled_pending _ _ _ Hset Hr) in Hpending.
    destruct rest; [|done]. by rewrite Hdoc, app_nil_r.
Qed.

Lemma importFromJsonString_appends_to_stores_witness :
  let db := [([97%N], [VNum 1 0]); ([98%N], [])] in
  let text := [123; 34; 97; 34; 58; 91; 50; 44; 51; 93; 125]%N in
  exists s0 s,
    importFromJsonString db text = Started s0 /\
    run import_step s0 [Success 0; Success 0] = Some s /\
    store_records (im_database s) [97%N] = [VNum 1 0; VNum 2 0; VNum 3 0].
Proof.
  intros db text.
  assert (Hstart : exists s0, importFromJsonString db text = Started s0)
    by (eexists; vm_compute; reflexivity).
  destruct Hstart as (s0 & Hstart).
  assert (Hrun : exists s, run import_step s0 [Success 0; Success 0] = Some s
                           /\ import_settled s = true).
  { vm_compute in Hstart. injection Hstart as <-.
    eexists. split; vm_compute; reflexivity. }
  destruct Hrun as (s & Hrun & Hset).
  exists s0, s. split; [exact Hstart|]. split; [exact Hrun|].
  destruct (importFromJsonString_appends_to_stores db text
              [([97%N], VArr [VNum 2 0; VNum 3 0])] s0 s
              [Success 0; Success 0]
              ltac:(apply (bool_decide_unpack _); vm_compute; exact I)
              ltac:(vm_compute; reflexivity)
              ltac:(intros k v;
                    cbn [obj_get];
                    destruct (decide (k = [97%N])); [|done];
                    intros [= <-]; by eexists)
              Hstart eq_refl Hrun) as (_ & _ & Hall).
  exact (Hall Hset [97%N] ltac:(apply list_elem_of_here)).
Defined.

Lemma finished_round (requests : list add_requests) (k : list N) :
  finished requests k = true <->
  exists i r, requests !! i = Some r /\ rq_store r = k /\
              rq_pending r = [] /\ 0 < rq_count r.
Proof.
  unfold finished, round_completed. rewrite existsb_exists. split.
  - intros (r & Hr & Hc).
    apply andb_true_iff in Hc as [Hk Hc]. apply andb_true_iff in Hc as [Hp Hn].
    apply list_elem_of_In, list_elem_of_lookup_1 in Hr as [i Hi].
    exists i, r. split; [done|].
    split; [by apply bool_decide_eq_true in Hk|].
    split; [by apply bool_decide_eq_true in Hp|by apply Nat.ltb_lt].
  - intros (i & r & Hi & Hk & Hp & Hn). exists r. split.
    + by eapply list_elem_of_In, list_elem_of_lookup_2.
    + rewrite !andb_true_iff. split; [by apply bool_decide_eq_true|].
      split; [by apply bool_decide_eq_true|by apply Nat.ltb_lt].
Qed.

Lemma remaining_document_nil (requests : list add_requests)
    (o0 : list (list N * value)) :
  remaining_document requests o0 = [] <->
  forall k, k ∈ keys o0 -> finished requests k = true.
Proof.
  unfold remaining_document, keys. induction o0 as [|[k v] o0 IH].
  - split; [|done]. intros _ k Hk. by apply elem_of_nil in Hk.
  - destruct (finished requests k) eqn:Hk.
    + rewrite (filter_cons_False _ (k, v)) by (cbn; by rewrite Hk).
      rewrite IH. cbn [fmap list_fmap]. fold_fmap. split.
      * intros Hall k' [->|Hk']%elem_of_cons; [done|by apply Hall].
      * intros Hall k' Hk'. apply Hall. by apply list_elem_of_further.
    + rewrite (filter_cons_True _ (k, v)) by done. split; [done|].
      intros Hall. specialize (Hall k). cbn [fmap list_fmap fst] in Hall.
      rewrite Hk in Hall. discriminate Hall. apply list_elem_of_here.
Qed.

Lemma import_inv_completed_entry (db0 : list (list N * list value))
    (o0 : list (list N * value)) (s : import_state) (i : nat)
    (r : add_requests) :
  array_valued o0 -> import_inv db0 o0 s ->
  im_requests s !! i = Some r -> rq_pending r = [] -> 0 < rq_count r ->
  rq_store r ∈ objectStoreNames db0 /\
  exists v l, obj_get o0 (rq_store r) = Some (VArr (v :: l)).
Proof.
  intros Harr Hinv Hr Hp Hn. split.
  - eapply list_elem_of_lookup_2, request_store; [apply Hinv|done].
  - destruct (imi_progress _ _ _ Hinv i r Hr)
      as (records & added & _ & Hitems & Hcount & _).
    rewrite Hp, app_nil_r in Hitems.
    destruct (lodash_forEach_array_valued o0 (rq_store r) Harr)
      as (l & Hentry & Hl).
    { rewrite Hitems. destruct added; [cbn in Hcount; lia|done]. }
    rewrite Hl in Hitems. apply fmap_Some_inj in Hitems as ->.
    destruct added as [|v l]; [cbn in Hcount; lia|]. by exists v, l.
Qed.

Lemma import_inv_settled_finished (db0 : list (list N * list value))
    (o0 : list (list N * value)) (s : import_state) (k : list N)
    (v : value) (l : list value) :
  NoDup (objectStoreNames db0) -> array_valued o0 -> import_inv db0 o0 s ->
  import_settled s = true ->
  k ∈ objectStoreNames db0 -> obj_get o0 k = Some (VArr (v :: l)) ->
  finished (im_requests s) k = true.
Proof.
  intros Hnd Harr Hinv Hset Hk Hget.
  destruct (import_inv_round _ _ _ _ Hnd Harr Hinv Hk)
    as (i & r & added & rest & Hr & Hstore & Hdoc & Hpending & Hcount & _).
  pose proof (import_settled_pending _ _ _ Hset Hr) as Hp.
  rewrite Hp in Hpending. destruct rest; [|done].
  unfold document_records in Hdoc. rewrite Hget, app_nil_r in Hdoc.
  apply finished_round. exists i, r. repeat split; try done.
  rewrite Hcount, <- Hdoc. cbn. lia.
Qed.

Lemma import_settled_reported (db0 : list (list N * list value))
    (o0 : list (list N * value)) (s : import_state) :
  NoDup (objectStoreNames db0) -> array_valued o0 -> import_inv db0 o0 s ->
  import_settled s = true ->
  existsb round_completed (im_requests s)
  && bool_decide (remaining_document (im_requests s) o0 = []) = true
  <-> o0 <> [] /\
      forall k, k ∈ keys o0 ->
        k ∈ objectStoreNames db0 /\
        exists v l, obj_get o0 k = Some (VArr (v :: l)).
Proof.
  intros Hnd Harr Hinv Hset.
  rewrite andb_true_iff, bool_decide_eq_true, remaining_document_nil. split.
  - intros [Hsome Hall]. split.
    + apply existsb_exists in Hsome as (r & Hr & Hc).
      apply list_elem_of_In, list_elem_of_lookup_1 in Hr as [i Hi].
      apply andb_true_iff in Hc as [Hp Hn].
      apply bool_decide_eq_true in Hp. apply Nat.ltb_lt in Hn.
      destruct (import_inv_completed_entry _ _ _ _ _ Harr Hinv Hi Hp Hn)
        as (_ & v & l & Hget).
      intros ->. done.
    + intros k Hk. apply Hall, finished_round in Hk
        as (i & r & Hi & <- & Hp & Hn).
      by eapply import_inv_completed_entry.
  - intros [Hne Hall].
    assert (Hfin : forall k, k ∈ keys o0 -> finished (im_requests s) k = true).
    { intros k Hk. destruct (Hall k Hk) as (Hname & v & l & Hget).
      by eapply import_inv_settled_finished. }
    split; [|done].
    destruct o0 as [|[k v] o0]; [done|].
    pose proof (Hfin k ltac:(apply list_elem_of_here)) as Hk.
    apply finished_round in Hk as (i & r & Hi & _ & Hp & Hn).
    apply existsb_exists. exists r. split.
    + by eapply list_elem_of_In, list_elem_of_lookup_2.
    + unfold round_completed. rewrite andb_true_iff.
      split; [by apply bool_decide_eq_true|by apply Nat.ltb_lt].
Qed.

(** X8.  While its requests succeed, an import calls back at most once, and
    with a null error; it has called back exactly when no request is
    outstanding, the document is not empty, and every key of the document
    names a store of the database and holds an array that is not empty.  A
    store the document does not mention holds nothing back; an empty array
    or a key that names no store keeps the callback from ever being made. *)
Theorem importFromJsonString_reports_success_iff
    (db : list (list N * list value)) (text : list N)
    (o0 : list (list N * value)) (s0 s : import_state)
    (evs : list engine_event) :
  NoDup (objectStoreNames db) ->
  JSON_parse text importResolver = Some (VObj o0) ->
  array_valued o0 ->
  importFromJsonString db text = Started s0 ->
  forallb is_success evs = true ->
  run import_step s0 evs = Some s ->
  (im_calls s = [] \/ im_calls s = [None]) /\
  (im_calls s = [None] <->
   import_settled s = true /\ o0 <> [] /\
   forall k, k ∈ keys o0 ->
     k ∈ objectStoreNames db /\
     exists v l, obj_get o0 k = Some (VArr (v :: l))).
Proof.
  intros Hnd Hparse Harr Hstart Hok Hrun.
  rewrite (importFromJsonString_started _ _ _ Hparse) in Hstart.
  injection Hstart as <-.
  destruct (import_done_run db o0 evs Hnd Harr _ _ (import_inv_init db o0)
              (import_done_init db o0) Hok Hrun) as [Hinv Hdone].
  destruct (import_settled s) eqn:Hset.
  - rewrite (imd_calls _ _ Hdone Hset).
    pose proof (import_settled_reported _ _ _ Hnd Harr Hinv Hset) as Hiff.
    destruct (existsb round_completed (im_requests s)
              && bool_decide (remaining_document (im_requests s) o0 = [])).
    + split; [by right|]. split; [|done].
      intros _. split; [done|]. by apply Hiff.
    + split; [by left|]. split; [done|].
      intros [_ H]. by apply Hiff in H.
  - assert (Hcalls : im_calls s = []).
    { apply (imi_calls _ _ _ Hinv).
      destruct (existsb _ (im_requests s)) eqn:Hex; [done|].
      apply import_settled_idle in Hex. congruence. }
    rewrite Hcalls. split; [by left|]. split; [done|]. by intros [? _].
Qed.

Lemma importFromJsonString_reports_success_iff_witness :
  let db := [([97%N], [VNum 1 0]); ([98%N], [])] in
  let text := [123; 34; 97; 34; 58; 91; 50; 93; 125]%N in
  exists s0 s,
    importFromJsonString db text = Started s0 /\
    run import_step s0 [Success 0] = Some s /\
    im_calls s = [None].
Proof.
  intros db text.
  assert (Hstart : exists s0, importFromJsonString db text = Started s0)
    by (eexists; vm_compute; reflexivity).
  destruct Hstart as (s0 & Hstart).
  assert (Hrun : exists s, run import_step s0 [Success 0] = Some s
                           /\ import_settled s = true).
  { vm_compute in Hstart. injection Hstart as <-.
    eexists. split; vm_compute; reflexivity. }
  destruct Hrun as (s & Hrun & Hset).
  exists s0, s. split; [exact Hstart|]. split; [exact Hrun|].
  destruct (importFromJsonString_reports_success_iff db text
              [([97%N], VArr [VNum 2 0])] s0 s [Success 0]
              ltac:(apply (bool_decide_unpack _); vm_compute; exact I)
              ltac:(vm_compute; reflexivity)
              ltac:(intros k v;
                    cbn [obj_get];
                    destruct (decide (k = [97%N])); [|done];
                    intros [= <-]; by eexists)
              Hstart eq_refl Hrun) as (_ & Hiff).
  apply Hiff. split; [exact Hset|]. split; [discriminate|].
  intros k Hk. apply list_elem_of_singleton in Hk as ->.
  split; [apply list_elem_of_here|]. by exists (VNum 2 0), [].
Defined.

Lemma requests_due_init (db : list (list N * list value))
    (o0 : list (list N * value)) :
  array_valued o0 ->
  requests_due
    ((fun storeName =>
        {| rq_store := storeName; rq_count := 0;
           rq_pending := lodash_forEach (obj_get o0 storeName) |})
       <$> objectStoreNames db)
  = import_events db o0.
Proof.
  intros Harr. unfold requests_due, import_events.
  rewrite <- list_fmap_compose. f_equal.
  apply list_fmap_ext. intros _ name _. cbn.
  by rewrite (lodash_forEach_document _ _ Harr), length_fmap.
Qed.

Lemma requests_due_step (s s' : import_state) (i : nat) :
  import_step s (Success i) = Some s' ->
  S (requests_due (im_requests s')) = requests_due (im_requests s).
Proof.
  cbn [import_step]. destruct (im_aborted s); [done|].
  destruct (im_requests s !! i) as [[name count [|toAdd rest]]|] eqn:Hi;
    try done.
  pose proof (sum_list_fmap_insert (fun r => length (rq_pending r)) _ i _
                {| rq_store := name; rq_count := S count; rq_pending := rest |}
                Hi) as Hsum.
  cbn [rq_pending length] in Hsum.
  destruct (strict_eq_count _ _); intros [= <-]; cbn [im_requests];
    unfold requests_due; lia.
Qed.

Lemma requests_due_run (evs : list engine_event) :
  forall s s',
    forallb is_success evs = true ->
    run import_step s evs = Some s' ->
    length evs + requests_due (im_requests s') = requests_due (im_requests s).
Proof.
  induction evs as [|ev evs IH]; intros s s' Hok Hrun.
  - by injection Hrun as <-.
  - cbn [forallb] in Hok. apply andb_true_iff in Hok as [Hev Hok].
    rewrite run_cons in Hrun.
    destruct ev as [i|]; [|done].
    destruct (import_step s (Success i)) as [s1|] eqn:Hstep; [|done].
    pose proof (requests_due_step _ _ _ Hstep).
    specialize (IH _ _ Hok Hrun). cbn [length]. lia.
Qed.

Lemma import_run_live (evs : list engine_event) :
  forall s s',
    forallb is_success evs = true ->
    run import_step s evs = Some s' ->
    im_aborted s = false -> im_aborted s' = false.
Proof.
  induction evs as [|[i|i e] evs IH]; intros s s' Hok Hrun Hlive.
  - by injection Hrun as <-.
  - rewrite run_cons in Hrun.
    destruct (import_step s (Success i)) as [s1|] eqn:Hstep; [|done].
    apply (IH s1 s'); [done|done|].
    unfold import_step in Hstep. rewrite Hlive in Hstep.
    destruct (im_requests s !! i) as [[name count [|toAdd rest]]|]; try done.
    destruct (strict_eq_count _ _); by injection Hstep as <-.
  - done.
Qed.

Lemma requests_due_settled (s : import_state) :
  requests_due (im_requests s) = 0 <-> import_settled s = true.
Proof.
  unfold requests_due, import_settled.
  induction (im_requests s) as [|[name count [|toAdd rest]] requests IH];
    cbn; [done|done|].
  split; [lia|done].
Qed.

Lemma requests_due_open (s : import_state) :
  im_aborted s = false ->
  0 < requests_due (im_requests s) ->
  exists i s', import_step s (Success i) = Some s'.
Proof.
  intros Hlive Hdue.
  assert (exists i name count toAdd rest,
            im_requests s !! i
            = Some {| rq_store := name; rq_count := count;
                      rq_pending := toAdd :: rest |})
    as (i & name & count & toAdd & rest & Hi).
  { unfold requests_due in Hdue.
    induction (im_requests s) as [|[name count [|toAdd rest]] requests IH].
    - cbn in Hdue. lia.
    - destruct IH as (i & IH); [done|]. by exists (S i).
    - by exists 0, name, count, toAdd, rest. }
  exists i. cbn [import_step]. rewrite Hlive, Hi.
  destruct (strict_eq_count _ _); by eexists.
Qed.

(** X9.  An import takes one event for each value the document lists under
    the name of a store of the database, and for no other value: its events
    never exceed that number, no request is outstanding exactly when that
    many have been delivered, and until then some request is still due. *)
Theorem importFromJsonString_takes_one_event_per_value
    (db : list (list N * list value)) (text : list N)
    (o0 : list (list N * value)) (s0 s : import_state)
    (evs : list engine_event) :
  JSON_parse text importResolver = Some (VObj o0) ->
  array_valued o0 ->
  importFromJsonString db text = Started s0 ->
  forallb is_success evs = true ->
  run import_step s0 evs = Some s ->
  length evs <= import_events db o0 /\
  (import_settled s = true <-> length evs = import_events db o0) /\
  (length evs < import_events db o0 ->
   exists i s', import_step s (Success i) = Some s').
Proof.
  intros Hparse Harr Hstart Hok Hrun.
  rewrite (importFromJsonString_started _ _ _ Hparse) in Hstart.
  injection Hstart as <-.
  pose proof (requests_due_run _ _ _ Hok Hrun) as Hdue.
  cbn [im_requests] in Hdue.
  rewrite (requests_due_init db o0 Harr) in Hdue.
  split; [lia|]. split.
  - rewrite <- requests_due_settled. lia.
  - intros Hlt. apply requests_due_open; [|lia].
    by apply (import_run_live _ _ _ Hok Hrun).
Qed.

Lemma importFromJsonString_takes_one_event_per_value_witness :
  let db := [([97%N], [VNum 1 0]); ([98%N], [])] in
  let text := [123; 34; 97; 34; 58; 91; 50; 44; 51; 93; 44;
               34; 120; 34; 58; 91; 52; 93; 125]%N in
  let o0 := [([97%N], VArr [VNum 2 0; VNum 3 0]); ([120%N], VArr [VNum 4 0])] in
  import_events db o0 = 2 /\
  exists s0 s,
    importFromJsonString db text = Started s0 /\
    run import_step s0 [Success 0; Success 0] = Some s /\
    import_settled s = true.
Proof.
  intros db text o0. split; [reflexivity|].
  assert (Hstart : exists s0, importFromJsonString db text = Started s0)
    by (eexists; vm_compute; reflexivity).
  destruct Hstart as (s0 & Hstart).
  assert (Hrun : exists s, run import_step s0 [Success 0; Success 0] = Some s).
  { vm_compute in Hstart. injection Hstart as <-.
    eexists. vm_compute. reflexivity. }
  destruct Hrun as (s & Hrun).
  exists s0, s. split; [exact Hstart|]. split; [exact Hrun|].
  destruct (importFromJsonString_takes_one_event_per_value db text o0 s0 s
              [Success 0; Success 0]
              ltac:(vm_compute; reflexivity)
              ltac:(intros k v; unfold o0;
                    cbn [obj_get];
                    destruct (decide (k = [97%N])); [intros [= <-]; by eexists|];
                    destruct (decide (k = [120%N])); [|done];
                    intros [= <-]; by eexists)
              Hstart eq_refl Hrun) as (_ & Hiff & _).
  by apply Hiff.
Defined.
(** ** Every run, and the three operations together *)

Lemma import_done_calls (o0 : list (list N * value)) (db0 : list (list N * list value))
    (s : import_state) :
  import_inv db0 o0 s -> import_done o0 s ->
  im_calls s = [] \/ im_calls s = [None].
Proof.
  intros Hinv Hdone. destruct (import_settled s) eqn:Hset.
  - rewrite (imd_calls _ _ Hdone Hset).
    destruct (existsb round_completed (im_requests s)
              && bool_decide (remaining_document (im_requests s) o0 = []));
      [by right|by left].
  - left. apply (imi_calls _ _ _ Hinv).
    destruct (existsb _ (im_requests s)) eqn:Hex; [done|].
    apply import_settled_idle in Hex. congruence.
Qed.

(** X10.  Success is reported at most once, and never in a run in which an
    error is reported: whatever the engine delivers to an export, an import
    or a clear, successes in any order and errors where it can raise them,
    the calls made are none or one call that reports success while no error
    has been delivered, and after that one call for each error event and no
    other. *)
Theorem success_is_reported_at_most_once
    (max_arguments : N) (db : list (list N * list value)) (text : list N)
    (o0 : list (list N * value)) (evs : list engine_event) :
  NoDup (objectStoreNames db) ->
  JSON_parse text importResolver = Some (VObj o0) ->
  array_valued o0 ->
  (forall s,
     run (export_step max_arguments) (exportToJsonString db) evs = Some s ->
     if forallb is_success evs
     then ex_calls s = [] \/ exists t, ex_calls s = [(None, Some t)]
     else ex_calls s = (fun e => (Some e, None)) <$> errors_of evs) /\
  (exists s0, importFromJsonString db text = Started s0 /\
     forall s, run import_step s0 evs = Some s ->
       if forallb is_success evs
       then im_calls s = [] \/ im_calls s = [None]
       else im_calls s = Some <$> errors_of evs) /\
  (forall s, run clear_step (clearDatabase db) evs = Some s ->
     if forallb is_success evs
     then cl_calls s = [] \/ cl_calls s = [None]
     else cl_calls s = Some <$> errors_of evs).
Proof.
  intros Hnd Hparse Harr. split; [|split].
  - intros s Hrun. destruct (forallb is_success evs) eqn:Hok.
    + assert (Hinv : export_inv max_arguments db s)
        by (eapply export_inv_run; [done|apply export_inv_init|done|done]).
      rewrite (exi_calls _ _ _ Hinv).
      destruct (_ =? _)%nat; [|by left]. unfold export_call.
      destruct (JSON_stringify _ _) as [t|]; [right; by exists t|by left].
    + by eapply export_error_calls.
  - eexists. split; [by apply importFromJsonString_started|].
    intros s Hrun. destruct (forallb is_success evs) eqn:Hok.
    + destruct (import_done_run db o0 evs Hnd Harr _ _ (import_inv_init db o0)
                  (import_done_init db o0) Hok Hrun) as [Hinv Hdone].
      by eapply import_done_calls.
    + eapply import_error_calls; [done|done|apply import_inv_init|done|done].
  - intros s Hrun. destruct (forallb is_success evs) eqn:Hok.
    + destruct (clear_progress_run db evs Hnd _ _ (clear_inv_init db)
                  (clear_progress_init db Hnd) Hok Hrun) as (_ & Hp & _).
      rewrite (clp_calls _ _ Hp). destruct (_ || _); [by left|by right].
    + by eapply clear_error_calls.
Qed.

Lemma success_is_reported_at_most_once_witness :
  let db := [([97%N], [VNum 1 0])] in
  let text := [123; 34; 97; 34; 58; 91; 50; 93; 125]%N in
  (exists s, run (export_step 65536) (exportToJsonString db)
               [Success 0; Success 0] = Some s /\
             (ex_calls s = [] \/ exists t, ex_calls s = [(None, Some t)])) /\
  (exists s0 s, importFromJsonString db text = Started s0 /\
                run import_step s0 [Success 0] = Some s /\
                (im_calls s = [] \/ im_calls s = [None])) /\
  (exists s, run clear_step (clearDatabase db) [Success 0] = Some s /\
             (cl_calls s = [] \/ cl_calls s = [None])).
Proof.
  intros db text.
  destruct (success_is_reported_at_most_once 65536 db text
              [([97%N], VArr [VNum 2 0])] [Success 0; Success 0]
              ltac:(apply (bool_decide_unpack _); vm_compute; exact I)
              ltac:(vm_compute; reflexivity)
              ltac:(intros k v;
                    cbn [obj_get];
                    destruct (decide (k = [97%N])); [|done];
                    intros [= <-]; by eexists))
    as (Hexport & _ & _).
  destruct (success_is_reported_at_most_once 65536 db text
              [([97%N], VArr [VNum 2 0])] [Success 0]
              ltac:(apply (bool_decide_unpack _); vm_compute; exact I)
              ltac:(vm_compute; reflexivity)
              ltac:(intros k v;
                    cbn [obj_get];
                    destruct (decide (k = [97%N])); [|done];
                    intros [= <-]; by eexists))
    as (_ & (s0 & Hstart & Himport) & Hclear).
  split; [|split].
  - eexists. split; [vm_compute; reflexivity|].
    apply (Hexport _ ltac:(vm_compute; reflexivity)).
  - exists s0. eexists. split; [exact Hstart|].
    vm_compute in Hstart. injection Hstart as <-.
    split; [vm_compute; reflexivity|].
    apply (Himport _ ltac:(vm_compute; reflexivity)).
  - eexists. split; [vm_compute; reflexivity|].
    apply (Hclear _ ltac:(vm_compute; reflexivity)).
Defined.

Lemma import_exported_document (max_arguments : N)
    (db : list (list N * list value)) (s : export_state) (text : list N) :
  NoDup (objectStoreNames db) ->
  (forall name records r,
     (name, records) ∈ db -> r ∈ records -> well_formed r = true) ->
  export_inv max_arguments db s ->
  ex_calls s = [(None, Some text)] ->
  exists s0,
    importFromJsonString (emptied db) text = Started s0 /\
    forall evs' s',
      forallb is_success evs' = true ->
      run import_step s0 evs' = Some s' ->
      import_settled s' = true ->
      im_database s' = reimported_database db.
Proof.
  intros Hnd Hwf Hinv Hcalls.
  destruct (export_call_text _ _ _ _ Hnd Hinv Hcalls)
    as (Hset & Hproto & Htext).
  pose proof (export_inv_well_formed _ _ _ Hinv Hwf) as Hwfo.
  pose proof (JSON_parse_stringify _ _ _ Hwfo Htext) as Hparse.
  cbn [reimported] in Hparse.
  assert (Hdoc : forall name, name ∈ objectStoreNames db ->
            obj_get (exportObject s) name
            = Some (VArr (store_records db name))).
  { intros name Hname. eapply export_inv_records; [done|done|done|].
    by intros ->. }
  set (o0 := (fun kx : list N * value => (fst kx, reimported (snd kx)))
               <$> exportObject s) in *.
  assert (Harr : array_valued o0).
  { intros k v. unfold o0. rewrite obj_get_fmap.
    destruct (obj_get (exportObject s) k) as [v0|] eqn:Hget; [|done].
    intros [= <-].
    assert (Hk : k ∈ objectStoreNames db)
      by (apply Hinv; by eapply obj_get_Some_key).
    rewrite (Hdoc _ Hk) in Hget.
    injection Hget as <-. by eexists. }
  eexists. split; [by apply importFromJsonString_started|].
  intros evs' s' Hok' Hrun' Hset'.
  apply import_inv_settled_database with (o := exportObject s);
    [done|done| |done].
  eapply import_inv_run; [by rewrite emptied_names|done| |done|done].
  rewrite emptied_names.
  pose proof (import_inv_init (emptied db) o0) as H0.
  by rewrite emptied_names in H0.
Qed.

(** X11.  The three operations in a row: export a database, clear it, and
    import the exported text into it.  Once the clear has reported success
    and every addition has succeeded, each store holds its records again,
    in order, as the codec hands them back; and exactly its records where
    none of them holds a buffer other than the empty one or a string that
    starts with the sentinel. *)
Theorem export_clear_import_restores
    (max_arguments : N) (db : list (list N * list value))
    (evs cleared : list engine_event)
    (s : export_state) (text : list N) (c : clear_state) :
  NoDup (objectStoreNames db) ->
  (forall name records r,
     (name, records) ∈ db -> r ∈ records -> well_formed r = true) ->
  forallb is_success evs = true ->
  run (export_step max_arguments) (exportToJsonString db) evs = Some s ->
  ex_calls s = [(None, Some text)] ->
  forallb is_success cleared = true ->
  run clear_step (clearDatabase db) cleared = Some c ->
  cl_calls c = [None] ->
  cl_database c = emptied db /\
  exists s0,
    importFromJsonString (cl_database c) text = Started s0 /\
    forall evs' s',
      forallb is_success evs' = true ->
      run import_step s0 evs' = Some s' ->
      import_settled s' = true ->
      im_database s' = reimported_database db /\
      ((forall name records r,
          (name, records) ∈ db -> r ∈ records -> plain r = true) ->
       im_database s' = db).
Proof.
  intros Hnd Hwf Hok Hrun Hcalls Hokc Hrunc Hcallsc.
  assert (Hempty : cl_database c = emptied db).
  { destruct (clear_progress_run db cleared Hnd _ _ (clear_inv_init db)
                (clear_progress_init db Hnd) Hokc Hrunc) as (_ & Hp & _).
    apply clear_progress_emptied; [done|].
    rewrite (clp_calls _ _ Hp) in Hcallsc.
    by destruct (existsb snd (cl_requests c)). }
  split; [done|]. rewrite Hempty.
  pose proof (export_inv_run max_arguments db evs Hnd _ _
                (export_inv_init max_arguments db) Hok Hrun) as Hinv.
  destruct (import_exported_document _ db s text Hnd Hwf Hinv Hcalls)
    as (s0 & Hstart & Himport).
  exists s0. split; [done|].
  intros evs' s' Hok' Hrun' Hset'.
  pose proof (Himport evs' s' Hok' Hrun' Hset') as Hdb.
  split; [done|].
  intros Hplain. rewrite Hdb. unfold reimported_database.
  rewrite <- (list_fmap_id db) at 2.
  apply list_fmap_ext. intros i [name records] Hi. simpl. f_equal.
  rewrite <- (list_fmap_id records) at 2.
  apply list_fmap_ext. intros j r Hj. simpl.
  apply reimported_plain. eapply Hplain; by eapply list_elem_of_lookup_2.
Qed.

Lemma export_clear_import_restores_witness :
  let db := [([97%N], [VNum 1 0; VStr [120%N]]); ([98%N], [VBool true])] in
  exists s text c s0 s',
    run (export_step 65536) (exportToJsonString db)
      [Success 0; Success 1; Success 0; Success 1; Success 0] = Some s /\
    ex_calls s = [(None, Some text)] /\
    run clear_step (clearDatabase db) [Success 1; Success 0] = Some c /\
    cl_database c = [([97%N], []); ([98%N], [])] /\
    importFromJsonString (cl_database c) text = Started s0 /\
    run import_step s0 [Success 1; Success 0; Success 0] = Some s' /\
    im_database s' = db.
Proof.
  intros db.
  assert (Hexport : exists s text,
             run (export_step 65536) (exportToJsonString db)
               [Success 0; Success 1; Success 0; Success 1; Success 0]
             = Some s /\
             ex_calls s = [(None, Some text)]).
  { eexists. eexists. split; vm_compute; reflexivity. }
  destruct Hexport as (s & text & Hrun & Hcalls).
  assert (Hclear : exists c,
             run clear_step (clearDatabase db) [Success 1; Success 0] = Some c
             /\ cl_calls c = [None]).
  { eexists. split; vm_compute; reflexivity. }
  destruct Hclear as (c & Hrunc & Hcallsc).
  destruct (export_clear_import_restores 65536 db
              [Success 0; Success 1; Success 0; Success 1; Success 0]
              [Success 1; Success 0] s text c
              ltac:(apply (bool_decide_unpack _); vm_compute; exact I)
              ltac:(apply records_Forall; repeat constructor)
              eq_refl Hrun Hcalls eq_refl Hrunc Hcallsc)
    as (Hempty & s0 & Hstart & Himport).
  exists s, text, c, s0. eexists.
  split; [exact Hrun|]. split; [exact Hcalls|]. split; [exact Hrunc|].
  split; [exact Hempty|]. split; [exact Hstart|].
  injection Hrun as <-. injection Hcalls as <-. injection Hrunc as <-.
  vm_compute in Hstart. injection Hstart as <-.
  split; [vm_compute; reflexivity|].
  match goal with
  | |- im_database ?s' = _ =>
      destruct (Himport [Success 1; Success 0; Success 0] s' eq_refl
                  ltac:(vm_compute; reflexivity)
                  ltac:(vm_compute; reflexivity)) as [_ Hdb]
  end.
  apply Hdb. apply records_Forall. repeat constructor.
Defined.

Lemma import_settled_nothing (v : value) (names : list (list N)) :
  (forall name, name ∈ names -> lodash_forEach (get_prop v name) = []) ->
  forallb (fun r => bool_decide (rq_pending r = []))
    ((fun storeName =>
        {| rq_store := storeName; rq_count := 0;
           rq_pending := lodash_forEach (get_prop v storeName) |})
       <$> names) = true.
Proof.
  induction names as [|n names IH]; intros Hnone; [done|].
  cbn [fmap list_fmap forallb rq_pending]. fold_fmap.
  rewrite (Hnone n) by apply list_elem_of_here.
  rewrite IH; [done|]. intros name Hname.
  by apply Hnone, list_elem_of_further.
Qed.

(** X12.  A document that is null makes an import into a database with
    stores throw a TypeError out of the call.  Any other document that
    lists no value under the name of any store (a number, an object with
    other keys, empty arrays) starts an import that makes no request,
    leaves the database as it is and never calls back. *)
Theorem importFromJsonString_nothing_to_import
    (db : list (list N * list value)) (text : list N) (v : value) :
  db <> [] ->
  JSON_parse text importResolver = Some v ->
  (v = VNull -> importFromJsonString db text = Threw TypeError) /\
  (v <> VNull ->
   (forall name, name ∈ objectStoreNames db ->
      lodash_forEach (get_prop v name) = []) ->
   exists s0,
     importFromJsonString db text = Started s0 /\
     im_calls s0 = [] /\
     im_database s0 = db /\
     forall evs s, run import_step s0 evs = Some s ->
       evs = [] /\ im_calls s = []).
Proof.
  intros Hdb Hparse. unfold importFromJsonString. rewrite Hparse. split.
  - intros ->. destruct db as [|[n rs] db]; [done|]. by cbn.
  - intros Hv Hnone.
    pose proof (import_settled_nothing v _ Hnone) as Hset.
    eexists. split.
    + destruct v; try done; by destruct (objectStoreNames db).
    + cbn [im_calls im_database]. split; [done|]. split; [done|].
      intros [|ev evs] s Hrun.
      * split; [done|]. by injection Hrun as <-.
      * rewrite run_cons, import_settled_stuck in Hrun; done.
Qed.

Lemma importFromJsonString_nothing_to_import_witness :
  let db := [([97%N], [VNum 1 0])] in
  importFromJsonString db [110; 117; 108; 108]%N = Threw TypeError /\
  exists s0,
    importFromJsonString db [123; 34; 97; 34; 58; 91; 93; 125]%N = Started s0 /\
    im_calls s0 = [] /\
    forall evs s, run import_step s0 evs = Some s -> evs = [] /\ im_calls s = [].
Proof.
  intros db. split.
  - apply (importFromJsonString_nothing_to_import db [110; 117; 108; 108]%N
             VNull ltac:(discriminate) eq_refl); reflexivity.
  - destruct (importFromJsonString_nothing_to_import db
                [123; 34; 97; 34; 58; 91; 93; 125]%N (VObj [([97%N], VArr [])])
                ltac:(discriminate) eq_refl) as [_ Hstart].
    destruct Hstart as (s0 & Hstart & Hcalls & _ & Hnever);
      [discriminate| |].
    + intros name Hname. apply list_elem_of_singleton in Hname as ->.
      reflexivity.
    + exists s0. split; [exact Hstart|]. split; [exact Hcalls|exact Hnever].
Defined.
